(** * ssm: the instance cache store, name resolution and the discovery fan-out

    A shallow embedding of

      - internal/storage  (models.go, the instance repository and its
                           converters, the region and profile repositories),
      - internal/aws      (client.go, ssm.go),
      - internal/service  (discovery.go, service.go),
      - internal/config   (the defaults),
      - cmd               (list.go),

    together with the properties the design document states about them,
    and with further properties of the code.

    Conventions of the embedding.

    - A Go [string] is a [string] (a sequence of bytes); [time.Time] and
      [time.Duration] are integers (nanoseconds), so that [t.Add(-d)] is
      [t - d] and SQL comparison of timestamps is comparison of integers.
    - A Go [error] is [option string]: [None] is [nil], [Some m] carries the
      message of the outermost [fmt.Errorf] (the wrapped cause is dropped).
      A pair [(v, err)] returned by a Go function is a [result].
    - A table is the list of its rows in primary-key order; a row inserted
      with a fresh [AUTOINCREMENT] key goes to the end of the list.
    - The store may refuse any statement (I/O error, busy database, ...).
      Every repository operation therefore takes a fault oracle [Faults]
      which says, statement by statement, whether the store refuses it.
    - A call to [time.Now()] is an argument [now] of the operation that
      makes it; the readings taken inside one repository call are taken
      to be equal. *)

From Stdlib Require Import List String Ascii ZArith Bool Arith Lia DecimalString.
From Stdlib Require Import DecimalNat.
From Stdlib Require Import Permutation Sorted.
Import ListNotations.
Open Scope string_scope.
Open Scope Z_scope.

(* ================================================================== *)
(** ** Go values *)

Definition Time := Z.
Definition Duration := Z.

(** Go's [error]. *)
Definition error := option string.
Definition nil : error := None.

(** A Go result pair [(v, err)]. *)
Inductive result (A : Type) : Type :=
| Ok (a : A)
| Error (msg : string).
Arguments Ok {A} a.
Arguments Error {A} msg.

(** The zero test GORM applies to a string field of a struct condition. *)
Definition isZero (s : string) : bool := (s =? "")%string.

(** SQLite's [lower()]: the 26 upper-case ASCII letters are folded, every
    other byte is left alone. *)
Definition lower_ascii (c : ascii) : ascii :=
  let n := nat_of_ascii c in
  if ((65 <=? n) && (n <=? 90))%nat then ascii_of_nat (n + 32) else c.

Fixpoint lower (s : string) : string :=
  match s with
  | EmptyString => EmptyString
  | String c s' => String (lower_ascii c) (lower s')
  end.

(** Logging (logrus): only the level, the message and the fields a
    property talks about are kept. *)
Inductive Level := DebugLevel | InfoLevel | WarnLevel.

Record LogEntry := { level : Level; message : string; fields : list (string * Z) }.

Definition Log := list LogEntry.

(* ================================================================== *)
(** ** The AWS SDK types the converters read

    A pointer field is an [option]; only the fields the repository reads
    are kept. *)

(** [github.com/aws/aws-sdk-go-v2/service/ec2/types]. *)
Module ectype.

Record Tag := { Key : option string; Value : option string }.

(** [InstanceId] is dereferenced without a nil test by the converter; it
    is always set in a [DescribeInstances] answer and is kept as a plain
    string.  [StateName] is [State.Name]; a nil [Tags] slice is [None]. *)
Record Instance := {
  InstanceId : string;
  StateName : string;
  Tags : option (list Tag);
  PlatformDetails : option string
}.

End ectype.

(** [github.com/aws/aws-sdk-go-v2/service/ssm/types]. *)
Module ssmtypes.

Record InstanceInformation := {
  InstanceId : option string;
  PingStatus : string;
  Name : option string;
  ComputerName : option string;
  PlatformName : option string
}.

End ssmtypes.

(* ================================================================== *)
(** ** The functions of Go's [strings] package the code calls *)

Module strings.

(** [strings.HasPrefix(s, prefix)]. *)
Definition HasPrefix (s p : string) : bool := String.prefix p s.

(** [strings.TrimPrefix(s, prefix)]. *)
Definition TrimPrefix (s p : string) : string :=
  if HasPrefix s p
  then substring (String.length p) (String.length s - String.length p) s
  else s.

(** [strings.Contains(s, substr)]. *)
Definition Contains (s substr : string) : bool :=
  match String.index 0 substr s with
  | Some _ => true
  | None => false
  end.

(** [strings.EqualFold(s, t)] for a [t] made of ASCII letters none of
    which has a case variant outside ASCII (such as ["Online"]): the two
    strings are equal once the 26 upper-case ASCII letters are folded. *)
Definition EqualFold (s t : string) : bool := (lower s =? lower t)%string.

End strings.

(* ================================================================== *)
(** ** internal/aws *)

Module aws.

(** [type Client struct], without the SDK configuration and handles. *)
Record Client := {
  Profile : string;
  Region : string;
  AccountID : string
}.

(* ------------------------------------------------------------------ *)
(** *** client.go: the profiles of the configuration files *)

(** What [os.Stat] and [ini.Load] find at a path: no file, a file that
    does not parse, or the names of the sections of the file, in order. *)
Inductive File :=
| Missing
| Unparsable
| Sections (sectionNames : list string).

(** The body of the loop of [readProfilesFromFile] over the section
    names: the profile the section stands for, if any. *)
Definition sectionProfile (isConfigFile : bool) (sectionName : string) : option string :=
  let named (profileName : string) :=
    if (profileName =? "")%string then None else Some profileName in
  if isConfigFile then
    if strings.HasPrefix sectionName "profile "
    then named (strings.TrimPrefix sectionName "profile ")
    else if negb (sectionName =? "default")%string then None
    else named sectionName
  else named sectionName.

Fixpoint sectionProfiles (isConfigFile : bool) (sectionNames : list string) : list string :=
  match sectionNames with
  | [] => []
  | sectionName :: rest =>
      match sectionProfile isConfigFile sectionName with
      | Some profileName => profileName :: sectionProfiles isConfigFile rest
      | None => sectionProfiles isConfigFile rest
      end
  end.

(** [func readProfilesFromFile(filePath string, isConfigFile bool) ([]string, error)],
    on what is found at [filePath]. *)
Definition readProfilesFromFile (file : File) (isConfigFile : bool) : result (list string) :=
  match file with
  | Missing => Error "file does not exist"
  | Unparsable => Error "failed to parse AWS config file"
  | Sections sectionNames => Ok (sectionProfiles isConfigFile sectionNames)
  end.

(** The keys of [profileSet] after the two files have been read. *)
Definition profileSet (config credentials : File) : list string :=
  nodup string_dec
    ((match readProfilesFromFile config true with Ok l => l | Error _ => [] end)
     ++ (match readProfilesFromFile credentials false with Ok l => l | Error _ => [] end)).

(** [func GetAvailableProfiles() ([]string, error)]: the lists it can
    return (its error is always [nil]).  [home] is the answer of
    [os.UserHomeDir], [config] and [credentials] are what is found at
    [~/.aws/config] and [~/.aws/credentials].  The keys of a Go map are
    ranged over in an unspecified order. *)
Inductive GetAvailableProfiles (home : option string) (config credentials : File)
  : list string -> Prop :=
| GetAvailableProfiles_no_home :
    home = None ->
    GetAvailableProfiles home config credentials ["default"]
| GetAvailableProfiles_none : forall h,
    home = Some h ->
    List.length (profileSet config credentials) = 0%nat ->
    GetAvailableProfiles home config credentials ["default"]
| GetAvailableProfiles_found : forall h profiles,
    home = Some h ->
    List.length (profileSet config credentials) <> 0%nat ->
    Permutation profiles (profileSet config credentials) ->
    GetAvailableProfiles home config credentials profiles.

(* ------------------------------------------------------------------ *)
(** *** client.go: the client manager *)

(** The answers of the SDK: [LoadDefaultConfig] for a profile and a
    region, and [GetCallerIdentity] on the STS client made from that
    configuration (its [Account] field is a pointer).  The answers are
    taken not to change between two calls. *)
Record SDK := {
  LoadDefaultConfig : string -> string -> error;
  GetCallerIdentity : string -> string -> result (option string)
}.

(** [type ClientManager struct]: the map [clients], as the list of its
    entries, the latest first. *)
Definition ClientManager := list (string * Client).

(** [NewClientManager]. *)
Definition NewClientManager : ClientManager := [].

(** [client, exists := cm.clients[key]]. *)
Fixpoint clientAt (key : string) (cm : ClientManager) : option Client :=
  match cm with
  | [] => None
  | (k, client) :: rest => if (k =? key)%string then Some client else clientAt key rest
  end.

(** [func (cm *ClientManager) getAccountID(ctx, stsClient) (string, error)]. *)
Definition getAccountID (answer : result (option string)) : result string :=
  match answer with
  | Error _ => Error "failed to get caller identity"
  | Ok None => Error "account ID is nil"
  | Ok (Some account) => Ok account
  end.

(** [func (cm *ClientManager) createClient(ctx, profile, region)], which
    returns a [Client] pointer and an error, with the log it writes. *)
Definition createClient (sdk : SDK) (profile region : string) : Log * result Client :=
  match LoadDefaultConfig sdk profile region with
  | Some _ => ([], Error "failed to load AWS config for profile")
  | None =>
      match getAccountID (GetCallerIdentity sdk profile region) with
      | Error _ =>
          ([{| level := WarnLevel; message := "Failed to get account ID"; fields := [] |}],
           Ok {| Profile := profile; Region := region; AccountID := "unknown" |})
      | Ok accountID =>
          ([], Ok {| Profile := profile; Region := region; AccountID := accountID |})
      end
  end.

(** [func (cm *ClientManager) GetClient(ctx, profile, region)], which
    returns a [Client] pointer and an error, with the manager it leaves
    and the log it writes.  The second test of the map, made under the
    write lock, finds what the first one found when no other goroutine
    runs in between. *)
Definition GetClient (sdk : SDK) (cm : ClientManager) (profile region : string)
  : ClientManager * Log * result Client :=
  let key := profile ++ ":" ++ region in
  match clientAt key cm with
  | Some client => (cm, [], Ok client)
  | None =>
      match clientAt key cm with
      | Some client => (cm, [], Ok client)
      | None =>
          match createClient sdk profile region with
          | (log, Error m) => (cm, log, Error m)
          | (log, Ok client) =>
              ((key, client) :: cm,
               (log ++ [{| level := DebugLevel; message := "Created AWS client"; fields := [] |}])%list,
               Ok client)
          end
      end
  end.

(** [func (cm *ClientManager) ValidateCredentials(ctx, profile) error]. *)
Definition ValidateCredentials (sdk : SDK) (cm : ClientManager) (profile : string)
  : ClientManager * error :=
  match GetClient sdk cm profile "us-east-1" with
  | (cm', _, Error _) => (cm', Some "failed to create client for profile")
  | (cm', _, Ok client) =>
      match getAccountID (GetCallerIdentity sdk (Profile client) (Region client)) with
      | Error _ => (cm', Some "invalid credentials for profile")
      | Ok _ => (cm', nil)
      end
  end.

(* ------------------------------------------------------------------ *)
(** *** ssm.go *)

(** The answers a session gets: [DescribeInstanceInformation] filtered on
    the instance, and the outcome of running the AWS CLI. *)
Record SessionWorld := {
  DescribeInstanceInformation : result (list ssmtypes.InstanceInformation);
  Run : error
}.

(** [func (sm *SSMSessionManager) checkInstanceReachability(ctx, instanceID) error]. *)
Definition checkInstanceReachability (w : SessionWorld) : error :=
  match DescribeInstanceInformation w with
  | Error _ => Some "failed to describe instance information"
  | Ok [] => Some "instance not found in SSM inventory"
  | Ok (info :: _) =>
      if (ssmtypes.PingStatus info =? "Offline")%string
      then Some "instance is offline"
      else nil
  end.

(** The arguments [startSessionWithCLI] passes to [aws]. *)
Definition startSessionArgs (client : Client) (instanceID : string) : list string :=
  [ "ssm"; "start-session";
    "--target"; instanceID;
    "--profile"; Profile client;
    "--region"; Region client ].

(** [func (sm *SSMSessionManager) startSessionWithCLI(instanceID string) error],
    with the commands it runs (each the arguments given to [aws]). *)
Definition startSessionWithCLI (w : SessionWorld) (client : Client) (instanceID : string)
  : list (list string) * error :=
  ([startSessionArgs client instanceID],
   match Run w with
   | Some _ => Some "failed to start SSM session"
   | None => nil
   end).

(** [func (sm *SSMSessionManager) StartSession(ctx, instanceID) error],
    with the commands it runs. *)
Definition StartSession (w : SessionWorld) (client : Client) (instanceID : string)
  : list (list string) * error :=
  match checkInstanceReachability w with
  | Some _ => ([], Some "instance not reachable via SSM")
  | None => startSessionWithCLI w client instanceID
  end.

(** [func (sm *SSMSessionManager) ListManagedInstances(ctx) ([]types.InstanceInformation, error)].
    [pages] holds the answers to the successive calls of [NextPage], the
    last page being the one without a next token; the loop appends page
    after page and gives up at the first error. *)
Fixpoint ListManagedInstances_loop (instances : list ssmtypes.InstanceInformation)
         (pages : list (result (list ssmtypes.InstanceInformation)))
  : result (list ssmtypes.InstanceInformation) :=
  match pages with
  | [] => Ok instances
  | Error _ :: _ => Error "failed to list managed instances"
  | Ok page :: rest => ListManagedInstances_loop (instances ++ page)%list rest
  end.

Definition ListManagedInstances (pages : list (result (list ssmtypes.InstanceInformation)))
  : result (list ssmtypes.InstanceInformation) :=
  ListManagedInstances_loop [] pages.

End aws.

(* ================================================================== *)
(** ** internal/storage *)

Module storage.

(** [type Tag struct]. *)
Record Tag := {
  TagID : nat;
  TagInstanceID : string;
  Key : string;
  Value : string
}.

(** [type Instance struct].  [Tags] is the has-many association through
    [tags.instance_id]; it is not a column of the [instances] table. *)
Record Instance := {
  ID : nat;
  InstanceID : string;
  Name : string;
  Region : string;
  Profile : string;
  AccountID : string;
  State : string;
  Platform : string;
  LastSeen : Time;
  CreatedAt : Time;
  UpdatedAt : Time;
  Tags : list Tag
}.

(** The store: tables [instances] and [tags] and their [AUTOINCREMENT]
    counters.  The [Tags] field of a stored row is meaningless: reading a
    row goes through [scan], which leaves the association empty. *)
Record DB := {
  instances : list Instance;
  tags : list Tag;
  next_instance_id : nat;
  next_tag_id : nat
}.

Definition empty_db : DB :=
  {| instances := []; tags := []; next_instance_id := 1; next_tag_id := 1 |}.

Definition set_instances (rows : list Instance) (db : DB) : DB :=
  {| instances := rows; tags := tags db;
     next_instance_id := next_instance_id db; next_tag_id := next_tag_id db |}.

Definition set_tags (ts : list Tag) (db : DB) : DB :=
  {| instances := instances db; tags := ts;
     next_instance_id := next_instance_id db; next_tag_id := next_tag_id db |}.

Definition set_Tags (ts : list Tag) (i : Instance) : Instance :=
  {| ID := ID i; InstanceID := InstanceID i; Name := Name i; Region := Region i;
     Profile := Profile i; AccountID := AccountID i; State := State i;
     Platform := Platform i; LastSeen := LastSeen i; CreatedAt := CreatedAt i;
     UpdatedAt := UpdatedAt i; Tags := ts |}.

(** Scanning a row into a fresh [Instance]: the columns are copied, the
    association stays at its zero value. *)
Definition scan (row : Instance) : Instance := set_Tags [] row.

(** [SELECT * FROM tags WHERE instance_id = ?]. *)
Definition tags_of (iid : string) (db : DB) : list Tag :=
  filter (fun t => (TagInstanceID t =? iid)%string) (tags db).

(** [Preload("Tags")]: the association is filled with the tags whose
    [instance_id] is the row's [InstanceID]. *)
Definition preload (db : DB) (row : Instance) : Instance :=
  set_Tags (tags_of (InstanceID row) db) row.

(* ------------------------------------------------------------------ *)
(** *** Statements and faults *)

(** [type InstanceFilter struct]: a nil pointer is [None]. *)
Record InstanceFilter := {
  FProfile : option string;
  FRegion : option string;
  FName : option string;
  FState : option string
}.

(** The statements the repository sends to the store. *)
Inductive Stmt :=
| SFirstOrCreate (i : Instance)
| SDeleteTags (iid : string)
| SCreateTags (ts : list Tag)
| SCommit
| SFirstByName (name : string)
| SFirstByID (iid : string)
| SFind (f : option InstanceFilter)
| SDeleteStale (cutoff : Time).

(** A fault oracle: [flt s = true] when the store refuses [s]. *)
Definition Faults := Stmt -> bool.

Definition no_faults : Faults := fun _ => false.

(** [DB.Transaction(fn)]: [fn] runs on the store; when it returns an error
    the transaction is rolled back and the error returned, otherwise the
    transaction commits (and the commit itself may be refused). *)
Definition Transaction (flt : Faults) (fn : DB -> result DB) (db : DB) : DB * error :=
  match fn db with
  | Error m => (db, Some m)
  | Ok db' => if flt SCommit then (db, Some "commit failed") else (db', nil)
  end.

(* ------------------------------------------------------------------ *)
(** *** SaveOrUpdate, SaveOrUpdateBatch *)

(** [tx.Where(Instance{InstanceID, Region, Profile})]: GORM builds the
    condition from the non-zero fields of the struct. *)
Definition whereKey (q row : Instance) : bool :=
  ((isZero (InstanceID q) || (InstanceID row =? InstanceID q)%string) &&
   (isZero (Region q) || (Region row =? Region q)%string) &&
   (isZero (Profile q) || (Profile row =? Profile q)%string))%bool.

(** [.Assign(Instance{Name, AccountID, State, Platform, LastSeen: now})] on
    a row that was found: the non-zero fields of the struct are written,
    and GORM stamps [updated_at]. *)
Definition assignTo (now : Time) (src row : Instance) : Instance :=
  {| ID := ID row;
     InstanceID := InstanceID row;
     Name := if isZero (Name src) then Name row else Name src;
     Region := Region row;
     Profile := Profile row;
     AccountID := if isZero (AccountID src) then AccountID row else AccountID src;
     State := if isZero (State src) then State row else State src;
     Platform := if isZero (Platform src) then Platform row else Platform src;
     LastSeen := now;
     CreatedAt := CreatedAt row;
     UpdatedAt := now;
     Tags := [] |}.

(** The row [FirstOrCreate] inserts when none was found: the argument
    itself, with a fresh key, [LastSeen] set by the [BeforeCreate] hook and
    [created_at], [updated_at] stamped by GORM. *)
Definition createdFrom (now : Time) (id : nat) (src : Instance) : Instance :=
  {| ID := id;
     InstanceID := InstanceID src;
     Name := Name src;
     Region := Region src;
     Profile := Profile src;
     AccountID := AccountID src;
     State := State src;
     Platform := Platform src;
     LastSeen := now;
     CreatedAt := now;
     UpdatedAt := now;
     Tags := [] |}.

(** Update the first row (in primary-key order) that satisfies [p]. *)
Fixpoint updateFirst (p : Instance -> bool) (f : Instance -> Instance)
         (rows : list Instance) : option (list Instance) :=
  match rows with
  | [] => None
  | r :: rs =>
      if p r then Some (f r :: rs)
      else match updateFirst p f rs with
           | Some rs' => Some (r :: rs')
           | None => None
           end
  end.

(** [Where(..).Assign(..).FirstOrCreate(instance)] on the store.  The
    argument is a record as the converters build it: its [ID] is zero and
    its [InstanceID] is not empty.  (With a primary key in the argument
    GORM would add a condition on it, and an argument without [InstanceID]
    would take the one of the row found.) *)
Definition firstOrCreate (now : Time) (inst : Instance) (db : DB) : DB :=
  match updateFirst (whereKey inst) (assignTo now inst) (instances db) with
  | Some rows' => set_instances rows' db
  | None =>
      {| instances := instances db ++ [createdFrom now (next_instance_id db) inst];
         tags := tags db;
         next_instance_id := S (next_instance_id db);
         next_tag_id := next_tag_id db |}
  end.

(** [tx.Where("instance_id = ?", id).Delete(&Tag{})]. *)
Definition deleteTags (iid : string) (db : DB) : DB :=
  set_tags (filter (fun t => negb (TagInstanceID t =? iid)%string) (tags db)) db.

(** The loop [tag.InstanceID = instance.InstanceID; newTags = append(newTags, tag)]. *)
Definition newTagsFor (iid : string) (ts : list Tag) : list Tag :=
  map (fun t => {| TagID := TagID t; TagInstanceID := iid; Key := Key t; Value := Value t |}) ts.

(** Insert rows with consecutive fresh keys starting at [id]. *)
Fixpoint withIDs (id : nat) (ts : list Tag) : list Tag :=
  match ts with
  | [] => []
  | t :: ts' =>
      {| TagID := id; TagInstanceID := TagInstanceID t; Key := Key t; Value := Value t |}
        :: withIDs (S id) ts'
  end.

(** [tx.CreateInBatches(newTags, 100)]. *)
Definition createTags (ts : list Tag) (db : DB) : DB :=
  {| instances := instances db;
     tags := tags db ++ withIDs (next_tag_id db) ts;
     next_instance_id := next_instance_id db;
     next_tag_id := (next_tag_id db + List.length ts)%nat |}.

(** The body both [SaveOrUpdate] and the loop of [SaveOrUpdateBatch] run
    for one record. *)
Definition upsertOne (flt : Faults) (now : Time) (instance : Instance) (tx : DB) : result DB :=
  if flt (SFirstOrCreate instance) then Error "failed to save instance"
  else
    let tx := firstOrCreate now instance tx in
    if (0 <? List.length (Tags instance))%nat then
      if flt (SDeleteTags (InstanceID instance)) then Error "failed to delete existing tags"
      else
        let tx := deleteTags (InstanceID instance) tx in
        let newTags := newTagsFor (InstanceID instance) (Tags instance) in
        if (0 <? List.length newTags)%nat then
          if flt (SCreateTags newTags) then Error "failed to save tags"
          else Ok (createTags newTags tx)
        else Ok tx
    else Ok tx.

(** [func (r *InstanceRepository) SaveOrUpdate(instance *Instance) error]. *)
Definition SaveOrUpdate (flt : Faults) (now : Time) (instance : Instance) (db : DB) : DB * error :=
  Transaction flt (upsertOne flt now instance) db.

(** The [for _, instance := range instances] loop inside the transaction. *)
Fixpoint upsertAll (flt : Faults) (now : Time) (l : list Instance) (tx : DB) : result DB :=
  match l with
  | [] => Ok tx
  | instance :: rest =>
      match upsertOne flt now instance tx with
      | Error m => Error m
      | Ok tx' => upsertAll flt now rest tx'
      end
  end.

(** [func (r *InstanceRepository) SaveOrUpdateBatch(instances []*Instance) error]. *)
Definition SaveOrUpdateBatch (flt : Faults) (now : Time) (l : list Instance) (db : DB) : DB * error :=
  if (List.length l =? 0)%nat then (db, nil)
  else Transaction flt (upsertAll flt now l) db.

(* ------------------------------------------------------------------ *)
(** *** FindByName, FindByID *)

(** The [CASE] expression of [orderExpr].  SQLite compares text with the
    binary collation, so [state = 'Online'] is an exact comparison. *)
Definition priority (state : string) : Z :=
  if (state =? "Online")%string then 0
  else if (lower state =? "running")%string then 1
  else 2.

(** Lexicographic composition of comparisons. *)
Definition thenCmp (c : comparison) (d : comparison) : comparison :=
  match c with
  | Eq => d
  | _ => c
  end.

(** [ORDER BY CASE .. END ASC, last_seen DESC, updated_at DESC], followed by
    the primary key [First] appends. *)
Definition orderExpr (a b : Instance) : comparison :=
  thenCmp (priority (State a) ?= priority (State b))
    (thenCmp (LastSeen b ?= LastSeen a)
       (thenCmp (UpdatedAt b ?= UpdatedAt a)
          (Nat.compare (ID a) (ID b)))).

(** [LIMIT 1] under an ordering: the first row of the ordered result; of
    rows the ordering does not separate the one met first is kept. *)
Fixpoint firstBy (cmp : Instance -> Instance -> comparison) (rows : list Instance)
  : option Instance :=
  match rows with
  | [] => None
  | r :: rs =>
      match firstBy cmp rs with
      | None => Some r
      | Some best =>
          match cmp best r with
          | Lt => Some best
          | _ => Some r
          end
      end
  end.

(** [DB.Preload("Tags").Where("name = ?", name).Order(orderExpr).First(&instance)]:
    [Ok None] is [gorm.ErrRecordNotFound], [Error] any other error. *)
Definition firstByName (flt : Faults) (name : string) (db : DB) : result (option Instance) :=
  if flt (SFirstByName name) then Error "store error"
  else
    Ok (option_map (fun row => preload db (scan row))
          (firstBy orderExpr (filter (fun row => (Name row =? name)%string) (instances db)))).

(** [func indexOfDot(s string) int]: the loop, with [i] the current index. *)
Fixpoint indexOfDot_from (i : Z) (s : string) : Z :=
  match s with
  | EmptyString => -1
  | String c s' => if (c =? ".")%char then i else indexOfDot_from (i + 1) s'
  end.

Definition indexOfDot (s : string) : Z := indexOfDot_from 0 s.

(** [InstanceRepository.FindByName(name string)], returning an [Instance]
    pointer ([None] is the nil pointer) and an error. *)
Definition FindByName (flt : Faults) (name : string) (db : DB) : result (option Instance) :=
  match firstByName flt name db with
  | Ok (Some instance) => Ok (Some instance)
  | Ok None =>
      let idx := indexOfDot name in
      if 0 <? idx then
        let base := substring 0 (Z.to_nat idx) name in
        match firstByName flt base db with
        | Ok (Some alt) => Ok (Some alt)
        | _ => Ok None
        end
      else Ok None
  | Error _ => Error "failed to find instance by name"
  end.

(** [InstanceRepository.FindByID(instanceID string)], returning an [Instance]
    pointer and an error. *)
Definition FindByID (flt : Faults) (instanceID : string) (db : DB) : result (option Instance) :=
  if flt (SFirstByID instanceID) then Error "failed to find instance by ID"
  else
    Ok (option_map (fun row => preload db (scan row))
          (find (fun row => (InstanceID row =? instanceID)%string) (instances db))).

(* ------------------------------------------------------------------ *)
(** *** List *)

Definition eqb_ci (a b : ascii) : bool := (lower_ascii a =? lower_ascii b)%char.

(** SQLite's [LIKE]: [%] matches any run of bytes, [_] any one byte, any
    other byte matches itself up to ASCII case. *)
Fixpoint like (pat : list ascii) : list ascii -> bool :=
  match pat with
  | [] => fun s => match s with [] => true | _ :: _ => false end
  | p :: pat' =>
      if (p =? "%")%char then
        fix star (s : list ascii) : bool :=
          (like pat' s || match s with [] => false | _ :: s' => star s' end)%bool
      else
        fun s =>
          match s with
          | [] => false
          | c :: s' => (((p =? "_")%char || eqb_ci p c) && like pat' s')%bool
          end
  end.

Definition LIKE (s pat : string) : bool :=
  like (list_ascii_of_string pat) (list_ascii_of_string s).

(** The [Where] clauses [List] adds for the fields of the filter that are set. *)
Definition listWhere (filter : option InstanceFilter) (row : Instance) : bool :=
  match filter with
  | None => true
  | Some f =>
      (match FProfile f with Some p => (Profile row =? p)%string | None => true end &&
       match FRegion f with Some r => (Region row =? r)%string | None => true end &&
       match FName f with Some n => LIKE (Name row) ("%" ++ n ++ "%") | None => true end &&
       match FState f with Some s => (State row =? s)%string | None => true end)%bool
  end.

(** [Order("profile ASC").Order("region ASC").Order("name ASC")]. *)
Definition listOrder (a b : Instance) : comparison :=
  thenCmp (String.compare (Profile a) (Profile b))
    (thenCmp (String.compare (Region a) (Region b))
       (String.compare (Name a) (Name b))).

(** A stable insertion sort: rows the ordering does not separate stay in
    primary-key order. *)
Fixpoint insertBy (cmp : Instance -> Instance -> comparison) (x : Instance)
         (l : list Instance) : list Instance :=
  match l with
  | [] => [x]
  | y :: l' =>
      match cmp x y with
      | Gt => y :: insertBy cmp x l'
      | _ => x :: y :: l'
      end
  end.

Definition sortBy (cmp : Instance -> Instance -> comparison) (l : list Instance)
  : list Instance :=
  fold_right (insertBy cmp) [] l.

(** [func (r *InstanceRepository) List(filter *InstanceFilter) ([]Instance, error)]. *)
Definition List (flt : Faults) (filter : option InstanceFilter) (db : DB)
  : result (list Instance) :=
  if flt (SFind filter) then Error "failed to list instances"
  else Ok (map scan (sortBy listOrder (List.filter (listWhere filter) (instances db)))).

(* ------------------------------------------------------------------ *)
(** *** DeleteStale *)

(** [DB.Where("last_seen < ?", cutoff).Delete(&Instance{})] and its
    [RowsAffected]. *)
Definition deleteWhereLastSeenBefore (cutoff : Time) (db : DB) : DB * Z :=
  (set_instances (filter (fun row => negb (LastSeen row <? cutoff)) (instances db)) db,
   Z.of_nat (List.length (filter (fun row => LastSeen row <? cutoff) (instances db)))).

(** [func (r *InstanceRepository) DeleteStale(olderThan time.Duration) error].
    The log the call writes is returned next to the store. *)
Definition DeleteStale (flt : Faults) (now : Time) (olderThan : Duration) (db : DB)
  : DB * Log * error :=
  let cutoff := now + (- olderThan) in
  if flt (SDeleteStale cutoff) then (db, [], Some "failed to delete stale instances")
  else
    let '(db', rowsAffected) := deleteWhereLastSeenBefore cutoff db in
    if 0 <? rowsAffected then
      (db', [{| level := InfoLevel; message := "Deleted stale instances";
                fields := [("count", rowsAffected)] |}], nil)
    else (db', [], nil).

(* ------------------------------------------------------------------ *)
(** *** Converters *)

(** The loop of [ConvertEC2Instance] over the tags: a tag whose key and
    value are both set is kept, and a [Name] tag sets the name (the last
    one wins). *)
Fixpoint convertTags (ts : list ectype.Tag) (name : string) (acc : list Tag)
  : string * list Tag :=
  match ts with
  | [] => (name, acc)
  | tag :: ts' =>
      match ectype.Key tag, ectype.Value tag with
      | Some k, Some v =>
          convertTags ts'
            (if (k =? "Name")%string then v else name)
            (acc ++ [{| TagID := 0%nat; TagInstanceID := ""; Key := k; Value := v |}])
      | _, _ => convertTags ts' name acc
      end
  end.

(** [func ConvertEC2Instance(ec2Instance, region, profile, accountID) *Instance]. *)
Definition ConvertEC2Instance (ec2Instance : ectype.Instance)
           (region profile accountID : string) : Instance :=
  let '(name, tags) :=
    match ectype.Tags ec2Instance with
    | Some ts => convertTags ts "" []
    | None => ("", [])
    end in
  {| ID := 0%nat;
     InstanceID := ectype.InstanceId ec2Instance;
     Name := name;
     Region := region;
     Profile := profile;
     AccountID := accountID;
     State := ectype.StateName ec2Instance;
     Platform := match ectype.PlatformDetails ec2Instance with Some p => p | None => "" end;
     LastSeen := 0; CreatedAt := 0; UpdatedAt := 0;
     Tags := tags |}.

(** [func ConvertSSMManagedInstance(info, region, profile, accountID) *Instance],
    applied to an entry whose [InstanceId] is [id] (the caller has tested the
    pointer). *)
Definition ConvertSSMManagedInstance (id : string) (info : ssmtypes.InstanceInformation)
           (region profile accountID : string) : Instance :=
  {| ID := 0%nat;
     InstanceID := id;
     Name := match ssmtypes.Name info with
             | Some n => if (n =? "")%string
                         then match ssmtypes.ComputerName info with Some c => c | None => "" end
                         else n
             | None => match ssmtypes.ComputerName info with Some c => c | None => "" end
             end;
     Region := region;
     Profile := profile;
     AccountID := accountID;
     State := ssmtypes.PingStatus info;
     Platform := match ssmtypes.PlatformName info with Some p => p | None => "" end;
     LastSeen := 0; CreatedAt := 0; UpdatedAt := 0;
     Tags := [] |}.

(* ------------------------------------------------------------------ *)
(** *** GetStats *)

(** A Go [map[string]int], as the function from a key to the value last
    assigned to it. *)
Definition IntMap := string -> option Z.

Definition emptyMap : IntMap := fun _ => None.

(** [m[k] = v]. *)
Definition mapSet (k : string) (v : Z) (m : IntMap) : IntMap :=
  fun k' => if (k' =? k)%string then Some v else m k'.

(** The three queries of [GetStats]. *)
Inductive StatsStmt := SCountAll | SCountByProfile | SCountByRegion.

(** [Select("col, count( * ) as count").Group("col")]: one row per distinct
    value of the column, with the number of rows that have it. *)
Definition groupCount (col : Instance -> string) (rows : list Instance) : list (string * Z) :=
  map (fun v => (v, Z.of_nat (List.length (filter (fun r => (col r =? v)%string) rows))))
      (nodup string_dec (map col rows)).

(** The loops [stats[prefix+p.Profile] = p.Count]. *)
Fixpoint setAll (pre : string) (groups : list (string * Z)) (stats : IntMap) : IntMap :=
  match groups with
  | [] => stats
  | (v, n) :: rest => setAll pre rest (mapSet (pre ++ v) n stats)
  end.

(** [func (r *InstanceRepository) GetStats() (map[string]int, error)]. *)
Definition GetStats (flt : StatsStmt -> bool) (db : DB) : result IntMap :=
  if flt SCountAll then Error "failed to count instances"
  else
    let stats := mapSet "total" (Z.of_nat (List.length (instances db))) emptyMap in
    if flt SCountByProfile then Error "failed to count instances by profile"
    else
      let stats := setAll "profile_" (groupCount Profile (instances db)) stats in
      if flt SCountByRegion then Error "failed to count instances by region"
      else Ok (setAll "region_" (groupCount Region (instances db)) stats).

(* ------------------------------------------------------------------ *)
(** *** region.go and the profile repository *)

(** [type Region struct] and [type Profile struct] have the same shape:
    a primary key, a name under a unique index, and the flag [Enabled]. *)
Record Selected := {
  SelID : nat;
  SelName : string;
  Enabled : bool
}.

(** The table [regions], or [profiles], and its counter. *)
Record Table := {
  rows : list Selected;
  next_id : nat
}.

Definition empty_table : Table := {| rows := []; next_id := 1 |}.

(** The statements the two repositories send, and the oracle that gives
    the error text of those the store refuses. *)
Inductive SelStmt :=
| SelFirstOrCreate (name : string)
| SelDisable (name : string)
| SelUpdate (id : nat) (enabled : bool)
| SelFindEnabled
| SelFindAll
| SelCount.

Definition SelFaults := SelStmt -> option string.

Definition sel_no_faults : SelFaults := fun _ => None.

Definition setEnabled (b : bool) (r : Selected) : Selected :=
  {| SelID := SelID r; SelName := SelName r; Enabled := b |}.

(** Update the first row (in primary-key order) that satisfies [p]. *)
Fixpoint updateFirstSel (p : Selected -> bool) (f : Selected -> Selected)
         (l : list Selected) : option (list Selected) :=
  match l with
  | [] => None
  | r :: rs =>
      if p r then Some (f r :: rs)
      else match updateFirstSel p f rs with
           | Some rs' => Some (r :: rs')
           | None => None
           end
  end.

(** [DB.Where(Region{Region: name}).Assign(Region{Enabled: true}).FirstOrCreate(&Region{}).Error]:
    the condition is built from the non-zero fields of the struct, so an
    empty [name] gives no condition at all. *)
Definition enable (flt : SelFaults) (name : string) (t : Table) : Table * error :=
  match flt (SelFirstOrCreate name) with
  | Some e => (t, Some e)
  | None =>
      match updateFirstSel (fun r => (isZero name || (SelName r =? name)%string)%bool)
                           (setEnabled true) (rows t) with
      | Some rows' => ({| rows := rows'; next_id := next_id t |}, nil)
      | None =>
          ({| rows := rows t ++ [{| SelID := next_id t; SelName := name; Enabled := true |}];
              next_id := S (next_id t) |}, nil)
      end
  end.

(** [DB.Model(&Region{}).Where("region = ?", name).Update("enabled", false).Error]. *)
Definition disable (flt : SelFaults) (name : string) (t : Table) : Table * error :=
  match flt (SelDisable name) with
  | Some e => (t, Some e)
  | None =>
      ({| rows := map (fun r => if (SelName r =? name)%string then setEnabled false r else r)
                      (rows t);
          next_id := next_id t |}, nil)
  end.

(** [func (r *RegionRepository) EnableRegion(regionName string) error]. *)
Definition EnableRegion := enable.

(** [func (r *RegionRepository) DisableRegion(regionName string) error]. *)
Definition DisableRegion := disable.

(** [func (r *ProfileRepository) EnableProfile(profileName string) error]. *)
Definition EnableProfile := enable.

(** [func (r *ProfileRepository) DisableProfile(profileName string) error]. *)
Definition DisableProfile := disable.

(** [func (r *RegionRepository) GetEnabledRegions() ([]string, error)]. *)
Definition GetEnabledRegions (flt : SelFaults) (t : Table) : result (list string) :=
  match flt SelFindEnabled with
  | Some _ => Error "failed to get enabled regions"
  | None => Ok (map SelName (filter Enabled (rows t)))
  end.

(** [func (r *ProfileRepository) GetEnabledProfiles() ([]string, error)]. *)
Definition GetEnabledProfiles (flt : SelFaults) (t : Table) : result (list string) :=
  match flt SelFindEnabled with
  | Some _ => Error "failed to get enabled profiles"
  | None => Ok (map SelName (filter Enabled (rows t)))
  end.

(** The list [defaultRegions] of [SetDefaultRegions]. *)
Definition defaultRegions : list string :=
  [ "us-east-1"; "us-east-2"; "us-west-1"; "us-west-2";
    "eu-west-1"; "eu-central-1";
    "ap-southeast-1"; "ap-southeast-2";
    "ca-central-1"; "sa-east-1" ].

(** A loop that enables name after name and returns at the first error. *)
Fixpoint enableEach (flt : SelFaults) (msg : string) (names : list string) (t : Table)
  : Table * error :=
  match names with
  | [] => (t, nil)
  | name :: rest =>
      match enable flt name t with
      | (t', Some _) => (t', Some msg)
      | (t', None) => enableEach flt msg rest t'
      end
  end.

(** [func (r *RegionRepository) SetDefaultRegions() error]. *)
Definition SetDefaultRegions (flt : SelFaults) (t : Table) : Table * error :=
  enableEach flt "failed to enable default region" defaultRegions t.

(** [func (r *RegionRepository) InitializeRegions() error]. *)
Definition InitializeRegions (flt : SelFaults) (t : Table) : Table * error :=
  match flt SelCount with
  | Some _ => (t, Some "failed to count regions")
  | None =>
      if (List.length (rows t) =? 0)%nat then SetDefaultRegions flt t else (t, nil)
  end.

(** [func (r *ProfileRepository) InitializeProfiles() error];
    [availableProfiles] is what [aws.GetAvailableProfiles] returns. *)
Definition InitializeProfiles (flt : SelFaults) (availableProfiles : list string) (t : Table)
  : Table * error :=
  match flt SelCount with
  | Some _ => (t, Some "failed to count profiles")
  | None =>
      if (0 <? List.length (rows t))%nat then (t, nil)
      else enableEach flt "failed to enable profile" availableProfiles t
  end.

(** [DB.Model(&profile).Update("enabled", shouldEnable)]: the row with the
    primary key of [profile]. *)
Definition updateEnabled (id : nat) (b : bool) (t : Table) : Table :=
  {| rows := map (fun r => if (SelID r =? id)%nat then setEnabled b r else r) (rows t);
     next_id := next_id t |}.

(** The first loop of [SetProfiles], over the rows read at its start. *)
Fixpoint updateEach (flt : SelFaults) (enabledProfiles : list string)
         (allProfiles : list Selected) (t : Table) : Table * error :=
  match allProfiles with
  | [] => (t, nil)
  | profile :: rest =>
      let shouldEnable := existsb (String.eqb (SelName profile)) enabledProfiles in
      if Bool.eqb (Enabled profile) shouldEnable then updateEach flt enabledProfiles rest t
      else
        match flt (SelUpdate (SelID profile) shouldEnable) with
        | Some _ => (t, Some "failed to update profile")
        | None =>
            updateEach flt enabledProfiles rest (updateEnabled (SelID profile) shouldEnable t)
        end
  end.

(** The second loop of [SetProfiles]: an error that mentions the unique
    constraint is passed over. *)
Fixpoint enableNew (flt : SelFaults) (names : list string) (t : Table) : Table * error :=
  match names with
  | [] => (t, nil)
  | profileName :: rest =>
      match enable flt profileName t with
      | (t', Some e) =>
          if negb (strings.Contains e "UNIQUE constraint failed")
          then (t', Some "failed to enable profile")
          else enableNew flt rest t'
      | (t', None) => enableNew flt rest t'
      end
  end.

(** [func (r *ProfileRepository) SetProfiles(enabledProfiles []string) error]. *)
Definition SetProfiles (flt : SelFaults) (enabledProfiles : list string) (t : Table)
  : Table * error :=
  match flt SelFindAll with
  | Some _ => (t, Some "failed to get all profiles")
  | None =>
      match updateEach flt enabledProfiles (rows t) t with
      | (t', Some m) => (t', Some m)
      | (t', None) => enableNew flt enabledProfiles t'
      end
  end.

End storage.

(* ================================================================== *)
(** ** internal/config *)

Module config.

(** [type Config struct]. *)
Record Config := {
  DatabasePath : string;
  MaxConcurrentSessions : Z;
  TTL : string
}.

(** What the configuration file and the environment set; a key that is
    not set is [None]. *)
Record Settings := {
  database_path : option string;
  aws_max_concurrent_sessions : option Z;
  discovery_ttl : option string
}.

(** [setDefaults] followed by [viper.Unmarshal]: a key that is not set
    takes the default registered for it. *)
Definition setDefaults (s : Settings) : Config :=
  {| DatabasePath := match database_path s with Some p => p | None => "~/.ssm/database.db" end;
     MaxConcurrentSessions := match aws_max_concurrent_sessions s with Some n => n | None => 5 end;
     TTL := match discovery_ttl s with Some t => t | None => "24h" end |}.

End config.

(* ================================================================== *)
(** ** internal/service/discovery.go *)

Module service.

Import storage.

(** [aws.Client], as far as discovery reads it. *)
Record Client := { AccountID : string }.

(** The answers the outside world gives to one unit, that is to one run
    of the goroutine started for a (profile, region) pair: the outcome of
    the semaphore acquisition, of the three remote calls, and for each of
    the two writes the clock reading and the faults of the store. *)
Record World := {
  Acquire : error;
  GetClient : result Client;
  describeInstances : result (list ectype.Instance);
  describeSSMManagedInstances : result (list ssmtypes.InstanceInformation);
  nowEC2 : Time;
  faultsEC2 : Faults;
  nowSSM : Time;
  faultsSSM : Faults
}.

(** One call [ds.repo.SaveOrUpdateBatch(batch)] of a unit, with the
    message of the warning logged when it fails. *)
Record Call := {
  call_faults : Faults;
  call_now : Time;
  call_batch : list Instance;
  call_warning : string
}.

(** Running a call: the error of the repository is logged and dropped. *)
Definition exec (c : Call) (db : DB) : DB * Log :=
  match SaveOrUpdateBatch (call_faults c) (call_now c) (call_batch c) db with
  | (db', Some _) => (db', [{| level := WarnLevel; message := call_warning c; fields := [] |}])
  | (db', None) => (db', [])
  end.

(** [len(id) >= 3 && id[:3] == "mi-"]. *)
Definition isManaged (id : string) : bool :=
  ((3 <=? String.length id)%nat && (substring 0 3 id =? "mi-")%string)%bool.

(** The loop that builds [ssmBatch]. *)
Fixpoint ssmBatchOf (managedInstances : list ssmtypes.InstanceInformation)
         (region profile accountID : string) : list Instance :=
  match managedInstances with
  | [] => []
  | mi :: rest =>
      match ssmtypes.InstanceId mi with
      | None => ssmBatchOf rest region profile accountID
      | Some id =>
          if isManaged id
          then ConvertSSMManagedInstance id mi region profile accountID
                 :: ssmBatchOf rest region profile accountID
          else ssmBatchOf rest region profile accountID
      end
  end.

(** The loop that builds the EC2 [batch]. *)
Definition ec2BatchOf (instances : list ectype.Instance)
           (region profile accountID : string) : list Instance :=
  map (fun ec2Instance => ConvertEC2Instance ec2Instance region profile accountID) instances.

Definition saveEC2 (w : World) (batch : list Instance) : Call :=
  {| call_faults := faultsEC2 w; call_now := nowEC2 w; call_batch := batch;
     call_warning := "Failed to save EC2 instances batch" |}.

Definition saveSSM (w : World) (batch : list Instance) : Call :=
  {| call_faults := faultsSSM w; call_now := nowSSM w; call_batch := batch;
     call_warning := "Failed to save SSM instances batch" |}.

(** [func (ds *DiscoveryService) discoverInstancesForProfileRegion(ctx, profile, region) error],
    threading the store and collecting the log. *)
Definition discoverInstancesForProfileRegion (w : World) (profile region : string) (db : DB)
  : DB * Log * error :=
  match GetClient w with
  | Error _ => (db, [], Some "failed to get AWS client")
  | Ok client =>
      match describeInstances w with
      | Error _ => (db, [], Some "failed to describe instances")
      | Ok instances =>
          let batch := ec2BatchOf instances region profile (AccountID client) in
          let '(db, log1) := exec (saveEC2 w batch) db in
          match describeSSMManagedInstances w with
          | Error _ => (db, log1, Some "failed to list SSM managed instances")
          | Ok managedInstances =>
              let ssmBatch := ssmBatchOf managedInstances region profile (AccountID client) in
              if (0 <? List.length ssmBatch)%nat then
                let '(db, log2) := exec (saveSSM w ssmBatch) db in
                (db, (log1 ++ log2)%list, nil)
              else (db, log1, nil)
          end
      end
  end.

(** The control flow of a unit never reads the store (the errors of
    [SaveOrUpdateBatch] are logged and dropped), so a unit is also the
    sequence of repository calls it makes, in order, and its return value. *)
Definition unitCalls (w : World) (profile region : string) : list Call * error :=
  match GetClient w with
  | Error _ => ([], Some "failed to get AWS client")
  | Ok client =>
      match describeInstances w with
      | Error _ => ([], Some "failed to describe instances")
      | Ok instances =>
          let c1 := saveEC2 w (ec2BatchOf instances region profile (AccountID client)) in
          match describeSSMManagedInstances w with
          | Error _ => ([c1], Some "failed to list SSM managed instances")
          | Ok managedInstances =>
              let ssmBatch := ssmBatchOf managedInstances region profile (AccountID client) in
              if (0 <? List.length ssmBatch)%nat
              then ([c1; saveSSM w ssmBatch], nil)
              else ([c1], nil)
          end
      end
  end.

(** Running a sequence of calls one after the other. *)
Fixpoint execAll (cs : list Call) (db : DB) : DB * Log :=
  match cs with
  | [] => (db, [])
  | c :: cs' =>
      let '(db1, l1) := exec c db in
      let '(db2, l2) := execAll cs' db1 in
      (db2, (l1 ++ l2)%list)
  end.

(** A goroutine of [DiscoverInstances]: the pair it was started for and
    the answers it gets. *)
Record Goroutine := {
  g_profile : string;
  g_region : string;
  g_world : World
}.

(** The body of the goroutine: acquire a slot, run the unit; the error, if
    any, is what the goroutine sends on [errorChan]. *)
Definition goroutine (g : Goroutine) : list Call * error :=
  match Acquire (g_world g) with
  | Some _ => ([], Some "failed to acquire semaphore")
  | None => unitCalls (g_world g) (g_profile g) (g_region g)
  end.

(** The two nested loops over [profiles] and [regions]: the [k]-th
    goroutine started gets the answers [world k]. *)
Fixpoint spawnRegions (profile : string) (regions : list string) (world : nat -> World)
         (k : nat) : list Goroutine :=
  match regions with
  | [] => []
  | region :: rest =>
      {| g_profile := profile; g_region := region; g_world := world k |}
        :: spawnRegions profile rest world (S k)
  end.

Fixpoint spawn (profiles regions : list string) (world : nat -> World) (k : nat)
  : list Goroutine :=
  match profiles with
  | [] => []
  | profile :: rest =>
      spawnRegions profile regions world k
        ++ spawn rest regions world (k + List.length regions)%nat
  end.

(** The goroutines run concurrently and the store serialises their
    transactions: the store after [wg.Wait()] is the result of running the
    calls of all goroutines in some interleaving that keeps the order of
    the calls of each goroutine.  [Interleaved pending db db'] holds when
    [db'] is reached from [db] by such an interleaving of the sequences
    [pending]. *)
Inductive Interleaved : list (list Call) -> DB -> DB -> Prop :=
| Interleaved_done : forall pending db,
    Forall (fun cs => cs = []) pending ->
    Interleaved pending db db
| Interleaved_step : forall before c cs after db db',
    Interleaved (before ++ cs :: after) (fst (exec c db)) db' ->
    Interleaved (before ++ (c :: cs) :: after) db db'.

(** The errors drained from [errorChan]; only their number is read. *)
Definition errorsOf (gs : list Goroutine) : list string :=
  flat_map (fun g => match snd (goroutine g) with Some e => [e] | None => [] end) gs.

(** What the rest of [DiscoverInstances] reads from outside: the enabled
    regions of the store, the result of [time.ParseDuration(cfg.Discovery.TTL)],
    and the clock and the faults of the store at clean-up. *)
Record Env := {
  GetEnabledRegions : result (list string);
  ParseDuration : result Duration;
  nowCleanup : Time;
  faultsCleanup : Faults
}.

(** [func (ds *DiscoveryService) cleanupStaleInstances() error]. *)
Definition cleanupStaleInstances (env : Env) (db : DB) : DB * Log * error :=
  match ParseDuration env with
  | Error _ => (db, [], Some "invalid TTL duration")
  | Ok ttlDuration => DeleteStale (faultsCleanup env) (nowCleanup env) ttlDuration db
  end.

(** [fmt.Errorf("discovery completed with %d errors", len(errors))]. *)
Definition completedWithErrors (n : nat) : string :=
  "discovery completed with " ++ NilZero.string_of_uint (Nat.to_uint n) ++ " errors".

(** The first block of [DiscoverInstances]: an empty [regions] is replaced
    by the enabled regions of the store. *)
Definition resolveRegions (env : Env) (regions : list string) : result (list string) :=
  if (List.length regions =? 0)%nat then GetEnabledRegions env else Ok regions.

(** [func (ds *DiscoveryService) DiscoverInstances(ctx, profiles, regions) error]:
    the stores and return values its runs can end with.  The error of
    [cleanupStaleInstances] is logged and dropped. *)
Inductive DiscoverInstances (env : Env) (world : nat -> World)
          (profiles regions : list string) (db : DB) : DB -> error -> Prop :=
| Discover_no_regions : forall m,
    resolveRegions env regions = Error m ->
    DiscoverInstances env world profiles regions db db (Some "failed to get enabled regions")
| Discover_run : forall regions' db1,
    resolveRegions env regions = Ok regions' ->
    Interleaved (map (fun g => fst (goroutine g)) (spawn profiles regions' world 0)) db db1 ->
    DiscoverInstances env world profiles regions db
      (fst (fst (cleanupStaleInstances env db1)))
      (let errors := errorsOf (spawn profiles regions' world 0) in
       if (0 <? List.length errors)%nat
       then Some (completedWithErrors (List.length errors))
       else nil).

(* ------------------------------------------------------------------ *)
(** *** The semaphore

    The goroutines of [DiscoverInstances] as a transition system, with the
    unit itself abstracted to the time a goroutine spends between
    [Acquire] and the deferred [Release]. *)

(** [semaphore.Weighted] (golang.org/x/sync): its size and the weight
    currently held. *)
Record Weighted := { size : Z; cur : Z }.

Definition NewWeighted (n : Z) : Weighted := {| size := n; cur := 0 |}.

(** [NewDiscoveryService]: the semaphore of the service, shared by every
    goroutine of every call. *)
Definition NewDiscoveryService (cfg : config.Config) : Weighted :=
  NewWeighted (config.MaxConcurrentSessions cfg).

(** Where a goroutine is. *)
Inductive Pc :=
| Waiting                (* in [ds.semaphore.Acquire(ctx, 1)] *)
| Running                (* holds a slot, in [discoverInstancesForProfileRegion] *)
| Returned (e : error).  (* done; [e] is what it sent on [errorChan], if anything *)

Record Sched := {
  semaphore : Weighted;
  ctxDone : bool;
  pcs : list Pc;
  errorChan : list string
}.

(** [pcs[i] = pc]. *)
Fixpoint setPc (i : nat) (pc : Pc) (l : list Pc) : list Pc :=
  match l, i with
  | [], _ => []
  | _ :: l', O => pc :: l'
  | x :: l', S i' => x :: setPc i' pc l'
  end.

Definition send (e : error) (ch : list string) : list string :=
  match e with
  | Some m => (ch ++ [m])%list
  | None => ch
  end.

Definition acquireError : error := Some "failed to acquire semaphore".

(** The steps.  [Acquire(ctx, 1)] takes a slot only while [size - cur >= 1];
    it returns the error of the context only once the context is done;
    the deferred [Release(1)] runs when the unit returns. *)
Inductive step : Sched -> Sched -> Prop :=
| step_cancel : forall s,
    step s {| semaphore := semaphore s; ctxDone := true;
              pcs := pcs s; errorChan := errorChan s |}
| step_acquire : forall s i,
    nth_error (pcs s) i = Some Waiting ->
    1 <= size (semaphore s) - cur (semaphore s) ->
    step s {| semaphore := {| size := size (semaphore s); cur := cur (semaphore s) + 1 |};
              ctxDone := ctxDone s;
              pcs := setPc i Running (pcs s);
              errorChan := errorChan s |}
| step_acquire_cancelled : forall s i,
    nth_error (pcs s) i = Some Waiting ->
    ctxDone s = true ->
    step s {| semaphore := semaphore s;
              ctxDone := ctxDone s;
              pcs := setPc i (Returned acquireError) (pcs s);
              errorChan := send acquireError (errorChan s) |}
| step_return : forall s i e,
    nth_error (pcs s) i = Some Running ->
    step s {| semaphore := {| size := size (semaphore s); cur := cur (semaphore s) - 1 |};
              ctxDone := ctxDone s;
              pcs := setPc i (Returned e) (pcs s);
              errorChan := send e (errorChan s) |}.

(** The state right after the two loops have started [n] goroutines. *)
Definition started (sem : Weighted) (n : nat) : Sched :=
  {| semaphore := sem; ctxDone := false; pcs := repeat Waiting n; errorChan := [] |}.

Inductive reachable (s0 : Sched) : Sched -> Prop :=
| reachable_start : reachable s0 s0
| reachable_step : forall s s', reachable s0 s -> step s s' -> reachable s0 s'.

Definition isRunning (pc : Pc) : bool :=
  match pc with
  | Running => true
  | _ => false
  end.

(** The number of units in flight. *)
Definition inFlight (s : Sched) : Z :=
  Z.of_nat (List.length (filter isRunning (pcs s))).

(* ------------------------------------------------------------------ *)
(** *** The paginated listings *)

(** [func (ds *DiscoveryService) describeInstances(ctx, client) ([]types.Instance, error)].
    [pages] holds the answers to the successive calls of [NextPage], each
    page the instances of its reservations; the loop appends reservation
    after reservation and gives up at the first error. *)
Fixpoint describeInstances_loop (instances : list ectype.Instance)
         (pages : list (result (list (list ectype.Instance))))
  : result (list ectype.Instance) :=
  match pages with
  | [] => Ok instances
  | Error _ :: _ => Error "failed to describe instances"
  | Ok reservations :: rest =>
      describeInstances_loop
        (fold_left (fun acc reservation => (acc ++ reservation)%list) reservations instances)
        rest
  end.

Definition describeInstancesPaged (pages : list (result (list (list ectype.Instance))))
  : result (list ectype.Instance) :=
  describeInstances_loop [] pages.

(** [func (ds *DiscoveryService) describeSSMManagedInstances(ctx, client)]. *)
Definition describeSSMManagedInstancesPaged
           (pages : list (result (list ssmtypes.InstanceInformation)))
  : result (list ssmtypes.InstanceInformation) :=
  match aws.ListManagedInstances pages with
  | Error m => Error m
  | Ok instances => Ok instances
  end.

(* ------------------------------------------------------------------ *)
(** *** The service built on discovery *)


(** [func (s *Service) ConnectToInstance(ctx, instanceName string) error],
    with the commands it runs.  The client manager is a new one. *)
Definition ConnectToInstance (flt : Faults) (sdk : aws.SDK) (w : aws.SessionWorld)
           (instanceName : string) (db : DB) : list (list string) * error :=
  match FindByName flt instanceName db with
  | Error _ => ([], Some "failed to find instance")
  | Ok None => ([], Some ("instance '" ++ instanceName ++ "' not found"))
  | Ok (Some instance) =>
      match aws.GetClient sdk aws.NewClientManager (Profile instance) (Region instance) with
      | (_, _, Error _) => ([], Some "failed to get AWS client")
      | (_, _, Ok client) =>
          match aws.StartSession w client (InstanceID instance) with
          | (commands, Some _) => (commands, Some "failed to start SSM session")
          | (commands, None) => (commands, nil)
          end
      end
  end.

(** The loop of [ValidateProfiles]. *)
Fixpoint validateEach (sdk : aws.SDK) (cm : aws.ClientManager) (profiles : list string)
  : error :=
  match profiles with
  | [] => nil
  | profile :: rest =>
      match aws.ValidateCredentials sdk cm profile with
      | (_, Some _) => Some ("invalid credentials for profile " ++ profile)
      | (cm', None) => validateEach sdk cm' rest
      end
  end.

(** [func (s *Service) ValidateProfiles(ctx, profiles []string) error]. *)
Definition ValidateProfiles (sdk : aws.SDK) (profiles : list string) : error :=
  validateEach sdk aws.NewClientManager profiles.


End service.

(* ================================================================== *)
(** ** cmd *)

Module cmd.

Import storage.

(** The test of [runList] on an instance when [--all] is not given. *)
Definition managedOnline (inst : Instance) : bool :=
  (strings.HasPrefix (InstanceID inst) "mi-" && strings.EqualFold (State inst) "Online")%bool.

(** [instances[j] = inst]. *)
Fixpoint store (j : nat) (inst : Instance) (instances : list Instance) : list Instance :=
  match instances, j with
  | [], _ => []
  | _ :: rest, O => inst :: rest
  | x :: rest, S j' => x :: store j' inst rest
  end.

(** The loop [for _, inst := range instances] of [runList], which
    writes the instances it keeps back into the slice it reads: [n]
    iterations are left, [i] is the index read, [j] the index written. *)
Fixpoint keepLoop (keep : Instance -> bool) (n i j : nat) (instances : list Instance)
  : nat * list Instance :=
  match n with
  | O => (j, instances)
  | S n' =>
      match nth_error instances i with
      | None => (j, instances)
      | Some inst =>
          if keep inst
          then keepLoop keep n' (S i) (S j) (store j inst instances)
          else keepLoop keep n' (S i) j instances
      end
  end.

(** The instances [runList] displays: all of them with [--all], else
    [instances[:j]] after the loop. *)
Definition listed (listAll : bool) (instances : list Instance) : list Instance :=
  if listAll then instances
  else
    let '(j, instances') := keepLoop managedOnline (List.length instances) 0 0 instances in
    firstn j instances'.



End cmd.

(* ================================================================== *)
(** * The vocabulary of the properties *)

Import storage.
Import service.

(** [a] comes no later than [b] under [orderExpr]. *)
Definition ordered_before (a b : Instance) : Prop :=
  priority (State a) < priority (State b) \/
  (priority (State a) = priority (State b) /\
   (LastSeen b < LastSeen a \/
    (LastSeen b = LastSeen a /\
     (UpdatedAt b < UpdatedAt a \/
      (UpdatedAt b = UpdatedAt a /\ (ID a <= ID b)%nat))))).

(** The rows whose name is exactly [name]. *)
Definition named (name : string) (db : DB) : list Instance :=
  filter (fun row => (Name row =? name)%string) (instances db).

(** The first ['.'] of [s] is at index [n]. *)
Definition first_dot_at (n : nat) (s : string) : Prop :=
  get n s = Some "."%char /\ forall m, (m < n)%nat -> get m s <> Some "."%char.

(** [s] has no ['.']. *)
Definition no_dot (s : string) : Prop := forall n, get n s <> Some "."%char.

(** The rows of [db] last seen before [cutoff]. *)
Definition stale (cutoff : Time) (db : DB) : list Instance :=
  filter (fun r => LastSeen r <? cutoff) (instances db).

(** The key and the value of a tag. *)
Definition kv (t : Tag) : string * string := (Key t, Value t).

(** [len(instance.Tags) > 0]. *)
Definition hasTags (i : Instance) : bool := (0 <? List.length (Tags i))%nat.

(** The unique key [idx_instance_profile_region] of a row. *)
Definition key (r : Instance) : string * string * string :=
  (InstanceID r, Region r, Profile r).

(** The columns of a row that are neither part of the key nor timestamps. *)
Definition attrs (r : Instance) : string * string * string * string :=
  (Name r, storage.AccountID r, State r, Platform r).

(** The row [r] is stored under the key [k]. *)
Definition keyb (k : string * string * string) (r : Instance) : bool :=
  let '(iid, region, profile) := k in
  ((InstanceID r =? iid)%string && (Region r =? region)%string
   && (Profile r =? profile)%string)%bool.

(** The record names its key in full: none of the three fields is empty. *)
Definition keyed (i : Instance) : Prop :=
  InstanceID i <> "" /\ Region i <> "" /\ Profile i <> "".

(** The row stored under a key (the first one, should there be several). *)
Definition lookup (k : string * string * string) (rows : list Instance) : option Instance :=
  find (keyb k) rows.

(** The unique index holds. *)
Definition unique_keys (db : DB) : Prop := NoDup (map key (instances db)).

(** [v] written over [x] by [Assign]: a zero value is skipped. *)
Definition over (v x : string) : string := if isZero v then x else v.

(** [Assign] on the four columns. *)
Definition asg (v a : string * string * string * string) : string * string * string * string :=
  let '(n, ac, st, pl) := v in
  let '(n', ac', st', pl') := a in
  (over n n', over ac ac', over st st', over pl pl').

(** What one record of a batch does to the columns stored under [k]. *)
Definition stepA (k : string * string * string) (i : Instance)
           (o : option (string * string * string * string))
  : option (string * string * string * string) :=
  if keyb k i
  then Some (match o with Some a => asg (attrs i) a | None => attrs i end)
  else o.

(** What a batch does to the columns stored under [k]. *)
Fixpoint passA (k : string * string * string) (l : list Instance)
         (o : option (string * string * string * string))
  : option (string * string * string * string) :=
  match l with
  | [] => o
  | i :: l' => passA k l' (stepA k i o)
  end.

(** The batch as a single assignment to the columns stored under [k]. *)
Fixpoint combA (k : string * string * string) (l : list Instance)
  : string * string * string * string :=
  match l with
  | [] => ("", "", "", "")
  | i :: l' => if keyb k i then asg (combA k l') (attrs i) else combA k l'
  end.

(** The number of rows stored under a key. *)
Definition stored (k : string * string * string) (db : DB) : nat :=
  List.length (filter (keyb k) (instances db)).

(** The unit a goroutine ran failed: the goroutine sent an error. *)
Definition failed (g : Goroutine) : bool :=
  match snd (goroutine g) with
  | Some _ => true
  | None => false
  end.






(** The number of goroutines that hold a slot. *)
Definition running (l : list Pc) : Z := Z.of_nat (List.length (filter isRunning l)).


(** [s] contains [n], up to the case of the ASCII letters. *)
Definition contains_fold (s n : string) : Prop :=
  exists pre mid post, s = pre ++ mid ++ post /\ lower mid = lower n.

(** [n] has none of the wildcards of [LIKE]. *)
Definition literal (n : string) : Prop :=
  forall c, In c (list_ascii_of_string n) -> c <> "%"%char /\ c <> "_"%char.

(** The filter of [ssm list --name n], or of any caller that sets the name only. *)
Definition byName (n : string) : option InstanceFilter :=
  Some {| FProfile := None; FRegion := None; FName := Some n; FState := None |}.

(** The number of rows whose column [col] is [v]. *)
Definition countBy (col : Instance -> string) (v : string) (db : DB) : Z :=
  Z.of_nat (List.length (filter (fun r => (col r =? v)%string) (instances db))).

(** The tags of a compute-source instance whose key and value are both set. *)
Definition complete (ts : list ectype.Tag) : list (string * string) :=
  flat_map (fun t => match ectype.Key t, ectype.Value t with
                     | Some k, Some v => [(k, v)]
                     | _, _ => []
                     end) ts.

(** The tags the instance comes with ([nil] is no tag). *)
Definition tagsOf (e : ectype.Instance) : list ectype.Tag :=
  match ectype.Tags e with
  | Some ts => ts
  | None => []
  end.

(** The row [r] is still the row [r'] after a batch with the keys [ks]:
    same primary key, same unique key, same time of creation, and the very
    same row when its key is none of [ks]. *)
Definition kept_as (ks : list (string * string * string)) (r r' : Instance) : Prop :=
  ID r' = ID r /\ key r' = key r /\ CreatedAt r' = CreatedAt r /\
  (~ In (key r) ks -> r' = r).

(** The row [r] was created at [now] by a batch with the keys [ks], with
    a primary key taken from [lo] on and below [hi]. *)
Definition created_by (ks : list (string * string * string)) (now : Time) (lo hi : nat)
           (r : Instance) : Prop :=
  In (key r) ks /\ CreatedAt r = now /\ (lo <= ID r < hi)%nat.

(** The goroutine has returned. *)
Definition hasReturned (pc : Pc) : bool :=
  match pc with
  | Returned _ => true
  | _ => false
  end.

(** The goroutine has returned after sending an error. *)
Definition hasSent (pc : Pc) : bool :=
  match pc with
  | Returned (Some _) => true
  | _ => false
  end.

(** The steps a goroutine has yet to take: two while it waits for a slot,
    one while its unit runs. *)
Definition stepsLeft (pc : Pc) : nat :=
  match pc with
  | Waiting => 2
  | Running => 1
  | Returned _ => 0
  end.

(** The steps the goroutines of a state have yet to take. *)
Definition todo (s : Sched) : nat := list_sum (map stepsLeft (pcs s)).

(** The names a table enables, in the order of its rows. *)
Definition enabledNames (t : Table) : list string := map SelName (filter Enabled (rows t)).

(** The names of a table, in the order of its rows. *)
Definition names (t : Table) : list string := map SelName (rows t).

(** The store does not answer the attempt to enable one of [l] with a
    failure of the unique constraint (which [SetProfiles] passes over). *)
Definition no_unique_failure (flt : SelFaults) (l : list string) : Prop :=
  forall n e, In n l -> flt (SelFirstOrCreate n) = Some e ->
              strings.Contains e "UNIQUE constraint failed" = false.

(** The key under which the client manager keeps the client of a pair. *)
Definition clientKey (profile region : string) : string := profile ++ ":" ++ region.

(** The credentials of [profile] are good: its configuration loads and
    STS names an account for it (in [us-east-1], where they are tried). *)
Definition validCredentials (sdk : aws.SDK) (profile : string) : Prop :=
  aws.LoadDefaultConfig sdk profile "us-east-1" = None /\
  exists account, aws.GetCallerIdentity sdk profile "us-east-1" = Ok (Some account).


(** [a] and [b] are the same byte, or the upper-case and the lower-case
    form of one of the 26 ASCII letters. *)
Definition same_letter (a b : ascii) : Prop :=
  a = b \/
  ((65 <= nat_of_ascii a <= 90)%nat /\ nat_of_ascii b = (nat_of_ascii a + 32)%nat) \/
  ((65 <= nat_of_ascii b <= 90)%nat /\ nat_of_ascii a = (nat_of_ascii b + 32)%nat).

(** [s] equals [t] case-insensitively: byte by byte, up to the case of
    the ASCII letters. *)
Fixpoint equal_fold (s t : string) : Prop :=
  match s, t with
  | EmptyString, EmptyString => True
  | String a s', String b t' => same_letter a b /\ equal_fold s' t'
  | _, _ => False
  end.


(* ================================================================== *)
(** * Sample stores and sample answers of the outside world *)

(** A row and a tag, from the columns the examples vary. *)
Definition row (id : nat) (iid name region profile state : string)
           (lastSeen updatedAt : Time) : Instance :=
  {| ID := id; InstanceID := iid; Name := name; Region := region; Profile := profile;
     storage.AccountID := "123456789012"; State := state; Platform := "Linux";
     LastSeen := lastSeen; CreatedAt := 1000; UpdatedAt := updatedAt; Tags := [] |}.

Definition tag (id : nat) (iid k v : string) : Tag :=
  {| TagID := id; TagInstanceID := iid; Key := k; Value := v |}.

(** Three rows of the same name, one per rank, and an unnamed one. *)
Definition db_web : DB :=
  {| instances :=
       [ row 1 "mi-0aa" "web" "eu-west-1" "dev" "ConnectionLost" 5000 5000;
         row 2 "i-0bb" "web" "eu-west-1" "dev" "Running" 4000 4000;
         row 3 "mi-0cc" "web" "eu-west-1" "prod" "Online" 3000 3000;
         row 4 "i-0dd" "" "eu-west-1" "prod" "stopped" 3000 3000 ];
     tags := [ tag 1 "i-0bb" "Name" "web"; tag 2 "i-0bb" "Env" "dev" ];
     next_instance_id := 5;
     next_tag_id := 3 |}.

(** An agent-source record (no tags) and a compute-source record (three
    tags) for an instance that already has two stored tags. *)
Definition agent_i0bb : Instance :=
  row 0 "i-0bb" "web" "eu-west-1" "dev" "Online" 0 0.

Definition compute_i0bb : Instance :=
  set_Tags [tag 0 "" "Name" "web2"; tag 0 "" "Team" "core"; tag 0 "" "Env" "prod"]
           (row 0 "i-0bb" "web2" "eu-west-1" "dev" "running" 0 0).

(** A batch with two records for one key and one without a name. *)
Definition batch_twice : list Instance :=
  [ compute_i0bb;
    row 0 "i-0ee" "" "eu-west-1" "dev" "stopped" 0 0;
    agent_i0bb ].

(** The instance of [TestInstanceRepository_SaveOrUpdate], as first saved
    and as saved again. *)
Definition test_instance (name state : string) : Instance :=
  set_Tags [tag 0 "" "Name" "test-instance"; tag 0 "" "Environment" "test"]
           (row 0 "i-1234567890abcdef0" name "us-east-1" "default" state 0 0).

(** A compute-source instance and the agent-source entries of the examples. *)
Definition ec2_abc : ectype.Instance :=
  {| ectype.InstanceId := "i-abc";
     ectype.StateName := "running";
     ectype.Tags := Some [ {| ectype.Key := Some "Name"; ectype.Value := Some "web" |} ];
     ectype.PlatformDetails := Some "Linux/UNIX" |}.

Definition agent (id name ping : string) : ssmtypes.InstanceInformation :=
  {| ssmtypes.InstanceId := Some id;
     ssmtypes.PingStatus := ping;
     ssmtypes.Name := Some name;
     ssmtypes.ComputerName := Some (name ++ ".internal");
     ssmtypes.PlatformName := Some "Ubuntu" |}.

(** A store that refuses every statement. *)
Definition store_down : Faults := fun _ => true.

(** Both sources answer; the store takes the first write and refuses
    the second when [flt] says so. *)
Definition world_both (flt : Faults) : World :=
  {| Acquire := nil;
     GetClient := Ok {| AccountID := "123456789012" |};
     describeInstances := Ok [ec2_abc];
     describeSSMManagedInstances := Ok [agent "i-abc" "web" "Online"; agent "mi-xyz" "db01" "Online"];
     nowEC2 := 7000;
     faultsEC2 := no_faults;
     nowSSM := 7001;
     faultsSSM := flt |}.

(** A run over two profiles and one region: the unit of the first profile
    gets its answers, the unit of the second cannot get a client. *)
Definition world_no_client : World :=
  {| Acquire := nil;
     GetClient := Error "no credentials";
     describeInstances := Ok [];
     describeSSMManagedInstances := Ok [];
     nowEC2 := 7000;
     faultsEC2 := no_faults;
     nowSSM := 7001;
     faultsSSM := no_faults |}.

Definition world_two (k : nat) : World :=
  match k with
  | O => world_both no_faults
  | _ => world_no_client
  end.

(** Clean-up with a TTL longer than the run. *)
Definition env_day : Env :=
  {| GetEnabledRegions := Ok ["eu-west-1"];
     ParseDuration := Ok 86400;
     nowCleanup := 8000;
     faultsCleanup := no_faults |}.

(** Three rows of one name and no [Online] one: the row last seen last
    is stopped, and of the two that run the one written in capitals was
    seen later. *)
Definition db_app : DB :=
  {| instances :=
       [ row 1 "i-0a1" "app" "eu-west-1" "dev" "stopped" 9000 9000;
         row 2 "i-0a2" "app" "eu-west-1" "dev" "RUNNING" 1000 1000;
         row 3 "i-0a3" "app" "eu-west-1" "dev" "running" 500 500 ];
     tags := [];
     next_instance_id := 4;
     next_tag_id := 1 |}.

(** One named row with two stored tags, and a tag of another instance. *)
Definition db_api : DB :=
  {| instances := [ row 1 "i-0ff" "api" "us-east-1" "prod" "running" 6000 6000 ];
     tags := [ tag 1 "i-0ff" "Name" "api"; tag 2 "i-0zz" "Name" "other";
               tag 3 "i-0ff" "Team" "core" ];
     next_instance_id := 2;
     next_tag_id := 4 |}.

(** A ceiling of one and two units: the first takes the slot. *)
Definition settings_one : config.Settings :=
  {| config.database_path := None;
     config.aws_max_concurrent_sessions := Some 1;
     config.discovery_ttl := None |}.

(** The compute listing answers with two pages; the agent listing fails at
    its second page. *)
Definition world_broken_agent_page : World :=
  {| Acquire := nil;
     GetClient := Ok {| AccountID := "123456789012" |};
     describeInstances := describeInstancesPaged [Ok [[ec2_abc]]; Ok [[]; []]];
     describeSSMManagedInstances :=
       describeSSMManagedInstancesPaged [Ok [agent "mi-xyz" "db01" "Online"]; Error "throttled"];
     nowEC2 := 7000;
     faultsEC2 := no_faults;
     nowSSM := 7001;
     faultsSSM := no_faults |}.

(** A table of regions: two enabled, one disabled. *)
Definition regions_three : Table :=
  {| rows := [ {| SelID := 1; SelName := "us-east-1"; Enabled := true |};
               {| SelID := 2; SelName := "eu-west-1"; Enabled := false |};
               {| SelID := 3; SelName := "eu-central-1"; Enabled := true |} ];
     next_id := 4 |}.

(** A table of profiles: two enabled, one disabled. *)
Definition profiles_three : Table :=
  {| rows := [ {| SelID := 1; SelName := "default"; Enabled := true |};
               {| SelID := 2; SelName := "dev"; Enabled := false |};
               {| SelID := 3; SelName := "prod"; Enabled := true |} ];
     next_id := 4 |}.

(** An SDK for which the profile [dev] is good, the profiles [old] and
    [prod] have a configuration but no valid credentials, and no other
    profile loads. *)
Definition sdk_dev : aws.SDK :=
  {| aws.LoadDefaultConfig := fun profile _ =>
       if ((profile =? "dev") || (profile =? "old") || (profile =? "prod"))%string then None
       else Some "failed to get shared config profile";
     aws.GetCallerIdentity := fun profile _ =>
       if (profile =? "dev")%string then Ok (Some "123456789012")
       else Error "ExpiredToken" |}.

(** The instance answers the agent; the AWS CLI exits well. *)
Definition session_online : aws.SessionWorld :=
  {| aws.DescribeInstanceInformation := Ok [agent "mi-0cc" "web" "Online"];
     aws.Run := nil |}.

(** The instance [i-0bb] of [db_web] as the compute source lists it once
    its [Name] tag is gone. *)
Definition ec2_0bb_unnamed : ectype.Instance :=
  {| ectype.InstanceId := "i-0bb";
     ectype.StateName := "stopped";
     ectype.Tags := Some [ {| ectype.Key := Some "Env"; ectype.Value := Some "dev" |} ];
     ectype.PlatformDetails := None |}.

(* ================================================================== *)
(** * Properties *)

(** ** The embedding at work *)

Example FindByName_prefers_Online :
  option_map InstanceID
    (match FindByName no_faults "web" db_web with Ok o => o | Error _ => None end)
  = Some "mi-0cc".
Proof. reflexivity. Qed.

Example FindByName_miss :
  FindByName no_faults "db01" db_web = Ok None.
Proof. reflexivity. Qed.

Example FindByName_store_error :
  FindByName store_down "web" db_web = Error "failed to find instance by name".
Proof. reflexivity. Qed.

Example List_by_profile_region_name :
  match List no_faults None db_web with
  | Ok l => map InstanceID l
  | Error _ => []
  end = ["mi-0aa"; "i-0bb"; "i-0dd"; "mi-0cc"].
Proof. reflexivity. Qed.

Example List_name_pattern :
  match List no_faults
          (Some {| FProfile := None; FRegion := None; FName := Some "WE"; FState := None |})
          db_web with
  | Ok l => map InstanceID l
  | Error _ => []
  end = ["mi-0aa"; "i-0bb"; "mi-0cc"].
Proof. reflexivity. Qed.

(** [TestInstanceRepository_SaveOrUpdate]. *)
Example SaveOrUpdate_saves_then_updates :
  let db1 := fst (SaveOrUpdate no_faults 100 (test_instance "test-instance" "running") empty_db) in
  let db2 := fst (SaveOrUpdate no_faults 200 (test_instance "updated-instance" "stopped") db1) in
  map (fun r => (InstanceID r, Name r, State r, LastSeen r)) (instances db1)
  = [("i-1234567890abcdef0", "test-instance", "running", 100)] /\
  List.length (tags_of "i-1234567890abcdef0" db1) = 2%nat /\
  map (fun r => (InstanceID r, Name r, State r, LastSeen r)) (instances db2)
  = [("i-1234567890abcdef0", "updated-instance", "stopped", 200)] /\
  List.length (tags_of "i-1234567890abcdef0" db2) = 2%nat.
Proof. repeat split; reflexivity. Qed.

(** A record without a name does not erase the name that is stored. *)
Example SaveOrUpdate_skips_zero_values :
  let db1 := fst (SaveOrUpdate no_faults 100 (test_instance "test-instance" "running") empty_db) in
  let db2 := fst (SaveOrUpdate no_faults 200 (row 0 "i-1234567890abcdef0" "" "us-east-1" "default" "stopped" 0 0) db1) in
  map (fun r => (Name r, State r)) (instances db2) = [("test-instance", "stopped")] /\
  tags db2 = tags db1.
Proof. repeat split; reflexivity. Qed.

(** A refused statement rolls the whole batch back. *)
Example SaveOrUpdateBatch_rolls_back :
  SaveOrUpdateBatch (fun s => match s with SCommit => true | _ => false end) 7000
    batch_twice db_web
  = (db_web, Some "commit failed").
Proof. reflexivity. Qed.

Example DeleteStale_logs_the_count :
  snd (fst (DeleteStale no_faults 10000 6500 db_web))
  = [{| level := InfoLevel; message := "Deleted stale instances"; fields := [("count", 2)] |}].
Proof. reflexivity. Qed.

Example ConvertEC2Instance_abc :
  let i := ConvertEC2Instance ec2_abc "eu-west-1" "dev" "123456789012" in
  (InstanceID i, Name i, State i, Platform i, map kv (Tags i))
  = ("i-abc", "web", "running", "Linux/UNIX", [("Name", "web")]).
Proof. reflexivity. Qed.

Example ConvertSSMManagedInstance_xyz :
  let i := ConvertSSMManagedInstance "mi-xyz" (agent "mi-xyz" "" "Online")
             "eu-west-1" "dev" "123456789012" in
  (InstanceID i, Name i, State i, Platform i, Tags i)
  = ("mi-xyz", ".internal", "Online", "Ubuntu", []).
Proof. reflexivity. Qed.

Example indexOfDot_examples :
  indexOfDot "db01.internal.example" = 4 /\ indexOfDot "db01" = -1 /\ indexOfDot ".maas" = 0.
Proof. repeat split; reflexivity. Qed.

(** One goroutine per pair of the cartesian product, profiles outermost. *)
Example spawn_product :
  map (fun g => (g_profile g, g_region g)) (spawn ["dev"; "prod"] ["eu-west-1"; "us-east-1"] world_two 0)
  = [("dev", "eu-west-1"); ("dev", "us-east-1"); ("prod", "eu-west-1"); ("prod", "us-east-1")].
Proof. reflexivity. Qed.

Example discoverInstancesForProfileRegion_both_sources :
  let out := discoverInstancesForProfileRegion (world_both no_faults) "dev" "eu-west-1" empty_db in
  map (fun r => (InstanceID r, Name r, State r)) (instances (fst (fst out)))
  = [("i-abc", "web", "running"); ("mi-xyz", "db01", "Online")] /\
  map kv (tags (fst (fst out))) = [("Name", "web")] /\
  snd out = nil.
Proof. repeat split; reflexivity. Qed.

Example completedWithErrors_3 :
  completedWithErrors 3 = "discovery completed with 3 errors".
Proof. reflexivity. Qed.

(** ** Name resolution: the ordering *)

Lemma orderExpr_not_Gt (a b : Instance) :
  orderExpr a b <> Gt <-> ordered_before a b.
Proof.
  unfold orderExpr, ordered_before, thenCmp.
  destruct (Z.compare_spec (priority (State a)) (priority (State b)));
    destruct (Z.compare_spec (LastSeen b) (LastSeen a));
    destruct (Z.compare_spec (UpdatedAt b) (UpdatedAt a));
    destruct (Nat.compare_spec (ID a) (ID b));
    split; intros; try lia; try congruence.
Qed.

Lemma orderExpr_Lt (a b : Instance) :
  orderExpr a b = Lt -> ordered_before a b.
Proof.
  intros H. apply orderExpr_not_Gt. congruence.
Qed.

Lemma orderExpr_not_Lt (a b : Instance) :
  orderExpr a b <> Lt -> ordered_before b a.
Proof.
  unfold orderExpr, ordered_before, thenCmp.
  destruct (Z.compare_spec (priority (State a)) (priority (State b)));
    destruct (Z.compare_spec (LastSeen b) (LastSeen a));
    destruct (Z.compare_spec (UpdatedAt b) (UpdatedAt a));
    destruct (Nat.compare_spec (ID a) (ID b));
    intros; try lia; try congruence.
Qed.

Lemma ordered_before_trans (a b c : Instance) :
  ordered_before a b -> ordered_before b c -> ordered_before a c.
Proof.
  unfold ordered_before. lia.
Qed.

Lemma ordered_before_refl (a : Instance) : ordered_before a a.
Proof.
  unfold ordered_before. lia.
Qed.

Lemma firstBy_None (cmp : Instance -> Instance -> comparison) (rows : list Instance) :
  firstBy cmp rows = None <-> rows = [].
Proof.
  destruct rows as [|r rs]; simpl; [tauto|].
  split; [|discriminate].
  destruct (firstBy cmp rs) as [b|]; [destruct (cmp b r)|]; discriminate.
Qed.

(** [firstBy orderExpr] returns a row of the list that comes no later than
    any other. *)
Lemma firstBy_top (rows : list Instance) (best : Instance) :
  firstBy orderExpr rows = Some best ->
  In best rows /\ forall other, In other rows -> ordered_before best other.
Proof.
  revert best. induction rows as [|r rs IH]; simpl; intros best H.
  - discriminate.
  - destruct (firstBy orderExpr rs) as [b|] eqn:E.
    + destruct (IH b eq_refl) as [Hin Hall].
      destruct (orderExpr b r) eqn:C; inversion H; subst best; clear H.
      * split; [now left|]. intros o [<-|Ho]; [apply ordered_before_refl|].
        apply ordered_before_trans with b; [|now apply Hall].
        apply orderExpr_not_Lt. congruence.
      * split; [now right|]. intros o [<-|Ho]; [now apply orderExpr_Lt|now apply Hall].
      * split; [now left|]. intros o [<-|Ho]; [apply ordered_before_refl|].
        apply ordered_before_trans with b; [|now apply Hall].
        apply orderExpr_not_Lt. congruence.
    + inversion H; subst best. apply firstBy_None in E. subst rs.
      split; [now left|]. intros o [<-|[]]. apply ordered_before_refl.
Qed.

Lemma lower_ascii_same_letter (a b : ascii) :
  lower_ascii a = lower_ascii b <-> same_letter a b.
Proof.
  unfold lower_ascii, same_letter.
  pose proof (nat_ascii_bounded a) as Ba. pose proof (nat_ascii_bounded b) as Bb.
  assert (Inj : forall x y : ascii, nat_of_ascii x = nat_of_ascii y -> x = y).
  { intros x y E. rewrite <- (ascii_nat_embedding x), <- (ascii_nat_embedding y).
    now rewrite E. }
  assert (Emb : forall (x : ascii) (n : nat),
            (n < 256)%nat -> (ascii_of_nat n = x <-> nat_of_ascii x = n)).
  { intros x n Hn. split.
    - intros <-. now apply nat_ascii_embedding.
    - intros <-. apply ascii_nat_embedding. }
  destruct (Nat.leb_spec 65 (nat_of_ascii a)) as [La|La];
    destruct (Nat.leb_spec (nat_of_ascii a) 90) as [Ha|Ha];
    destruct (Nat.leb_spec 65 (nat_of_ascii b)) as [Lb|Lb];
    destruct (Nat.leb_spec (nat_of_ascii b) 90) as [Hb|Hb];
    cbn [andb];
    try (split; [intros E; left; exact E
                |intros [E|[[U E]|[U E]]]; [exact E|exfalso; lia|exfalso; lia]]);
    try (rewrite (Emb b) by lia; split;
         [intros E; right; left; split; [lia|exact E]
         |intros [E|[[U E]|[U E]]];
          [exfalso; apply (f_equal nat_of_ascii) in E; lia|exact E|exfalso; lia]]);
    try (split;
         [intros E; symmetry in E; apply Emb in E; [|lia]; right; right; split; [lia|exact E]
         |intros [E|[[U E]|[U E]]];
          [exfalso; apply (f_equal nat_of_ascii) in E; lia|exfalso; lia
          |symmetry; apply Emb; [lia|exact E]]]).
  split.
  - intros E. left. apply Inj. apply (f_equal nat_of_ascii) in E.
    rewrite !nat_ascii_embedding in E by lia. lia.
  - intros [E|[[U E]|[U E]]]; [now rewrite E|exfalso; lia|exfalso; lia].
Qed.

Lemma lower_equal_fold (s t : string) : lower s = lower t <-> equal_fold s t.
Proof.
  revert t. induction s as [|a s IH]; intros [|b t]; cbn [lower equal_fold].
  - tauto.
  - split; [discriminate|contradiction].
  - split; [discriminate|contradiction].
  - rewrite <- IH, <- lower_ascii_same_letter. split.
    + intros E. injection E as E1 E2. now split.
    + intros [E1 E2]. now rewrite E1, E2.
Qed.

(** The rank of a state, in the words of the design: 0 for the agent
    status ["Online"], spelled so; 1 for a state that equals ["running"]
    case-insensitively; 2 for every other. *)
Lemma priority_spec (st : string) :
  (priority st = 0 <-> st = "Online") /\
  (priority st = 1 <-> st <> "Online" /\ equal_fold st "running") /\
  (priority st = 2 <-> st <> "Online" /\ ~ equal_fold st "running").
Proof.
  unfold priority. rewrite <- (lower_equal_fold st "running").
  change (lower "running") with "running".
  destruct (String.eqb_spec st "Online") as [E|N].
  - repeat split; try discriminate; try tauto; intros [X _]; contradiction.
  - destruct (String.eqb_spec (lower st) "running") as [R|R].
    + repeat split; try discriminate; try tauto; intros [_ X]; contradiction.
    + repeat split; try discriminate; try tauto; intros [_ X]; contradiction.
Qed.

(** C1.  Exact-name lookup of [FindByName].  When the store answers the
    query: if no row is named exactly [name], the lookup finds nothing
    (this is the point where the fallback takes over); otherwise
    [FindByName] returns one of the rows named exactly [name] that is on
    top of the ordering: its rank is the least, among the rows of its rank
    its [last_seen] is the latest, and among those its [updated_at] is the
    latest.  The rank of a state is 0 for ["Online"] and for no other
    spelling of it, 1 for a state that equals ["running"]
    case-insensitively, 2 for anything else. *)
Theorem FindByName_returns_top_exact_match :
  forall (flt : Faults) (name : string) (db : DB),
    flt (SFirstByName name) = false ->
    (forall st, priority st =
                if (st =? "Online")%string then 0
                else if (lower st =? "running")%string then 1 else 2) /\
    (forall st,
       (priority st = 0 <-> st = "Online") /\
       (priority st = 1 <-> st <> "Online" /\ equal_fold st "running") /\
       (priority st = 2 <-> st <> "Online" /\ ~ equal_fold st "running")) /\
    (named name db = [] -> firstByName flt name db = Ok None) /\
    (named name db <> [] ->
     exists row,
       In row (named name db) /\
       FindByName flt name db = Ok (Some (preload db (scan row))) /\
       forall other, In other (named name db) ->
         priority (State row) <= priority (State other) /\
         (priority (State row) = priority (State other) ->
          LastSeen other <= LastSeen row /\
          (LastSeen other = LastSeen row -> UpdatedAt other <= UpdatedAt row))).
Proof.
  intros flt name db Hflt. split; [reflexivity|]. split; [exact priority_spec|]. split.
  - intros Hnone. unfold firstByName. rewrite Hflt. fold (named name db).
    rewrite Hnone. reflexivity.
  - intros Hsome. unfold FindByName, firstByName. rewrite Hflt. fold (named name db).
    destruct (firstBy orderExpr (named name db)) as [row|] eqn:E.
    + destruct (firstBy_top _ _ E) as [Hin Htop].
      exists row. split; [exact Hin|]. split; [reflexivity|].
      intros other Ho. specialize (Htop other Ho). unfold ordered_before in Htop. lia.
    + apply firstBy_None in E. contradiction.
Qed.

(** A row that runs, its state written in capitals, is returned before a
    stopped row seen later and before a running row seen earlier. *)
Lemma FindByName_returns_top_exact_match_witness :
  no_faults (SFirstByName "app") = false /\
  equal_fold "RUNNING" "running" /\
  priority "RUNNING" = 1 /\
  priority "stopped" = 2 /\
  (priority "online" = 0 -> False) /\
  FindByName no_faults "app" db_app
  = Ok (Some (preload db_app
                (scan (row 2 "i-0a2" "app" "eu-west-1" "dev" "RUNNING" 1000 1000)))) /\
  exists r,
    In r (named "app" db_app) /\
    FindByName no_faults "app" db_app = Ok (Some (preload db_app (scan r))) /\
    forall other, In other (named "app" db_app) ->
                  priority (State r) <= priority (State other).
Proof.
  destruct (FindByName_returns_top_exact_match no_faults "app" db_app eq_refl)
    as (_ & Hrank & _ & H).
  assert (F : equal_fold "RUNNING" "running").
  { cbn [equal_fold]. unfold same_letter.
    repeat split; right; left; cbn; lia. }
  split; [reflexivity|]. split; [exact F|].
  split; [apply (proj2 (proj1 (proj2 (Hrank "RUNNING")))); split; [discriminate|exact F]|].
  split.
  { apply (proj2 (proj2 (proj2 (Hrank "stopped")))). split; [discriminate|].
    cbn [equal_fold]. unfold same_letter. intros [[E|[[_ E]|[_ E]]] _];
      [discriminate E|cbn in E; lia|cbn in E; lia]. }
  split.
  { intros E. apply (proj1 (proj1 (Hrank "online"))) in E. discriminate E. }
  split; [reflexivity|].
  destruct H as (r & Hin & Hf & Htop); [discriminate|].
  exists r. split; [exact Hin|]. split; [exact Hf|].
  intros other Ho. exact (proj1 (Htop other Ho)).
Defined.

(** ** Name resolution: the fallback *)

Lemma indexOfDot_from_spec (s : string) (i : Z) :
  (indexOfDot_from i s = -1 /\ no_dot s) \/
  (exists n, indexOfDot_from i s = i + Z.of_nat n /\ first_dot_at n s).
Proof.
  revert i. induction s as [|c s IH]; intros i; simpl.
  - left. split; [reflexivity|]. intros n. destruct n; discriminate.
  - destruct (Ascii.eqb_spec c ".") as [->|Hc].
    + right. exists 0%nat. split; [lia|]. split; [reflexivity|]. intros m Hm. lia.
    + destruct (IH (i + 1)) as [[E Hn]|(n & E & Hd & Hb)].
      * left. split; [exact E|]. intros [|n]; simpl; [congruence|apply Hn].
      * right. exists (S n). split; [lia|]. split; [exact Hd|].
        intros [|m] Hm; simpl; [congruence|]. apply Hb. lia.
Qed.

Lemma first_dot_at_unique (s : string) (n m : nat) :
  first_dot_at n s -> first_dot_at m s -> n = m.
Proof.
  intros [Hn Hbn] [Hm Hbm].
  destruct (Nat.lt_trichotomy n m) as [H|[H|H]]; [|exact H|].
  - exfalso. now apply (Hbm n).
  - exfalso. now apply (Hbn m).
Qed.

Lemma indexOfDot_first (s : string) (n : nat) :
  first_dot_at n s -> indexOfDot s = Z.of_nat n.
Proof.
  intros H. unfold indexOfDot.
  destruct (indexOfDot_from_spec s 0) as [[_ Hno]|(m & E & Hm)].
  - exfalso. destruct H as [H _]. now apply (Hno n).
  - rewrite E. rewrite (first_dot_at_unique _ _ _ H Hm). lia.
Qed.

Lemma indexOfDot_none (s : string) :
  no_dot s -> indexOfDot s = -1.
Proof.
  intros H. unfold indexOfDot.
  destruct (indexOfDot_from_spec s 0) as [[E _]|(m & _ & Hm & _)]; [exact E|].
  exfalso. now apply (H m).
Qed.

(** C6, as the code has it.  Let the store answer the exact query for
    [name] with no row.  If the first dot of [name] is at an index [n > 0],
    [FindByName] runs the same ordered lookup on the [n] bytes before the
    dot and, when the store answers it, returns its result (a row or
    none).  If [name] has no dot, or starts with one, [FindByName] returns
    none and no error. *)
Theorem FindByName_fallback_before_first_dot :
  forall (flt : Faults) (name : string) (db : DB),
    flt (SFirstByName name) = false ->
    named name db = [] ->
    (forall n, first_dot_at n name -> (0 < n)%nat ->
               flt (SFirstByName (substring 0 n name)) = false ->
               FindByName flt name db = firstByName flt (substring 0 n name) db /\
               (named (substring 0 n name) db = [] -> FindByName flt name db = Ok None)) /\
    (no_dot name \/ first_dot_at 0 name -> FindByName flt name db = Ok None).
Proof.
  intros flt name db Hflt Hnone.
  assert (Hexact : firstByName flt name db = Ok None).
  { unfold firstByName. rewrite Hflt. fold (named name db). now rewrite Hnone. }
  split.
  - intros n Hdot Hpos Hflt'.
    assert (E : FindByName flt name db = firstByName flt (substring 0 n name) db).
    { unfold FindByName. rewrite Hexact. cbv zeta. rewrite (indexOfDot_first _ _ Hdot).
      replace (0 <? Z.of_nat n) with true by (symmetry; apply Z.ltb_lt; lia).
      rewrite Nat2Z.id.
      unfold firstByName. rewrite Hflt'.
      destruct (firstBy orderExpr _); reflexivity. }
    split; [exact E|].
    intros Hb. rewrite E. unfold firstByName. rewrite Hflt'.
    fold (named (substring 0 n name) db). now rewrite Hb.
  - intros [Hno|H0]; unfold FindByName; rewrite Hexact; cbv zeta.
    + now rewrite (indexOfDot_none _ Hno).
    + now rewrite (indexOfDot_first _ _ H0).
Qed.

Lemma FindByName_fallback_before_first_dot_witness :
  no_faults (SFirstByName "web.internal.example") = false /\
  named "web.internal.example" db_web = [] /\
  first_dot_at 3 "web.internal.example" /\
  FindByName no_faults "web.internal.example" db_web
  = firstByName no_faults "web" db_web.
Proof.
  assert (Hdot : first_dot_at 3 "web.internal.example").
  { split; [reflexivity|].
    intros [|[|[|m]]] Hm; simpl; try discriminate. lia. }
  split; [reflexivity|]. split; [reflexivity|]. split; [exact Hdot|].
  destruct (FindByName_fallback_before_first_dot no_faults "web.internal.example"
              db_web eq_refl eq_refl) as [H _].
  destruct (H 3%nat Hdot ltac:(lia) eq_refl) as [E _]. exact E.
Defined.

(** C6, as stated, fails on a name that starts with a dot: the name has a
    separator, the lookup of the (empty) part before it has a match, and
    [FindByName] returns none without running it. *)
Lemma FindByName_leading_dot_has_no_fallback :
  named ".maas" db_web = [] /\
  first_dot_at 0 ".maas" /\
  (exists r, firstByName no_faults (substring 0 0 ".maas") db_web = Ok (Some r)) /\
  FindByName no_faults ".maas" db_web = Ok None.
Proof.
  split; [reflexivity|]. split.
  - split; [reflexivity|]. intros m Hm. lia.
  - split; [|reflexivity]. eexists. reflexivity.
Qed.

(** ** Which reads load the tags *)

Lemma firstBy_In (cmp : Instance -> Instance -> comparison) (rows : list Instance)
      (r : Instance) :
  firstBy cmp rows = Some r -> In r rows.
Proof.
  revert r. induction rows as [|x rs IH]; simpl; intros r H; [discriminate|].
  destruct (firstBy cmp rs) as [b|].
  - destruct (cmp b x); inversion H; subst; auto.
  - inversion H; auto.
Qed.

Lemma firstByName_preloaded (flt : Faults) (name : string) (db : DB) (i : Instance) :
  firstByName flt name db = Ok (Some i) ->
  exists r, In r (instances db) /\ Name r = name /\ i = preload db (scan r).
Proof.
  unfold firstByName. destruct (flt _); [discriminate|].
  destruct (firstBy orderExpr _) as [r|] eqn:E; simpl; intros H; inversion H.
  apply firstBy_In, filter_In in E. destruct E as [Hin Hn].
  exists r. split; [exact Hin|]. split; [|reflexivity].
  now apply String.eqb_eq.
Qed.

Lemma insertBy_In (cmp : Instance -> Instance -> comparison) (x y : Instance)
      (l : list Instance) :
  In y (insertBy cmp x l) <-> y = x \/ In y l.
Proof.
  induction l as [|z l IH]; simpl.
  - intuition.
  - destruct (cmp x z); simpl; rewrite ?IH; intuition.
Qed.

Lemma sortBy_In (cmp : Instance -> Instance -> comparison) (y : Instance)
      (l : list Instance) :
  In y (sortBy cmp l) <-> In y l.
Proof.
  induction l as [|x l IH]; simpl; [tauto|].
  rewrite insertBy_In, IH. intuition.
Qed.

Lemma FindByName_exact (flt : Faults) (name : string) (db : DB) (r : Instance) :
  flt (SFirstByName name) = false ->
  In r (instances db) -> Name r = name ->
  exists i, FindByName flt name db = Ok (Some i) /\ Name i = name.
Proof.
  intros Hf Hin Hn. unfold FindByName, firstByName. rewrite Hf.
  destruct (firstBy orderExpr (filter (fun row => (Name row =? name)%string) (instances db)))
    as [best|] eqn:E; cbn [option_map].
  - exists (preload db (scan best)). split; [reflexivity|].
    apply firstBy_In, filter_In in E. destruct E as [_ E].
    apply String.eqb_eq in E. exact E.
  - exfalso. apply firstBy_None in E.
    assert (Hr : In r (filter (fun row => (Name row =? name)%string) (instances db))).
    { apply filter_In. split; [exact Hin|]. now apply String.eqb_eq. }
    rewrite E in Hr. contradiction.
Qed.

Lemma FindByID_present (flt : Faults) (iid : string) (db : DB) (r : Instance) :
  flt (SFirstByID iid) = false ->
  In r (instances db) -> InstanceID r = iid ->
  exists row,
    In row (instances db) /\ InstanceID row = iid /\
    FindByID flt iid db = Ok (Some (preload db (scan row))).
Proof.
  intros Hf Hin Hi. unfold FindByID. rewrite Hf.
  destruct (find (fun row => (InstanceID row =? iid)%string) (instances db)) as [row|] eqn:E.
  - apply find_some in E. destruct E as [Hrow E]. apply String.eqb_eq in E.
    exists row. repeat split; assumption.
  - exfalso. pose proof (find_none _ _ E r Hin) as N. cbv beta in N.
    apply String.eqb_neq in N. contradiction.
Qed.

(** C10.  When the store answers, [List] returns every stored row the
    filter lets through, and every record it returns is such a row read
    without its association: its tag set is empty whatever the [tags]
    table holds for it.  When the store answers and a row has the name,
    [FindByName] returns a record of that name, and when a row has the
    instance identifier [FindByID] returns a record of that identifier; a
    record returned by [FindByName] or [FindByID] carries exactly the tags
    stored under its instance identifier. *)
Theorem List_leaves_tags_unloaded_FindBy_loads_them :
  forall (flt : Faults) (db : DB),
    (forall filter l, List flt filter db = Ok l ->
       forall i, In i l ->
         Tags i = [] /\
         exists r, In r (instances db) /\ listWhere filter r = true /\ i = scan r) /\
    (forall name i, FindByName flt name db = Ok (Some i) ->
       Tags i = tags_of (InstanceID i) db) /\
    (forall instanceID i, FindByID flt instanceID db = Ok (Some i) ->
       InstanceID i = instanceID /\ Tags i = tags_of instanceID db) /\
    (forall filter, flt (SFind filter) = false ->
       exists l,
         List flt filter db = Ok l /\
         forall r, In r (instances db) -> listWhere filter r = true ->
                   In (scan r) l /\ Tags (scan r) = []) /\
    (forall name r,
       flt (SFirstByName name) = false ->
       In r (instances db) -> Name r = name ->
       exists i,
         FindByName flt name db = Ok (Some i) /\
         Name i = name /\
         Tags i = tags_of (InstanceID i) db) /\
    (forall instanceID r,
       flt (SFirstByID instanceID) = false ->
       In r (instances db) -> InstanceID r = instanceID ->
       exists i,
         FindByID flt instanceID db = Ok (Some i) /\
         InstanceID i = instanceID /\
         Tags i = tags_of instanceID db).
Proof.
  intros flt db.
  assert (HN : forall name i, FindByName flt name db = Ok (Some i) ->
                 Tags i = tags_of (InstanceID i) db).
  { intros name i H. unfold FindByName in H.
    destruct (firstByName flt name db) as [[x|]|] eqn:E; [| |discriminate].
    + injection H as Hx; subst x.
      destruct (firstByName_preloaded _ _ _ _ E) as (r & _ & _ & ->). reflexivity.
    + cbv zeta in H. destruct (0 <? indexOfDot name); [|discriminate].
      destruct (firstByName flt (substring _ _ _) db) as [[x|]|] eqn:E'; try discriminate.
      injection H as Hx; subst x.
      destruct (firstByName_preloaded _ _ _ _ E') as (r & _ & _ & ->). reflexivity. }
  split; [|split; [exact HN|split; [|split; [|split]]]].
  - intros filter l H i Hi. unfold List in H.
    destruct (flt _); [discriminate|]. inversion H; subst l; clear H.
    apply in_map_iff in Hi. destruct Hi as (r & <- & Hr).
    apply sortBy_In, filter_In in Hr. destruct Hr as [Hin Hw].
    split; [reflexivity|]. exists r. auto.
  - intros iid i H. unfold FindByID in H.
    destruct (flt _); [discriminate|].
    destruct (find _ (instances db)) as [r|] eqn:E; simpl in H; [|discriminate].
    inversion H; subst i. apply find_some in E. destruct E as [_ E].
    apply String.eqb_eq in E. simpl. rewrite E. split; reflexivity.
  - intros filter Hf. unfold List. rewrite Hf. eexists. split; [reflexivity|].
    intros r Hin Hw. split; [|reflexivity].
    apply in_map. apply sortBy_In. apply filter_In. now split.
  - intros name r Hf Hin Hn.
    destruct (FindByName_exact flt name db r Hf Hin Hn) as (i & E & Hi).
    exists i. split; [exact E|]. split; [exact Hi|]. exact (HN name i E).
  - intros iid r Hf Hin Hi.
    destruct (FindByID_present flt iid db r Hf Hin Hi) as (row0 & Hrow & Hrid & E).
    exists (preload db (scan row0)). split; [exact E|]. split; [exact Hrid|].
    cbn [preload scan set_Tags Tags InstanceID]. now rewrite Hrid.
Qed.

(** [List] leaves out the two tags stored for a row that [FindByID] and
    [FindByName] return with them. *)
Lemma List_leaves_tags_unloaded_FindBy_loads_them_witness :
  (exists l i, List no_faults None db_web = Ok l /\ In i l /\
               InstanceID i = "i-0bb" /\ Tags i = [] /\ tags_of "i-0bb" db_web <> []) /\
  (exists i, FindByID no_faults "i-0bb" db_web = Ok (Some i) /\
             Tags i = tags_of "i-0bb" db_web) /\
  (exists l, List no_faults None db_api = Ok l /\ map InstanceID l = ["i-0ff"] /\
             map Tags l = [[]]) /\
  (exists i, FindByName no_faults "api" db_api = Ok (Some i) /\
             InstanceID i = "i-0ff" /\
             map kv (Tags i) = [("Name", "api"); ("Team", "core")]) /\
  (exists i, FindByID no_faults "i-0ff" db_api = Ok (Some i) /\
             map kv (Tags i) = [("Name", "api"); ("Team", "core")]).
Proof.
  pose proof (List_leaves_tags_unloaded_FindBy_loads_them no_faults db_web)
    as (HL & _ & HI & _).
  pose proof (List_leaves_tags_unloaded_FindBy_loads_them no_faults db_api)
    as (_ & _ & _ & HL' & HN' & HI').
  split; [|split; [|split; [|split]]].
  - eexists. exists (scan (row 2 "i-0bb" "web" "eu-west-1" "dev" "Running" 4000 4000)).
    split; [reflexivity|].
    assert (Hin : In (scan (row 2 "i-0bb" "web" "eu-west-1" "dev" "Running" 4000 4000))
                     (map scan (sortBy listOrder (filter (listWhere None) (instances db_web))))).
    { vm_compute. auto. }
    split; [exact Hin|]. split; [reflexivity|].
    split; [exact (proj1 (HL None _ eq_refl _ Hin))|discriminate].
  - eexists. split; [reflexivity|].
    exact (proj2 (HI "i-0bb" _ eq_refl)).
  - destruct (HL' None eq_refl) as (l & E & _).
    exists l. split; [exact E|].
    vm_compute in E. injection E as <-. split; reflexivity.
  - destruct (HN' "api" (row 1 "i-0ff" "api" "us-east-1" "prod" "running" 6000 6000)
                eq_refl (or_introl eq_refl) eq_refl) as (i & E & _ & Ht).
    exists i. split; [exact E|].
    vm_compute in E. injection E as <-. split; reflexivity.
  - destruct (HI' "i-0ff" (row 1 "i-0ff" "api" "us-east-1" "prod" "running" 6000 6000)
                eq_refl (or_introl eq_refl) eq_refl) as (i & E & _ & Ht).
    exists i. split; [exact E|].
    vm_compute in E. injection E as <-. reflexivity.
Defined.

(** ** Eviction *)

Lemma filter_split_length {A : Type} (p : A -> bool) (l : list A) :
  List.length l
  = (List.length (filter p l) + List.length (filter (fun x => negb (p x)) l))%nat.
Proof.
  induction l as [|x l IH]; simpl; [reflexivity|].
  destruct (p x); simpl; lia.
Qed.

(** C5, as the code has it.  When the store accepts the statement,
    [DeleteStale] removes exactly the rows whose [last_seen] is before
    [now - ttl] and keeps every other row, in order; it returns [nil], also
    when no row is stale.  The number of rows removed is not returned: it
    goes to the log, at info level, when it is positive. *)
Theorem DeleteStale_removes_exactly_the_stale_rows :
  forall (flt : Faults) (now : Time) (ttl : Duration) (db : DB),
    flt (SDeleteStale (now - ttl)) = false ->
    let out := DeleteStale flt now ttl db in
    let db' := fst (fst out) in
    snd out = nil /\
    (forall r, In r (instances db') <-> In r (instances db) /\ now - ttl <= LastSeen r) /\
    instances db' = filter (fun r => negb (LastSeen r <? now - ttl)) (instances db) /\
    tags db' = tags db /\
    (List.length (instances db)
     = List.length (instances db') + List.length (stale (now - ttl)%Z db))%nat /\
    snd (fst out)
    = if (0 <? List.length (stale (now - ttl)%Z db))%nat
      then [{| level := InfoLevel; message := "Deleted stale instances";
               fields := [("count", Z.of_nat (List.length (stale (now - ttl)%Z db)))] |}]
      else [].
Proof.
  intros flt now ttl db Hflt out db'.
  assert (Hout : out =
    if 0 <? Z.of_nat (List.length (stale (now - ttl)%Z db))
    then (set_instances (filter (fun r => negb (LastSeen r <? now - ttl)) (instances db)) db,
          [{| level := InfoLevel; message := "Deleted stale instances";
              fields := [("count", Z.of_nat (List.length (stale (now - ttl)%Z db)))] |}], nil)
    else (set_instances (filter (fun r => negb (LastSeen r <? now - ttl)) (instances db)) db,
          [], nil)).
  { unfold out, DeleteStale. cbv zeta. change (now + - ttl) with (now - ttl).
    rewrite Hflt. unfold deleteWhereLastSeenBefore, stale. reflexivity. }
  assert (Hdb : instances db'
                = filter (fun r => negb (LastSeen r <? now - ttl)) (instances db)
                /\ tags db' = tags db /\ snd out = nil).
  { unfold db'. rewrite Hout. destruct (0 <? _); simpl; auto. }
  destruct Hdb as (Hi & Ht & He).
  split; [exact He|]. split; [|split; [exact Hi|split; [exact Ht|split]]].
  - intros r. rewrite Hi, filter_In, negb_true_iff, Z.ltb_ge. tauto.
  - rewrite Hi. unfold stale.
    rewrite (filter_split_length (fun r => LastSeen r <? now - ttl) (instances db)). lia.
  - rewrite Hout.
    destruct (List.length (stale (now - ttl)%Z db)) as [|n] eqn:E; reflexivity.
Qed.

Lemma DeleteStale_removes_exactly_the_stale_rows_witness :
  no_faults (SDeleteStale (10000 - 6500)) = false /\
  snd (DeleteStale no_faults 10000 6500 db_web) = nil /\
  List.length (instances (fst (fst (DeleteStale no_faults 10000 6500 db_web)))) = 2%nat.
Proof.
  split; [reflexivity|].
  split; [|reflexivity].
  exact (proj1 (DeleteStale_removes_exactly_the_stale_rows no_faults 10000 6500 db_web eq_refl)).
Defined.

(** C5, as stated, fails: the value [DeleteStale] returns is the same
    ([nil]) on a call that deletes two rows and on one that deletes none,
    so it does not tell the number of rows deleted. *)
Lemma DeleteStale_returns_no_count :
  snd (DeleteStale no_faults 10000 6500 db_web) = nil /\
  snd (DeleteStale no_faults 10000 9500 db_web) = nil /\
  List.length (stale (10000 - 6500)%Z db_web) = 2%nat /\
  List.length (stale (10000 - 9500)%Z db_web) = 0%nat.
Proof.
  repeat split; reflexivity.
Qed.

(** ** Upsert: what a successful call does *)

Lemma Transaction_ok (flt : Faults) (fn : DB -> result DB) (db db' : DB) :
  Transaction flt fn db = (db', nil) -> fn db = Ok db'.
Proof.
  unfold Transaction. destruct (fn db) as [d|m]; [|discriminate].
  destruct (flt SCommit); [discriminate|]. intros H. now inversion H.
Qed.

(** A transaction that returns an error leaves the store as it was. *)
Lemma Transaction_rollback (flt : Faults) (fn : DB -> result DB) (db db' : DB) (m : string) :
  Transaction flt fn db = (db', Some m) -> db' = db.
Proof.
  unfold Transaction. destruct (fn db) as [d|m'].
  - destruct (flt SCommit); [|discriminate]. intros H. now inversion H.
  - intros H. now inversion H.
Qed.

Lemma SaveOrUpdate_ok (flt : Faults) (now : Time) (i : Instance) (db db' : DB) :
  SaveOrUpdate flt now i db = (db', nil) -> upsertOne flt now i db = Ok db'.
Proof.
  apply Transaction_ok.
Qed.

Lemma SaveOrUpdateBatch_ok (flt : Faults) (now : Time) (l : list Instance) (db db' : DB) :
  SaveOrUpdateBatch flt now l db = (db', nil) -> upsertAll flt now l db = Ok db'.
Proof.
  unfold SaveOrUpdateBatch. destruct l as [|i l].
  - simpl. intros H. now inversion H.
  - cbn [List.length Nat.eqb]. apply Transaction_ok.
Qed.

Lemma SaveOrUpdateBatch_rollback (flt : Faults) (now : Time) (l : list Instance)
      (db db' : DB) (m : string) :
  SaveOrUpdateBatch flt now l db = (db', Some m) -> db' = db.
Proof.
  unfold SaveOrUpdateBatch. destruct (List.length l =? 0)%nat.
  - discriminate.
  - apply Transaction_rollback.
Qed.

Lemma upsertAll_app (flt : Faults) (now : Time) (l1 l2 : list Instance) (db : DB) :
  upsertAll flt now (l1 ++ l2) db
  = match upsertAll flt now l1 db with
    | Ok db1 => upsertAll flt now l2 db1
    | Error m => Error m
    end.
Proof.
  revert db. induction l1 as [|i l1 IH]; intros db; simpl; [reflexivity|].
  destruct (upsertOne flt now i db); [apply IH|reflexivity].
Qed.

(** ** Tags are replaced wholesale, or left alone *)

Lemma firstOrCreate_tags (now : Time) (i : Instance) (db : DB) :
  tags (firstOrCreate now i db) = tags db /\
  next_tag_id (firstOrCreate now i db) = next_tag_id db.
Proof.
  unfold firstOrCreate. destruct (updateFirst _ _ _); split; reflexivity.
Qed.

Lemma withIDs_newTagsFor (iid : string) (ts : list Tag) (n : nat) :
  Forall (fun t => TagInstanceID t = iid) (withIDs n (newTagsFor iid ts)) /\
  map kv (withIDs n (newTagsFor iid ts)) = map kv ts.
Proof.
  revert n. induction ts as [|t ts IH]; intros n; simpl.
  - split; [constructor|reflexivity].
  - destruct (IH (S n)) as [H1 H2]. split; [constructor; [reflexivity|exact H1]|].
    now rewrite H2.
Qed.

Lemma filter_all {A : Type} (p : A -> bool) (l : list A) :
  Forall (fun x => p x = true) l -> filter p l = l.
Proof.
  induction 1 as [|x l Hx _ IH]; simpl; [reflexivity|]. now rewrite Hx, IH.
Qed.

Lemma filter_none {A : Type} (p : A -> bool) (l : list A) :
  Forall (fun x => p x = false) l -> filter p l = [].
Proof.
  induction 1 as [|x l Hx _ IH]; simpl; [reflexivity|]. now rewrite Hx, IH.
Qed.

Lemma filter_filter_neg {A : Type} (p q : A -> bool) (l : list A) :
  (forall x, q x = true -> p x = false) ->
  filter q (filter (fun x => negb (p x)) l) = filter q l.
Proof.
  intros H. induction l as [|x l IH]; simpl; [reflexivity|].
  destruct (p x) eqn:P; simpl.
  - destruct (q x) eqn:Q; [|exact IH]. rewrite (H x Q) in P. discriminate.
  - destruct (q x); now rewrite IH.
Qed.

(** The tags stored under [j] after one record went through the loop body. *)
Lemma upsertOne_tags_of (flt : Faults) (now : Time) (i : Instance) (db db' : DB)
      (j : string) :
  upsertOne flt now i db = Ok db' ->
  (hasTags i = false -> tags db' = tags db) /\
  (j <> InstanceID i -> tags_of j db' = tags_of j db) /\
  (hasTags i = true ->
   tags_of (InstanceID i) db' = withIDs (next_tag_id db) (newTagsFor (InstanceID i) (Tags i)) /\
   map kv (tags_of (InstanceID i) db') = map kv (Tags i)).
Proof.
  unfold upsertOne, hasTags.
  destruct (flt (SFirstOrCreate i)); [discriminate|].
  destruct (firstOrCreate_tags now i db) as [Ht Hn].
  destruct (0 <? List.length (Tags i))%nat eqn:Hlen.
  - destruct (flt (SDeleteTags _)); [discriminate|].
    assert (Hlen' : (0 <? List.length (newTagsFor (InstanceID i) (Tags i)))%nat = true).
    { unfold newTagsFor. now rewrite length_map. }
    rewrite Hlen'. destruct (flt (SCreateTags _)); [discriminate|].
    intros H. inversion H; subst db'; clear H.
    destruct (withIDs_newTagsFor (InstanceID i) (Tags i) (next_tag_id db)) as [Hall Hkv].
    split; [discriminate|].
    unfold tags_of, createTags, deleteTags. simpl. rewrite Hn, Ht.
    split.
    + intros Hj. rewrite filter_app.
      rewrite filter_filter_neg.
      * assert (E : filter (fun t => (TagInstanceID t =? j)%string)
                      (withIDs (next_tag_id db) (newTagsFor (InstanceID i) (Tags i))) = []).
        { apply filter_none. eapply Forall_impl; [|exact Hall]. simpl. intros t ->.
          apply String.eqb_neq. congruence. }
        rewrite E. apply app_nil_r.
      * intros t Hq. apply String.eqb_eq in Hq. apply String.eqb_neq. congruence.
    + intros _.
      assert (E : filter (fun t => (TagInstanceID t =? InstanceID i)%string)
                    (filter (fun t => negb (TagInstanceID t =? InstanceID i)%string) (tags db)
                     ++ withIDs (next_tag_id db) (newTagsFor (InstanceID i) (Tags i)))
                  = withIDs (next_tag_id db) (newTagsFor (InstanceID i) (Tags i))).
      { rewrite filter_app.
        rewrite (filter_none (fun t => (TagInstanceID t =? InstanceID i)%string)
                   (filter (fun t => negb (TagInstanceID t =? InstanceID i)%string) (tags db))).
        - simpl. apply filter_all. eapply Forall_impl; [|exact Hall].
          simpl. intros t ->. apply String.eqb_refl.
        - apply Forall_forall. intros t Hin. apply filter_In in Hin.
          destruct Hin as [_ Hneg]. now apply negb_true_iff in Hneg. }
      rewrite E. split; [reflexivity|exact Hkv].
  - intros H. inversion H; subst db'; clear H.
    split; [intros _; exact Ht|]. split; [|discriminate].
    intros _. unfold tags_of. now rewrite Ht.
Qed.

Lemma hasTags_false (i : Instance) : hasTags i = false <-> Tags i = [].
Proof.
  unfold hasTags. destruct (Tags i); cbn; split; intros H; congruence.
Qed.

Lemma hasTags_true (i : Instance) : hasTags i = true <-> Tags i <> [].
Proof.
  unfold hasTags. destruct (Tags i); cbn; split; intros H; congruence.
Qed.

(** Records that carry no tags for [iid] leave the tags stored under [iid] alone. *)
Lemma upsertAll_without_tags (flt : Faults) (now : Time) (iid : string)
      (l : list Instance) (db db' : DB) :
  upsertAll flt now l db = Ok db' ->
  Forall (fun i => InstanceID i = iid -> Tags i = []) l ->
  tags_of iid db' = tags_of iid db.
Proof.
  revert db. induction l as [|i l IH]; simpl; intros db H Hall.
  - now inversion H.
  - destruct (upsertOne flt now i db) as [db1|] eqn:E; [|discriminate].
    inversion Hall as [|? ? Hi Hl]; subst.
    rewrite (IH db1 H Hl).
    destruct (upsertOne_tags_of _ _ _ _ _ iid E) as (Hnone & Hother & _).
    destruct (String.eqb_spec iid (InstanceID i)) as [Heq|Hne].
    + unfold tags_of. rewrite Hnone; [reflexivity|].
      apply hasTags_false. now apply Hi.
    + now apply Hother.
Qed.

Lemma upsertAll_last_tagged (flt : Faults) (now : Time) (pre post : list Instance)
      (i : Instance) (db db' : DB) :
  upsertAll flt now (pre ++ i :: post) db = Ok db' ->
  Tags i <> [] ->
  Forall (fun i' => InstanceID i' = InstanceID i -> Tags i' = []) post ->
  map kv (tags_of (InstanceID i) db') = map kv (Tags i).
Proof.
  intros H Ht Hpost. rewrite upsertAll_app in H.
  destruct (upsertAll flt now pre db) as [db1|]; [|discriminate].
  simpl in H.
  destruct (upsertOne flt now i db1) as [db2|] eqn:E; [|discriminate].
  rewrite (upsertAll_without_tags _ _ _ _ _ _ H Hpost).
  destruct (upsertOne_tags_of _ _ _ _ _ (InstanceID i) E) as (_ & _ & Hsome).
  apply Hsome. now apply hasTags_true.
Qed.

(** C2.  The records are those the converters build: they carry an
    instance identifier.  A successful upsert of a record that carries no
    tags leaves the [tags] table as it was; a successful upsert of a record
    that carries tags leaves, under the record's instance identifier,
    exactly the new rows, one per tag of the record, with the record's keys
    and values in order (every row stored before under that identifier is
    gone).  The same holds record by record inside [SaveOrUpdateBatch]: the
    tags stored under an identifier after the batch are those of the last
    record of the batch that carries tags for it, and are the ones stored
    before when no record of the batch carries tags for it. *)
Theorem upsert_keeps_tags_when_none_given_and_replaces_them_otherwise :
  forall (flt : Faults) (now : Time) (db : DB),
    (forall i db',
       InstanceID i <> "" ->
       SaveOrUpdate flt now i db = (db', nil) ->
       (Tags i = [] -> tags db' = tags db) /\
       (Tags i <> [] ->
        tags_of (InstanceID i) db'
        = withIDs (next_tag_id db) (newTagsFor (InstanceID i) (Tags i)) /\
        map kv (tags_of (InstanceID i) db') = map kv (Tags i))) /\
    (forall l db',
       Forall (fun i => InstanceID i <> "") l ->
       SaveOrUpdateBatch flt now l db = (db', nil) ->
       forall iid,
         (Forall (fun i => InstanceID i = iid -> Tags i = []) l ->
          tags_of iid db' = tags_of iid db) /\
         (forall pre i post,
            l = (pre ++ i :: post)%list ->
            InstanceID i = iid -> Tags i <> [] ->
            Forall (fun i' => InstanceID i' = iid -> Tags i' = []) post ->
            map kv (tags_of iid db') = map kv (Tags i))).
Proof.
  intros flt now db. split.
  - intros i db' _ H. apply SaveOrUpdate_ok in H.
    destruct (upsertOne_tags_of _ _ _ _ _ (InstanceID i) H) as (Hnone & _ & Hsome).
    split.
    + intros Ht. apply Hnone. now apply hasTags_false.
    + intros Ht. apply Hsome. now apply hasTags_true.
  - intros l db' _ H iid. apply SaveOrUpdateBatch_ok in H. split.
    + intros Hall. exact (upsertAll_without_tags _ _ _ _ _ _ H Hall).
    + intros pre i post -> <- Ht Hpost.
      exact (upsertAll_last_tagged _ _ _ _ _ _ _ H Ht Hpost).
Qed.

Lemma upsert_keeps_tags_when_none_given_and_replaces_them_otherwise_witness :
  (InstanceID agent_i0bb <> "" /\
   SaveOrUpdate no_faults 7000 agent_i0bb db_web
   = (fst (SaveOrUpdate no_faults 7000 agent_i0bb db_web), nil) /\
   tags (fst (SaveOrUpdate no_faults 7000 agent_i0bb db_web)) = tags db_web) /\
  (Forall (fun i => InstanceID i <> "") [compute_i0bb; agent_i0bb] /\
   SaveOrUpdateBatch no_faults 7000 [compute_i0bb; agent_i0bb] db_web
   = (fst (SaveOrUpdateBatch no_faults 7000 [compute_i0bb; agent_i0bb] db_web), nil) /\
   map kv (tags_of "i-0bb"
             (fst (SaveOrUpdateBatch no_faults 7000 [compute_i0bb; agent_i0bb] db_web)))
   = [("Name", "web2"); ("Team", "core"); ("Env", "prod")]).
Proof.
  pose proof (upsert_keeps_tags_when_none_given_and_replaces_them_otherwise
                no_faults 7000 db_web) as [H1 H2].
  assert (Hid : InstanceID agent_i0bb <> "") by discriminate.
  assert (Hids : Forall (fun i => InstanceID i <> "") [compute_i0bb; agent_i0bb])
    by (repeat constructor; discriminate).
  split.
  - split; [exact Hid|]. split; [reflexivity|].
    exact (proj1 (H1 agent_i0bb _ Hid eq_refl) eq_refl).
  - split; [exact Hids|]. split; [reflexivity|].
    refine (proj2 (H2 [compute_i0bb; agent_i0bb] _ Hids eq_refl "i-0bb")
              [] compute_i0bb [agent_i0bb] eq_refl eq_refl _ _).
    + discriminate.
    + constructor; [reflexivity|constructor].
Defined.

(** ** Upsert: rows and keys *)

Lemma keyb_spec (k : string * string * string) (r : Instance) :
  keyb k r = true <-> key r = k.
Proof.
  destruct k as [[a b] c]. unfold keyb, key.
  rewrite !andb_true_iff, !String.eqb_eq. split.
  - intros [[-> ->] ->]. reflexivity.
  - intros H. inversion H. auto.
Qed.

Lemma keyb_false (k : string * string * string) (r : Instance) :
  keyb k r = false <-> key r <> k.
Proof.
  rewrite <- keyb_spec. destruct (keyb k r); split; congruence.
Qed.

Lemma isZero_false (s : string) : s <> "" -> isZero s = false.
Proof.
  intros H. unfold isZero. now apply String.eqb_neq.
Qed.

Lemma whereKey_keyed (i r : Instance) :
  keyed i -> whereKey i r = keyb (key i) r.
Proof.
  intros (H1 & H2 & H3). unfold whereKey, keyb, key.
  now rewrite (isZero_false _ H1), (isZero_false _ H2), (isZero_false _ H3).
Qed.

Lemma key_assignTo (now : Time) (i r : Instance) : key (assignTo now i r) = key r.
Proof. reflexivity. Qed.

Lemma key_createdFrom (now : Time) (id : nat) (i : Instance) :
  key (createdFrom now id i) = key i.
Proof. reflexivity. Qed.

(** [updateFirst] under a key: it finds a row exactly when [lookup] does,
    and it changes the row [lookup] finds. *)
Lemma updateFirst_lookup (k : string * string * string) (f : Instance -> Instance)
      (rows : list Instance) :
  (forall r, key (f r) = key r) ->
  match updateFirst (keyb k) f rows with
  | Some rows' =>
      exists r, lookup k rows = Some r /\
                lookup k rows' = Some (f r) /\
                map key rows' = map key rows /\
                forall k', k' <> k -> lookup k' rows' = lookup k' rows
  | None => lookup k rows = None
  end.
Proof.
  intros Hf. unfold lookup. induction rows as [|x rows IH]; simpl; [reflexivity|].
  destruct (keyb k x) eqn:Hx.
  - exists x. split; [reflexivity|]. simpl.
    assert (Hfx : keyb k (f x) = true) by (apply keyb_spec; rewrite Hf; now apply keyb_spec).
    rewrite Hfx. split; [reflexivity|]. split; [now rewrite Hf|].
    intros k' Hk'.
    assert (E1 : keyb k' (f x) = false).
    { apply keyb_false. rewrite Hf. apply keyb_spec in Hx. congruence. }
    assert (E2 : keyb k' x = false).
    { apply keyb_false. apply keyb_spec in Hx. congruence. }
    now rewrite E1, E2.
  - destruct (updateFirst (keyb k) f rows) as [rows'|].
    + destruct IH as (r & H1 & H2 & H3 & H4). exists r. split; [exact H1|].
      simpl. rewrite Hx. split; [exact H2|]. split; [now rewrite H3|].
      intros k' Hk'. rewrite (H4 k' Hk'). reflexivity.
    + exact IH.
Qed.

Lemma updateFirst_ext (p q : Instance -> bool) (f : Instance -> Instance)
      (rows : list Instance) :
  (forall r, p r = q r) -> updateFirst p f rows = updateFirst q f rows.
Proof.
  intros H. induction rows as [|x rows IH]; simpl; [reflexivity|].
  now rewrite H, IH.
Qed.

Lemma lookup_app_new (k : string * string * string) (rows : list Instance)
      (x : Instance) :
  lookup k (rows ++ [x])
  = match lookup k rows with
    | Some r => Some r
    | None => if keyb k x then Some x else None
    end.
Proof.
  unfold lookup. induction rows as [|y rows IH]; simpl; [reflexivity|].
  destruct (keyb k y); [reflexivity|exact IH].
Qed.

Lemma lookup_None_not_In (k : string * string * string) (rows : list Instance) :
  lookup k rows = None <-> ~ In k (map key rows).
Proof.
  unfold lookup. induction rows as [|x rows IH]; simpl; [tauto|].
  destruct (keyb k x) eqn:Kx.
  - apply keyb_spec in Kx. split; [discriminate|]. intros H. exfalso. apply H. now left.
  - apply keyb_false in Kx. rewrite IH. split; intros H; [intros [E|E]; auto|tauto].
Qed.

(** What [firstOrCreate] does to the row stored under each key, for a
    record that names its key in full. *)
Lemma firstOrCreate_lookup (now : Time) (i : Instance) (db : DB) :
  keyed i ->
  let db' := firstOrCreate now i db in
  lookup (key i) (instances db')
  = Some (match lookup (key i) (instances db) with
          | Some r => assignTo now i r
          | None => createdFrom now (next_instance_id db) i
          end) /\
  (forall k, k <> key i -> lookup k (instances db') = lookup k (instances db)) /\
  (map key (instances db')
   = match lookup (key i) (instances db) with
     | Some _ => map key (instances db)
     | None => map key (instances db) ++ [key i]
     end)%list.
Proof.
  intros Hk db'. unfold db', firstOrCreate.
  rewrite (updateFirst_ext (whereKey i) (keyb (key i)) (assignTo now i) (instances db)
             (fun r => whereKey_keyed i r Hk)).
  pose proof (updateFirst_lookup (key i) (assignTo now i) (instances db)
                (key_assignTo now i)) as H.
  destruct (updateFirst (keyb (key i)) (assignTo now i) (instances db)) as [rows'|].
  - destruct H as (r & H1 & H2 & H3 & H4). simpl. rewrite H1. auto.
  - simpl. rewrite H.
    split; [|split].
    + rewrite lookup_app_new, H.
      assert (E : keyb (key i) (createdFrom now (next_instance_id db) i) = true)
        by now apply keyb_spec.
      now rewrite E.
    + intros k Hne. rewrite lookup_app_new.
      assert (E : keyb k (createdFrom now (next_instance_id db) i) = false)
        by (apply keyb_false; rewrite key_createdFrom; congruence).
      rewrite E. now destruct (lookup k (instances db)).
    + now rewrite map_app.
Qed.

Lemma firstOrCreate_unique (now : Time) (i : Instance) (db : DB) :
  keyed i -> unique_keys db -> unique_keys (firstOrCreate now i db).
Proof.
  intros Hk Hu. unfold unique_keys in *.
  destruct (firstOrCreate_lookup now i db Hk) as (_ & _ & Hm). rewrite Hm.
  destruct (lookup (key i) (instances db)) eqn:E; [exact Hu|].
  apply lookup_None_not_In in E.
  apply NoDup_rev in Hu. rewrite <- (rev_involutive (_ ++ _)%list).
  apply NoDup_rev. rewrite rev_app_distr. simpl. constructor; [|exact Hu].
  now rewrite <- in_rev.
Qed.

(** ** Upsert: the columns a batch writes *)

Lemma attrs_assignTo (now : Time) (i r : Instance) :
  attrs (assignTo now i r) = asg (attrs i) (attrs r).
Proof. reflexivity. Qed.

Lemma attrs_createdFrom (now : Time) (id : nat) (i : Instance) :
  attrs (createdFrom now id i) = attrs i.
Proof. reflexivity. Qed.

Lemma over_assoc (u v x : string) : over u (over v x) = over (over u v) x.
Proof.
  unfold over. destruct (isZero u) eqn:U; [reflexivity|]. now rewrite U.
Qed.

Lemma over_self (v : string) : over v v = v.
Proof.
  unfold over. now destruct (isZero v).
Qed.

Lemma asg_assoc (u v a : string * string * string * string) :
  asg u (asg v a) = asg (asg u v) a.
Proof.
  destruct u as [[[u1 u2] u3] u4], v as [[[v1 v2] v3] v4], a as [[[a1 a2] a3] a4].
  simpl. now rewrite !over_assoc.
Qed.

Lemma asg_self (v : string * string * string * string) : asg v v = v.
Proof.
  destruct v as [[[v1 v2] v3] v4]. simpl. now rewrite !over_self.
Qed.

Lemma asg_zero (a : string * string * string * string) : asg ("", "", "", "") a = a.
Proof.
  destruct a as [[[a1 a2] a3] a4]. reflexivity.
Qed.

Lemma passA_Some (k : string * string * string) (l : list Instance)
      (a : string * string * string * string) :
  passA k l (Some a) = Some (asg (combA k l) a).
Proof.
  revert a. induction l as [|i l IH]; intros a; cbn [passA combA].
  - now rewrite asg_zero.
  - unfold stepA. destruct (keyb k i).
    + now rewrite IH, asg_assoc.
    + apply IH.
Qed.

Lemma passA_None (k : string * string * string) (l : list Instance) :
  passA k l None = if existsb (keyb k) l then Some (combA k l) else None.
Proof.
  induction l as [|i l IH]; cbn [passA combA existsb]; [reflexivity|].
  unfold stepA. destruct (keyb k i); cbn [orb].
  - apply passA_Some.
  - exact IH.
Qed.

(** Running a batch a second time does not change the columns stored
    under any key. *)
Lemma passA_idempotent (k : string * string * string) (l : list Instance)
      (o : option (string * string * string * string)) :
  passA k l (passA k l o) = passA k l o.
Proof.
  destruct o as [a|].
  - rewrite !passA_Some. now rewrite asg_assoc, asg_self.
  - rewrite passA_None. destruct (existsb (keyb k) l) eqn:E.
    + now rewrite passA_Some, asg_self.
    + now rewrite passA_None, E.
Qed.

Lemma upsertOne_instances (flt : Faults) (now : Time) (i : Instance) (db db' : DB) :
  upsertOne flt now i db = Ok db' ->
  instances db' = instances (firstOrCreate now i db).
Proof.
  unfold upsertOne. destruct (flt (SFirstOrCreate i)); [discriminate|].
  destruct (0 <? List.length (Tags i))%nat.
  - destruct (flt (SDeleteTags _)); [discriminate|].
    destruct (0 <? List.length (newTagsFor _ _))%nat.
    + destruct (flt (SCreateTags _)); [discriminate|]. intros H. now inversion H.
    + intros H. now inversion H.
  - intros H. now inversion H.
Qed.

Lemma upsertOne_next_instance_id (flt : Faults) (now : Time) (i : Instance) (db db' : DB) :
  upsertOne flt now i db = Ok db' ->
  next_instance_id db' = next_instance_id (firstOrCreate now i db).
Proof.
  unfold upsertOne. destruct (flt (SFirstOrCreate i)); [discriminate|].
  destruct (0 <? List.length (Tags i))%nat.
  - destruct (flt (SDeleteTags _)); [discriminate|].
    destruct (0 <? List.length (newTagsFor _ _))%nat.
    + destruct (flt (SCreateTags _)); [discriminate|]. intros H. now inversion H.
    + intros H. now inversion H.
  - intros H. now inversion H.
Qed.

(** One record, seen from the key [k]. *)
Lemma upsertOne_lookup (flt : Faults) (now : Time) (i : Instance) (db db' : DB)
      (k : string * string * string) :
  keyed i ->
  upsertOne flt now i db = Ok db' ->
  option_map attrs (lookup k (instances db'))
  = stepA k i (option_map attrs (lookup k (instances db))) /\
  (key i = k ->
   exists r, lookup k (instances db') = Some r /\ LastSeen r = now /\ UpdatedAt r = now) /\
  (key i <> k -> lookup k (instances db') = lookup k (instances db)).
Proof.
  intros Hk H. rewrite (upsertOne_instances _ _ _ _ _ H).
  destruct (firstOrCreate_lookup now i db Hk) as (H1 & H2 & _).
  unfold stepA. destruct (keyb k i) eqn:K.
  - apply keyb_spec in K. subst k. rewrite H1. split; [|split].
    + simpl. destruct (lookup (key i) (instances db)); reflexivity.
    + intros _. eexists. split; [reflexivity|].
      destruct (lookup (key i) (instances db)); split; reflexivity.
    + congruence.
  - apply keyb_false in K.
    assert (K' : k <> key i) by congruence.
    rewrite (H2 k K'). split; [reflexivity|]. split; [congruence|reflexivity].
Qed.

(** A batch, seen from the key [k]. *)
Lemma upsertAll_lookup (flt : Faults) (now : Time) (l : list Instance) (db db' : DB)
      (k : string * string * string) :
  Forall keyed l ->
  upsertAll flt now l db = Ok db' ->
  option_map attrs (lookup k (instances db'))
  = passA k l (option_map attrs (lookup k (instances db))).
Proof.
  revert db. induction l as [|i l IH]; simpl; intros db Hk H.
  - now inversion H.
  - destruct (upsertOne flt now i db) as [db1|] eqn:E; [|discriminate].
    inversion Hk as [|? ? Hi Hl]; subst.
    rewrite (IH db1 Hl H).
    now rewrite (proj1 (upsertOne_lookup flt now i db db1 k Hi E)).
Qed.

(** After a batch, the row under the key of each of its records was last
    seen at the time of the batch. *)
Lemma upsertAll_last_seen (flt : Faults) (now : Time) (l : list Instance) (db db' : DB)
      (k : string * string * string) :
  Forall keyed l ->
  upsertAll flt now l db = Ok db' ->
  ((exists r, lookup k (instances db) = Some r /\ LastSeen r = now /\ UpdatedAt r = now)
   \/ In k (map key l)) ->
  exists r, lookup k (instances db') = Some r /\ LastSeen r = now /\ UpdatedAt r = now.
Proof.
  revert db. induction l as [|i l IH]; simpl; intros db Hk H Hin.
  - inversion H; subst. destruct Hin as [Hin|[]]. exact Hin.
  - destruct (upsertOne flt now i db) as [db1|] eqn:E; [|discriminate].
    inversion Hk as [|? ? Hi Hl]; subst.
    apply (IH db1 Hl H).
    destruct (upsertOne_lookup flt now i db db1 k Hi E) as (_ & Hsame & Hother).
    destruct (keyb k i) eqn:K.
    + left. apply Hsame. now apply keyb_spec.
    + apply keyb_false in K. destruct Hin as [Hin|[Hin|Hin]].
      * left. now rewrite (Hother K).
      * contradiction.
      * now right.
Qed.

Lemma upsertOne_keys (flt : Faults) (now : Time) (i : Instance) (db db' : DB) :
  keyed i ->
  upsertOne flt now i db = Ok db' ->
  (map key (instances db')
   = if existsb (keyb (key i)) (instances db)
     then map key (instances db)
     else map key (instances db) ++ [key i])%list.
Proof.
  intros Hk H. rewrite (upsertOne_instances _ _ _ _ _ H).
  destruct (firstOrCreate_lookup now i db Hk) as (_ & _ & Hm). rewrite Hm.
  unfold lookup. destruct (find (keyb (key i)) (instances db)) as [r|] eqn:E.
  - apply find_some in E.
    assert (Ex : existsb (keyb (key i)) (instances db) = true).
    { apply existsb_exists. exists r. exact E. }
    now rewrite Ex.
  - assert (Ex : existsb (keyb (key i)) (instances db) = false).
    { destruct (existsb _ _) eqn:X; [|reflexivity].
      apply existsb_exists in X. destruct X as (r & Hin & Hr).
      now rewrite (find_none _ _ E r Hin) in Hr. }
    now rewrite Ex.
Qed.

Lemma existsb_keyb_In (k : string * string * string) (rows : list Instance) :
  existsb (keyb k) rows = true <-> In k (map key rows).
Proof.
  rewrite existsb_exists, in_map_iff. split.
  - intros (r & Hin & Hr). exists r. split; [now apply keyb_spec|exact Hin].
  - intros (r & Hr & Hin). exists r. split; [exact Hin|now apply keyb_spec].
Qed.

Lemma upsertOne_unique (flt : Faults) (now : Time) (i : Instance) (db db' : DB) :
  keyed i -> unique_keys db -> upsertOne flt now i db = Ok db' -> unique_keys db'.
Proof.
  intros Hk Hu H. unfold unique_keys.
  rewrite (upsertOne_instances _ _ _ _ _ H).
  now apply firstOrCreate_unique.
Qed.

Lemma upsertAll_unique (flt : Faults) (now : Time) (l : list Instance) (db db' : DB) :
  Forall keyed l -> unique_keys db -> upsertAll flt now l db = Ok db' -> unique_keys db'.
Proof.
  revert db. induction l as [|i l IH]; simpl; intros db Hk Hu H.
  - now inversion H; subst.
  - destruct (upsertOne flt now i db) as [db1|] eqn:E; [|discriminate].
    inversion Hk as [|? ? Hi Hl]; subst.
    apply (IH db1 Hl); [|exact H]. eapply upsertOne_unique; eauto.
Qed.

(** Rows are never removed by a batch, and every record of the batch has
    its row afterwards. *)
Lemma upsertAll_keys_present (flt : Faults) (now : Time) (l : list Instance) (db db' : DB)
      (k : string * string * string) :
  Forall keyed l ->
  upsertAll flt now l db = Ok db' ->
  In k (map key (instances db)) \/ In k (map key l) ->
  In k (map key (instances db')).
Proof.
  revert db. induction l as [|i l IH]; simpl; intros db Hk H Hin.
  - inversion H; subst. tauto.
  - destruct (upsertOne flt now i db) as [db1|] eqn:E; [|discriminate].
    inversion Hk as [|? ? Hi Hl]; subst.
    apply (IH db1 Hl H).
    rewrite (upsertOne_keys _ _ _ _ _ Hi E).
    destruct (existsb (keyb (key i)) (instances db)) eqn:X.
    + apply existsb_keyb_In in X. destruct Hin as [Hin|[<-|Hin]]; auto.
    + rewrite in_app_iff. simpl. destruct Hin as [Hin|[<-|Hin]]; auto.
Qed.

(** A batch whose records all have their row already adds no row. *)
Lemma upsertAll_keys_stable (flt : Faults) (now : Time) (l : list Instance) (db db' : DB) :
  Forall keyed l ->
  (forall i, In i l -> In (key i) (map key (instances db))) ->
  upsertAll flt now l db = Ok db' ->
  map key (instances db') = map key (instances db).
Proof.
  revert db. induction l as [|i l IH]; simpl; intros db Hk Hin H.
  - now inversion H; subst.
  - destruct (upsertOne flt now i db) as [db1|] eqn:E; [|discriminate].
    inversion Hk as [|? ? Hi Hl]; subst.
    pose proof (upsertOne_keys _ _ _ _ _ Hi E) as Hm.
    assert (X : existsb (keyb (key i)) (instances db) = true).
    { apply existsb_keyb_In. apply Hin. now left. }
    rewrite X in Hm.
    rewrite (IH db1 Hl); [exact Hm| |exact H].
    intros j Hj. rewrite Hm. apply Hin. now right.
Qed.

Lemma lookup_unique (rows : list Instance) (r : Instance) :
  NoDup (map key rows) -> In r rows -> lookup (key r) rows = Some r.
Proof.
  unfold lookup. induction rows as [|x rows IH]; cbn [find map In]; intros Hn Hin;
    [contradiction|].
  inversion Hn as [|? ? Hx Hn']; subst.
  destruct Hin as [E|Hin].
  - rewrite E. rewrite (proj2 (keyb_spec (key r) r) eq_refl). reflexivity.
  - assert (K : keyb (key r) x = false).
    { apply keyb_false. intros E. apply Hx. rewrite E. now apply in_map. }
    rewrite K. now apply IH.
Qed.

Lemma count_unique (rows : list Instance) (k : string * string * string) :
  NoDup (map key rows) -> In k (map key rows) ->
  List.length (filter (keyb k) rows) = 1%nat.
Proof.
  induction rows as [|x rows IH]; simpl; intros Hn Hin; [contradiction|].
  inversion Hn as [|? ? Hx Hn']; subst.
  destruct (keyb k x) eqn:K.
  - apply keyb_spec in K. subst k. simpl. f_equal.
    rewrite filter_none; [reflexivity|].
    apply Forall_forall. intros y Hy. apply keyb_false. intros E.
    apply Hx. rewrite <- E. now apply in_map.
  - apply keyb_false in K. destruct Hin as [E|Hin]; [contradiction|]. now apply IH.
Qed.

(** Two tables with the same keys in the same order, none of them twice,
    and the same columns under each key have the same columns row by row. *)
Lemma map_attrs_by_lookup (X Y : list Instance) :
  map key X = map key Y ->
  NoDup (map key X) ->
  (forall k, option_map attrs (lookup k X) = option_map attrs (lookup k Y)) ->
  map attrs X = map attrs Y.
Proof.
  revert Y. induction X as [|x X IH]; intros [|y Y]; simpl; intros Hk Hn Hl;
    try discriminate; [reflexivity|].
  assert (Hxy : key x = key y) by congruence.
  assert (Hk' : map key X = map key Y) by congruence.
  inversion Hn as [|? ? Hx Hn']; subst.
  assert (Kx : keyb (key x) x = true) by now apply keyb_spec.
  assert (Ky : keyb (key x) y = true) by (apply keyb_spec; congruence).
  f_equal.
  - specialize (Hl (key x)). unfold lookup in Hl. cbn [find] in Hl.
    rewrite Kx, Ky in Hl. cbn [option_map] in Hl. congruence.
  - apply IH; [exact Hk'|exact Hn'|].
    intros k. specialize (Hl k). unfold lookup in *. simpl in Hl.
    destruct (keyb k x) eqn:K.
    + apply keyb_spec in K. subst k.
      assert (N1 : find (keyb (key x)) X = None).
      { apply lookup_None_not_In. exact Hx. }
      assert (N2 : find (keyb (key x)) Y = None).
      { apply lookup_None_not_In. rewrite <- Hk'. exact Hx. }
      now rewrite N1, N2.
    + assert (K' : keyb k y = false).
      { apply keyb_false. apply keyb_false in K. congruence. }
      now rewrite K' in Hl.
Qed.

(** The last record of a batch that carries tags for [iid], if any. *)
Lemma last_tagged (iid : string) (l : list Instance) :
  Forall (fun i => InstanceID i = iid -> Tags i = []) l \/
  exists pre i post,
    l = (pre ++ i :: post)%list /\ InstanceID i = iid /\ Tags i <> [] /\
    Forall (fun i' => InstanceID i' = iid -> Tags i' = []) post.
Proof.
  induction l as [|x l IH].
  - left. constructor.
  - destruct IH as [Hall|(pre & i & post & -> & Hi & Ht & Hp)].
    + destruct (String.eqb_spec (InstanceID x) iid) as [E|E].
      * destruct (Tags x) as [|t ts] eqn:T.
        -- left. constructor; [intros _; exact T|exact Hall].
        -- right. exists [], x, l. repeat split; auto. rewrite T. discriminate.
      * left. constructor; [intros E'; contradiction|exact Hall].
    + right. exists (x :: pre), i, post. repeat split; auto.
Qed.

(** ** Upsert is idempotent, up to the timestamps *)

(** C8.  Let a batch whose records name their keys in full be applied
    twice in succession, both times successfully, to a store in which the
    unique index holds.  Then the store holds exactly one row under the key
    of each record of the batch; the second application adds no row and
    leaves the name, account, state and platform of every row, and the
    tags stored under every instance identifier, as the first application
    left them; and each application sets [last_seen] of the rows it
    upserts to its own time, whether or not it changes another column. *)
Theorem SaveOrUpdateBatch_twice_is_once_up_to_timestamps :
  forall (flt1 flt2 : Faults) (now1 now2 : Time) (l : list Instance) (db db1 db2 : DB),
    Forall keyed l ->
    unique_keys db ->
    SaveOrUpdateBatch flt1 now1 l db = (db1, nil) ->
    SaveOrUpdateBatch flt2 now2 l db1 = (db2, nil) ->
    (forall i, In i l -> List.length (filter (keyb (key i)) (instances db2)) = 1%nat) /\
    map key (instances db2) = map key (instances db1) /\
    map attrs (instances db2) = map attrs (instances db1) /\
    (forall iid, map kv (tags_of iid db2) = map kv (tags_of iid db1)) /\
    (forall i r, In i l -> In r (instances db1) -> key r = key i -> LastSeen r = now1) /\
    (forall i r, In i l -> In r (instances db2) -> key r = key i -> LastSeen r = now2).
Proof.
  intros flt1 flt2 now1 now2 l db db1 db2 Hk Hu H1 H2.
  apply SaveOrUpdateBatch_ok in H1. apply SaveOrUpdateBatch_ok in H2.
  assert (Hu1 : unique_keys db1) by (eapply upsertAll_unique; eauto).
  assert (Hu2 : unique_keys db2) by (eapply upsertAll_unique; eauto).
  assert (Hp1 : forall i, In i l -> In (key i) (map key (instances db1))).
  { intros i Hi. apply (upsertAll_keys_present _ _ _ _ _ (key i) Hk H1).
    right. now apply in_map. }
  assert (Hkeys : map key (instances db2) = map key (instances db1)).
  { exact (upsertAll_keys_stable _ _ _ _ _ Hk Hp1 H2). }
  assert (Hseen : forall now d d', upsertAll flt1 now l d = Ok d' \/ upsertAll flt2 now l d = Ok d' ->
                  unique_keys d' ->
                  forall i r, In i l -> In r (instances d') -> key r = key i -> LastSeen r = now).
  { intros now d d' Hd Hud i r Hi Hr Hkr.
    assert (Hex : exists r', lookup (key i) (instances d') = Some r' /\
                             LastSeen r' = now /\ UpdatedAt r' = now).
    { destruct Hd as [Hd|Hd];
        apply (upsertAll_last_seen _ _ _ _ _ (key i) Hk Hd); right; now apply in_map. }
    destruct Hex as (r' & Hl & Hs & _).
    rewrite <- Hkr in Hl. rewrite (lookup_unique _ _ Hud Hr) in Hl.
    now inversion Hl; subst. }
  split; [|split; [exact Hkeys|split; [|split; [|split]]]].
  - intros i Hi. apply count_unique; [exact Hu2|].
    rewrite Hkeys. now apply Hp1.
  - apply map_attrs_by_lookup; [exact Hkeys|exact Hu2|].
    intros k.
    rewrite (upsertAll_lookup _ _ _ _ _ k Hk H2).
    rewrite (upsertAll_lookup _ _ _ _ _ k Hk H1).
    apply passA_idempotent.
  - intros iid. destruct (last_tagged iid l) as [Hnone|(pre & i & post & -> & <- & Ht & Hp)].
    + now rewrite (upsertAll_without_tags _ _ _ _ _ _ H2 Hnone).
    + rewrite (upsertAll_last_tagged _ _ _ _ _ _ _ H2 Ht Hp).
      now rewrite (upsertAll_last_tagged _ _ _ _ _ _ _ H1 Ht Hp).
  - exact (Hseen now1 db db1 (or_introl H1) Hu1).
  - exact (Hseen now2 db1 db2 (or_intror H2) Hu2).
Qed.

Lemma SaveOrUpdateBatch_twice_is_once_up_to_timestamps_witness :
  Forall keyed batch_twice /\
  unique_keys db_web /\
  let db1 := fst (SaveOrUpdateBatch no_faults 7000 batch_twice db_web) in
  let db2 := fst (SaveOrUpdateBatch no_faults 8000 batch_twice db1) in
  SaveOrUpdateBatch no_faults 7000 batch_twice db_web = (db1, nil) /\
  SaveOrUpdateBatch no_faults 8000 batch_twice db1 = (db2, nil) /\
  map attrs (instances db2) = map attrs (instances db1).
Proof.
  assert (Hk : Forall keyed batch_twice).
  { repeat constructor; discriminate. }
  assert (Hu : unique_keys db_web).
  { unfold unique_keys. simpl.
    repeat constructor; simpl; intuition discriminate. }
  split; [exact Hk|]. split; [exact Hu|].
  intros db1 db2.
  assert (H1 : SaveOrUpdateBatch no_faults 7000 batch_twice db_web = (db1, nil))
    by reflexivity.
  assert (H2 : SaveOrUpdateBatch no_faults 8000 batch_twice db1 = (db2, nil))
    by reflexivity.
  split; [exact H1|]. split; [exact H2|].
  exact (proj1 (proj2 (proj2
    (SaveOrUpdateBatch_twice_is_once_up_to_timestamps
       no_faults no_faults 7000 8000 batch_twice db_web db1 db2 Hk Hu H1 H2)))).
Defined.

(** ** A discovery unit and its writes *)

(** A call either commits its whole batch and logs nothing, or leaves the
    store as it was and logs its warning. *)
Lemma exec_cases (c : Call) (db : DB) :
  (SaveOrUpdateBatch (call_faults c) (call_now c) (call_batch c) db = (fst (exec c db), nil)
   /\ snd (exec c db) = []) \/
  (exists m,
     SaveOrUpdateBatch (call_faults c) (call_now c) (call_batch c) db = (db, Some m) /\
     exec c db = (db, [{| level := WarnLevel; message := call_warning c; fields := [] |}])).
Proof.
  unfold exec.
  destruct (SaveOrUpdateBatch (call_faults c) (call_now c) (call_batch c) db)
    as [db' [m|]] eqn:E.
  - right. exists m. rewrite (SaveOrUpdateBatch_rollback _ _ _ _ _ _ E) in *. auto.
  - left. auto.
Qed.

(** The unit, threading the store, is the unit as a sequence of calls. *)
Lemma discoverInstancesForProfileRegion_calls (w : World) (profile region : string) (db : DB) :
  discoverInstancesForProfileRegion w profile region db
  = (fst (execAll (fst (unitCalls w profile region)) db),
     snd (execAll (fst (unitCalls w profile region)) db),
     snd (unitCalls w profile region)).
Proof.
  unfold discoverInstancesForProfileRegion, unitCalls.
  destruct (GetClient w) as [client|]; [|reflexivity].
  destruct (describeInstances w) as [instances|]; [|reflexivity].
  destruct (describeSSMManagedInstances w) as [managed|].
  - destruct (0 <? List.length (ssmBatchOf managed region profile (AccountID client)))%nat;
      cbn [fst snd execAll];
      destruct (exec (saveEC2 w _) db) as [db1 log1]; cbn [fst snd].
    + destruct (exec (saveSSM w _) db1) as [db2 log2]. cbn [fst snd].
      now rewrite app_nil_r.
    + now rewrite app_nil_r.
  - cbn [fst snd execAll]. destruct (exec (saveEC2 w _) db) as [db1 log1]. cbn [fst snd].
    now rewrite app_nil_r.
Qed.

(** The unit returns [nil] exactly when its three remote calls succeed. *)
Lemma unitCalls_nil (w : World) (profile region : string) :
  snd (unitCalls w profile region) = nil <->
  exists client instances managed,
    GetClient w = Ok client /\ describeInstances w = Ok instances /\
    describeSSMManagedInstances w = Ok managed.
Proof.
  unfold unitCalls.
  destruct (GetClient w) as [client|]; [|split; [discriminate|intros (?&?&?&?&_); discriminate]].
  destruct (describeInstances w) as [instances|];
    [|split; [discriminate|intros (?&?&?&_&?&_); discriminate]].
  destruct (describeSSMManagedInstances w) as [managed|];
    [|split; [discriminate|intros (?&?&?&_&_&?); discriminate]].
  split.
  - intros _. exists client, instances, managed. auto.
  - intros _. destruct (0 <? _)%nat; reflexivity.
Qed.

(** C3, as the code has it.  The writes of a unit are made by up to two
    separate calls of [SaveOrUpdateBatch], each a transaction of its own:
    first the converted compute-source set, then, when it is not empty, the
    converted agent-source set.  Each call is all-or-nothing: it either
    commits its whole batch or leaves the store as it was.  A failure of
    the store is logged as a warning and is not an error of the unit: the
    unit returns [nil] exactly when its three remote calls succeed,
    whatever the store does. *)
Theorem unit_writes_in_two_transactions_and_store_failures_are_logged :
  forall (w : World) (profile region : string) (db : DB),
    discoverInstancesForProfileRegion w profile region db
    = (fst (execAll (fst (unitCalls w profile region)) db),
       snd (execAll (fst (unitCalls w profile region)) db),
       snd (unitCalls w profile region)) /\
    (forall client instances managed,
       GetClient w = Ok client -> describeInstances w = Ok instances ->
       describeSSMManagedInstances w = Ok managed ->
       fst (unitCalls w profile region)
       = saveEC2 w (ec2BatchOf instances region profile (AccountID client))
           :: (if (0 <? List.length (ssmBatchOf managed region profile (AccountID client)))%nat
               then [saveSSM w (ssmBatchOf managed region profile (AccountID client))]
               else [])) /\
    (forall c d,
       (SaveOrUpdateBatch (call_faults c) (call_now c) (call_batch c) d = (fst (exec c d), nil)
        /\ snd (exec c d) = []) \/
       (exists m,
          SaveOrUpdateBatch (call_faults c) (call_now c) (call_batch c) d = (d, Some m) /\
          exec c d = (d, [{| level := WarnLevel; message := call_warning c; fields := [] |}]))) /\
    (snd (discoverInstancesForProfileRegion w profile region db) = nil <->
     exists client instances managed,
       GetClient w = Ok client /\ describeInstances w = Ok instances /\
       describeSSMManagedInstances w = Ok managed).
Proof.
  intros w profile region db.
  split; [apply discoverInstancesForProfileRegion_calls|].
  split; [|split; [apply exec_cases|]].
  - intros client instances managed H1 H2 H3. unfold unitCalls. rewrite H1, H2, H3.
    destruct (0 <? _)%nat; reflexivity.
  - rewrite discoverInstancesForProfileRegion_calls. cbn [snd]. apply unitCalls_nil.
Qed.

Lemma unit_writes_in_two_transactions_and_store_failures_are_logged_witness :
  fst (unitCalls (world_both store_down) "dev" "eu-west-1")
  = [ saveEC2 (world_both store_down)
        (ec2BatchOf [ec2_abc] "eu-west-1" "dev" "123456789012");
      saveSSM (world_both store_down)
        (ssmBatchOf [agent "i-abc" "web" "Online"; agent "mi-xyz" "db01" "Online"]
           "eu-west-1" "dev" "123456789012") ].
Proof.
  exact (proj1 (proj2 (unit_writes_in_two_transactions_and_store_failures_are_logged
                         (world_both store_down) "dev" "eu-west-1" empty_db))
           _ _ _ eq_refl eq_refl eq_refl).
Defined.

(** C3, as stated, fails: the store refuses the second write of a unit;
    the unit logs a warning and returns [nil], and the store is left with
    the compute-source record and without the agent-source one. *)
Lemma unit_store_failure_is_not_fatal :
  let out := discoverInstancesForProfileRegion (world_both store_down) "dev" "eu-west-1" empty_db in
  snd out = nil /\
  snd (fst out)
  = [{| level := WarnLevel; message := "Failed to save SSM instances batch"; fields := [] |}] /\
  map InstanceID (instances (fst (fst out))) = ["i-abc"] /\
  map InstanceID
      (ssmBatchOf [agent "i-abc" "web" "Online"; agent "mi-xyz" "db01" "Online"]
         "eu-west-1" "dev" "123456789012") = ["mi-xyz"].
Proof.
  repeat split; reflexivity.
Qed.

(** ** De-duplication of the two sources *)

Lemma isManaged_spec (id : string) :
  isManaged id = true <-> exists rest, id = "mi-" ++ rest.
Proof.
  unfold isManaged. split.
  - intros H. apply andb_true_iff in H. destruct H as [_ H].
    apply String.eqb_eq in H.
    destruct id as [|a [|b [|c rest]]]; simpl in H; try discriminate.
    destruct rest; simpl in H; inversion H; subst; eexists; reflexivity.
  - intros [rest ->]. simpl. destruct rest; reflexivity.
Qed.

Lemma isManaged_compute_prefix (rest : string) : isManaged ("i-" ++ rest) = false.
Proof.
  unfold isManaged. destruct rest as [|c rest]; [reflexivity|].
  simpl. destruct rest; reflexivity.
Qed.

Lemma ssmBatchOf_In (managed : list ssmtypes.InstanceInformation)
      (region profile accountID : string) (r : Instance) :
  In r (ssmBatchOf managed region profile accountID) <->
  exists mi id,
    In mi managed /\ ssmtypes.InstanceId mi = Some id /\ isManaged id = true /\
    r = ConvertSSMManagedInstance id mi region profile accountID.
Proof.
  induction managed as [|mi ms IH]; simpl.
  - split; [contradiction|]. intros (? & ? & [] & _).
  - destruct (ssmtypes.InstanceId mi) as [id|] eqn:E.
    + destruct (isManaged id) eqn:M.
      * simpl. rewrite IH. split.
        -- intros [<-|(mi' & id' & Hin & H)].
           ++ exists mi, id. auto.
           ++ exists mi', id'. tauto.
        -- intros (mi' & id' & [<-|Hin] & Hid & Hm & ->).
           ++ left. congruence.
           ++ right. exists mi', id'. auto.
      * rewrite IH. split.
        -- intros (mi' & id' & Hin & H). exists mi', id'. tauto.
        -- intros (mi' & id' & [<-|Hin] & Hid & Hm & ->).
           ++ congruence.
           ++ exists mi', id'. auto.
    + rewrite IH. split.
      * intros (mi' & id' & Hin & H). exists mi', id'. tauto.
      * intros (mi' & id' & [<-|Hin] & Hid & Hm & ->).
        -- congruence.
        -- exists mi', id'. auto.
Qed.

Lemma key_ConvertEC2Instance (e : ectype.Instance) (region profile accountID : string) :
  key (ConvertEC2Instance e region profile accountID) = (ectype.InstanceId e, region, profile).
Proof.
  unfold ConvertEC2Instance.
  destruct (ectype.Tags e) as [ts|]; [destruct (convertTags ts "" [])|]; reflexivity.
Qed.

Lemma keyed_of_key (i : Instance) (iid region profile : string) :
  key i = (iid, region, profile) ->
  iid <> "" -> region <> "" -> profile <> "" -> keyed i.
Proof.
  unfold key, keyed. intros H. inversion H; subst. auto.
Qed.

Lemma isManaged_nonempty (id : string) : isManaged id = true -> id <> "".
Proof.
  intros H ->. discriminate.
Qed.

Lemma ec2BatchOf_keyed (instances : list ectype.Instance) (region profile accountID : string) :
  region <> "" -> profile <> "" ->
  Forall (fun e => ectype.InstanceId e <> "") instances ->
  Forall keyed (ec2BatchOf instances region profile accountID).
Proof.
  intros Hr Hp Hall. unfold ec2BatchOf. apply Forall_forall. intros i Hi.
  apply in_map_iff in Hi. destruct Hi as (e & <- & He).
  apply (keyed_of_key _ _ _ _ (key_ConvertEC2Instance e region profile accountID));
    auto.
  rewrite Forall_forall in Hall. now apply Hall.
Qed.

Lemma ssmBatchOf_keyed (managed : list ssmtypes.InstanceInformation)
      (region profile accountID : string) :
  region <> "" -> profile <> "" ->
  Forall keyed (ssmBatchOf managed region profile accountID).
Proof.
  intros Hr Hp. apply Forall_forall. intros i Hi.
  apply ssmBatchOf_In in Hi. destruct Hi as (mi & id & _ & _ & Hm & ->).
  unfold keyed. simpl. split; [now apply isManaged_nonempty|auto].
Qed.

(** A batch adds rows only under the keys of its records. *)
Lemma upsertAll_keys_sound (flt : Faults) (now : Time) (l : list Instance) (db db' : DB)
      (k : string * string * string) :
  Forall keyed l ->
  upsertAll flt now l db = Ok db' ->
  In k (map key (instances db')) ->
  In k (map key (instances db)) \/ In k (map key l).
Proof.
  revert db. induction l as [|i l IH]; simpl; intros db Hk H Hin.
  - inversion H; subst. now left.
  - destruct (upsertOne flt now i db) as [db1|] eqn:E; [|discriminate].
    inversion Hk as [|? ? Hi Hl]; subst.
    destruct (IH db1 Hl H Hin) as [H1|H1]; [|tauto].
    rewrite (upsertOne_keys _ _ _ _ _ Hi E) in H1.
    destruct (existsb _ _); [now left|].
    apply in_app_iff in H1. simpl in H1. tauto.
Qed.

Lemma count_absent (rows : list Instance) (k : string * string * string) :
  ~ In k (map key rows) -> List.length (filter (keyb k) rows) = 0%nat.
Proof.
  intros H. rewrite filter_none; [reflexivity|].
  apply Forall_forall. intros r Hr. apply keyb_false. intros E.
  apply H. rewrite <- E. now apply in_map.
Qed.

Lemma exec_ok (c : Call) (db db' : DB) :
  exec c db = (db', []) ->
  upsertAll (call_faults c) (call_now c) (call_batch c) db = Ok db'.
Proof.
  intros H. destruct (exec_cases c db) as [[Hs _]|(m & _ & Hf)].
  - rewrite H in Hs. simpl in Hs. now apply SaveOrUpdateBatch_ok in Hs.
  - rewrite H in Hf. discriminate.
Qed.

(** C7.  Let a unit complete without a warning on a store in which the
    unique index holds.  The batch written from the agent source consists
    of the conversions of exactly the entries whose identifier starts with
    ["mi-"]; an entry whose identifier starts with ["i-"] is not in it.
    Afterwards the store holds exactly one row for every instance the
    compute source reported, whatever the agent source reported about it,
    exactly one row for every ["mi-"] entry of the agent source, and no row
    for an agent entry without the prefix that neither the compute source
    nor the store knew. *)
Theorem unit_writes_only_managed_agent_entries :
  forall (w : World) (profile region : string) (db db' : DB),
    region <> "" -> profile <> "" ->
    unique_keys db ->
    discoverInstancesForProfileRegion w profile region db = (db', [], nil) ->
    exists client ec2s managed,
      GetClient w = Ok client /\
      describeInstances w = Ok ec2s /\
      describeSSMManagedInstances w = Ok managed /\
      (forall r,
         In r (ssmBatchOf managed region profile (AccountID client)) <->
         exists mi rest,
           In mi managed /\ ssmtypes.InstanceId mi = Some ("mi-" ++ rest) /\
           r = ConvertSSMManagedInstance ("mi-" ++ rest) mi region profile (AccountID client)) /\
      (forall rest,
         ~ In ("i-" ++ rest)
              (map InstanceID (ssmBatchOf managed region profile (AccountID client)))) /\
      (Forall (fun e => ectype.InstanceId e <> "") ec2s ->
       (forall e, In e ec2s ->
                  stored (ectype.InstanceId e, region, profile) db' = 1%nat) /\
       (forall mi rest,
          In mi managed -> ssmtypes.InstanceId mi = Some ("mi-" ++ rest) ->
          stored ("mi-" ++ rest, region, profile) db' = 1%nat) /\
       (forall mi id,
          In mi managed -> ssmtypes.InstanceId mi = Some id -> isManaged id = false ->
          ~ In (id, region, profile) (map key (instances db)) ->
          ~ In id (map ectype.InstanceId ec2s) ->
          stored (id, region, profile) db' = 0%nat)).
Proof.
  intros w profile region db db' Hr Hp Hu H.
  unfold discoverInstancesForProfileRegion in H.
  destruct (GetClient w) as [client|]; [|discriminate].
  destruct (describeInstances w) as [ec2s|]; [|discriminate].
  destruct (exec (saveEC2 w (ec2BatchOf ec2s region profile (AccountID client))) db)
    as [db1 log1] eqn:E1.
  destruct (describeSSMManagedInstances w) as [managed|]; [|discriminate].
  exists client, ec2s, managed.
  split; [reflexivity|]. split; [reflexivity|]. split; [reflexivity|].
  set (acct := AccountID client) in *.
  split; [|split].
  - intros r. rewrite ssmBatchOf_In. split.
    + intros (mi & id & Hin & Hid & Hm & ->).
      apply isManaged_spec in Hm. destruct Hm as [rest ->]. exists mi, rest. auto.
    + intros (mi & rest & Hin & Hid & ->). exists mi, ("mi-" ++ rest).
      repeat split; auto. apply isManaged_spec. now exists rest.
  - intros rest Hin. apply in_map_iff in Hin. destruct Hin as (r & Hid & Hin).
    apply ssmBatchOf_In in Hin. destruct Hin as (mi & id & _ & _ & Hm & ->).
    cbn [InstanceID ConvertSSMManagedInstance] in Hid. subst id.
    now rewrite isManaged_compute_prefix in Hm.
  - intros Hids.
    pose proof (ec2BatchOf_keyed ec2s region profile acct Hr Hp Hids) as Hk1.
    pose proof (ssmBatchOf_keyed managed region profile acct Hr Hp) as Hk2.
    (* the two writes *)
    assert (Hw : exists l2,
               upsertAll (faultsEC2 w) (nowEC2 w)
                 (ec2BatchOf ec2s region profile acct) db = Ok db1 /\
               upsertAll (faultsSSM w) (nowSSM w) l2 db1 = Ok db' /\
               (l2 = ssmBatchOf managed region profile acct)).
    { destruct (0 <? List.length (ssmBatchOf managed region profile acct))%nat eqn:L.
      - destruct (exec (saveSSM w (ssmBatchOf managed region profile acct)) db1)
          as [db2 log2] eqn:E2.
        inversion H; subst db2.
        destruct log1; [|discriminate]. destruct log2; [|discriminate].
        exists (ssmBatchOf managed region profile acct).
        split; [exact (exec_ok _ _ _ E1)|]. split; [exact (exec_ok _ _ _ E2)|reflexivity].
      - inversion H; subst.
        exists (ssmBatchOf managed region profile acct).
        split; [exact (exec_ok _ _ _ E1)|]. split; [|reflexivity].
        destruct (ssmBatchOf managed region profile acct); [reflexivity|discriminate]. }
    destruct Hw as (l2 & W1 & W2 & ->).
    assert (Hu1 : unique_keys db1) by exact (upsertAll_unique _ _ _ _ _ Hk1 Hu W1).
    assert (Hu' : unique_keys db') by exact (upsertAll_unique _ _ _ _ _ Hk2 Hu1 W2).
    split; [|split].
    + intros e He. apply count_unique; [exact Hu'|].
      apply (upsertAll_keys_present _ _ _ _ _ _ Hk2 W2). left.
      apply (upsertAll_keys_present _ _ _ _ _ _ Hk1 W1). right.
      rewrite <- (key_ConvertEC2Instance e region profile acct).
      apply in_map. unfold ec2BatchOf. apply in_map_iff. exists e. split; [reflexivity|exact He].
    + intros mi rest Hin Hid. apply count_unique; [exact Hu'|].
      apply (upsertAll_keys_present _ _ _ _ _ _ Hk2 W2). right.
      change ("mi-" ++ rest, region, profile)
        with (key (ConvertSSMManagedInstance ("mi-" ++ rest) mi region profile acct)).
      apply in_map. apply ssmBatchOf_In. exists mi, ("mi-" ++ rest).
      repeat split; auto. apply isManaged_spec. now exists rest.
    + intros mi id Hin Hid Hm Hdb Hec2. apply count_absent. intros Hk.
      destruct (upsertAll_keys_sound _ _ _ _ _ _ Hk2 W2 Hk) as [Hk'|Hk'].
      * destruct (upsertAll_keys_sound _ _ _ _ _ _ Hk1 W1 Hk') as [Hk''|Hk''];
          [contradiction|].
        apply in_map_iff in Hk''. destruct Hk'' as (r & Hkr & Hr').
        unfold ec2BatchOf in Hr'. apply in_map_iff in Hr'. destruct Hr' as (e & <- & He).
        rewrite key_ConvertEC2Instance in Hkr. inversion Hkr; subst.
        apply Hec2. now apply in_map.
      * apply in_map_iff in Hk'. destruct Hk' as (r & Hkr & Hr').
        apply ssmBatchOf_In in Hr'. destruct Hr' as (mi' & id' & _ & _ & Hm' & ->).
        simpl in Hkr. inversion Hkr; subst. congruence.
Qed.

Lemma unit_writes_only_managed_agent_entries_witness :
  let out := discoverInstancesForProfileRegion (world_both no_faults) "dev" "eu-west-1" empty_db in
  "eu-west-1" <> "" /\ "dev" <> "" /\ unique_keys empty_db /\
  out = (fst (fst out), [], nil) /\
  stored ("i-abc", "eu-west-1", "dev") (fst (fst out)) = 1%nat /\
  stored ("mi-xyz", "eu-west-1", "dev") (fst (fst out)) = 1%nat /\
  map InstanceID (instances (fst (fst out))) = ["i-abc"; "mi-xyz"].
Proof.
  intros out.
  assert (Hr : "eu-west-1" <> "") by discriminate.
  assert (Hp : "dev" <> "") by discriminate.
  assert (Hu : unique_keys empty_db) by constructor.
  assert (Ho : out = (fst (fst out), [], nil)) by reflexivity.
  split; [exact Hr|]. split; [exact Hp|]. split; [exact Hu|]. split; [exact Ho|].
  destruct (unit_writes_only_managed_agent_entries
              (world_both no_faults) "dev" "eu-west-1" empty_db (fst (fst out)) Hr Hp Hu Ho)
    as (client & ec2s & managed & _ & He & Hm & _ & _ & Hcount).
  injection He as <-. injection Hm as <-.
  destruct Hcount as (H1 & H2 & _).
  { repeat constructor; discriminate. }
  split; [exact (H1 ec2_abc (or_introl eq_refl))|].
  split; [|reflexivity].
  exact (H2 (agent "mi-xyz" "db01" "Online") "xyz" (or_intror (or_introl eq_refl)) eq_refl).
Defined.

(** ** The discovery run *)

Lemma errorsOf_length (gs : list Goroutine) :
  List.length (errorsOf gs) = List.length (filter failed gs).
Proof.
  unfold errorsOf. induction gs as [|g gs IH]; simpl; [reflexivity|].
  unfold failed at 1. destruct (snd (goroutine g)); simpl; now rewrite IH.
Qed.

(** A goroutine succeeds exactly when it gets its slot and its three
    remote calls succeed. *)
Lemma failed_false (g : Goroutine) :
  failed g = false <->
  Acquire (g_world g) = nil /\
  exists client ec2s managed,
    GetClient (g_world g) = Ok client /\
    describeInstances (g_world g) = Ok ec2s /\
    describeSSMManagedInstances (g_world g) = Ok managed.
Proof.
  unfold failed, goroutine. destruct (Acquire (g_world g)) as [e|].
  - simpl. unfold nil. split; [discriminate|]. intros [H _]. discriminate H.
  - rewrite <- (unitCalls_nil (g_world g) (g_profile g) (g_region g)). unfold nil.
    destruct (snd (unitCalls (g_world g) (g_profile g) (g_region g))).
    + split; [discriminate|]. intros [_ H]. discriminate H.
    + split; auto.
Qed.

Lemma Interleaved_cons_nil (pending : list (list Call)) (db db' : DB) :
  Interleaved pending db db' -> Interleaved ([] :: pending) db db'.
Proof.
  induction 1 as [p db Hall|before c cs after db db' H IH].
  - constructor. constructor; [reflexivity|exact Hall].
  - exact (Interleaved_step ([] :: before) c cs after db db' IH).
Qed.

(** There is always an interleaving: the sequences one after the other. *)
Lemma Interleaved_sequential (pending : list (list Call)) (db : DB) :
  exists db', Interleaved pending db db'.
Proof.
  revert db. induction pending as [|cs pending IH]; intros db.
  - exists db. constructor. constructor.
  - revert db. induction cs as [|c cs IHcs]; intros db.
    + destruct (IH db) as [db' H]. exists db'. now apply Interleaved_cons_nil.
    + destruct (IHcs (fst (exec c db))) as [db' H]. exists db'.
      exact (Interleaved_step [] c cs pending db db' H).
Qed.
















(** ** The semaphore *)

Lemma nth_error_setPc_same (l : list Pc) (i : nat) (old pc : Pc) :
  nth_error l i = Some old -> nth_error (setPc i pc l) i = Some pc.
Proof.
  revert i. induction l as [|x l IH]; intros [|i]; simpl; try discriminate.
  - reflexivity.
  - apply IH.
Qed.

Lemma nth_error_setPc_other (l : list Pc) (i j : nat) (pc : Pc) :
  i <> j -> nth_error (setPc i pc l) j = nth_error l j.
Proof.
  revert i j. induction l as [|x l IH]; intros [|i] [|j] H; simpl; try reflexivity.
  - contradiction.
  - apply IH. congruence.
Qed.

Lemma count_running_setPc (l : list Pc) (i : nat) (old pc : Pc) :
  nth_error l i = Some old ->
  (List.length (filter isRunning (setPc i pc l)) + (if isRunning old then 1 else 0)
   = List.length (filter isRunning l) + (if isRunning pc then 1 else 0))%nat.
Proof.
  revert i. induction l as [|x l IH]; intros [|i]; cbn [nth_error setPc filter];
    try discriminate.
  - intros H. inversion H; subst.
    destruct (isRunning old), (isRunning pc); cbn [List.length]; lia.
  - intros H. specialize (IH i H). destruct (isRunning x); cbn [List.length]; lia.
Qed.

Lemma running_setPc (l : list Pc) (i : nat) (old pc : Pc) :
  nth_error l i = Some old ->
  running (setPc i pc l) + (if isRunning old then 1 else 0)
  = running l + (if isRunning pc then 1 else 0).
Proof.
  intros H. unfold running. pose proof (count_running_setPc l i old pc H) as E.
  destruct (isRunning old), (isRunning pc); lia.
Qed.

Lemma running_repeat_Waiting (n : nat) : running (repeat Waiting n) = 0.
Proof.
  unfold running. induction n as [|n IH]; simpl; [reflexivity|exact IH].
Qed.

(** The invariant of the semaphore: the weight held is the number of units
    in flight, and it is within the size of the semaphore. *)
Lemma semaphore_invariant (sem : Weighted) (n : nat) (s : Sched) :
  cur sem = 0 ->
  reachable (started sem n) s ->
  size (semaphore s) = size sem /\
  cur (semaphore s) = inFlight s /\
  (inFlight s = 0 \/ inFlight s <= size sem).
Proof.
  intros H0. induction 1 as [|s s' Hr IH Hstep].
  - unfold inFlight. cbn [started pcs semaphore].
    pose proof (running_repeat_Waiting n) as E. unfold running in E. rewrite E. auto.
  - destruct IH as (Hsize & Hcur & Hbound).
    unfold inFlight in *.
    destruct Hstep as [s|s i Hi Hfree|s i Hi Hdone|s i e Hi];
      cbn [pcs semaphore cur size] in *.
    + auto.
    + pose proof (running_setPc (pcs s) i Waiting Running Hi) as E.
      unfold running in E. cbn [isRunning] in E.
      split; [exact Hsize|]. split; [lia|]. right. lia.
    + pose proof (running_setPc (pcs s) i Waiting (Returned acquireError) Hi) as E.
      unfold running in E. cbn [isRunning] in E.
      split; [exact Hsize|]. split; [lia|]. lia.
    + pose proof (running_setPc (pcs s) i Running (Returned e) Hi) as E.
      unfold running in E. cbn [isRunning] in E.
      split; [exact Hsize|]. split; [lia|]. lia.
Qed.

(** A unit leaves [Acquire] with an error only when the context is done;
    the step touches neither the semaphore nor any other unit. *)
Lemma cancelled_while_waiting (s s' : Sched) (i : nat) (e : error) :
  step s s' ->
  nth_error (pcs s) i = Some Waiting ->
  nth_error (pcs s') i = Some (Returned e) ->
  ctxDone s = true /\
  e = acquireError /\
  errorChan s' = (errorChan s ++ ["failed to acquire semaphore"])%list /\
  semaphore s' = semaphore s /\
  (forall j, nth_error (pcs s) j = Some Running -> nth_error (pcs s') j = Some Running) /\
  inFlight s' = inFlight s.
Proof.
  intros Hstep Hw Hr.
  destruct Hstep as [s|s i0 Hi Hfree|s i0 Hi Hdone|s i0 e0 Hi]; simpl in *.
  - congruence.
  - destruct (Nat.eq_dec i0 i) as [->|Hne].
    + rewrite (nth_error_setPc_same _ _ _ Running Hi) in Hr. discriminate.
    + rewrite (nth_error_setPc_other _ _ _ Running Hne) in Hr. congruence.
  - destruct (Nat.eq_dec i0 i) as [->|Hne].
    + rewrite (nth_error_setPc_same _ _ _ (Returned acquireError) Hi) in Hr.
      inversion Hr; subst e.
      split; [exact Hdone|]. split; [reflexivity|]. split; [reflexivity|].
      split; [reflexivity|]. split.
      * intros j Hj. rewrite nth_error_setPc_other; [exact Hj|]. congruence.
      * unfold inFlight. cbn [pcs].
        pose proof (running_setPc (pcs s) i Waiting (Returned acquireError) Hi) as E.
        unfold running in E. cbn [isRunning] in E. lia.
    + rewrite (nth_error_setPc_other _ _ _ (Returned acquireError) Hne) in Hr. congruence.
  - destruct (Nat.eq_dec i0 i) as [->|Hne].
    + congruence.
    + rewrite (nth_error_setPc_other _ _ _ (Returned e0) Hne) in Hr. congruence.
Qed.

Lemma length_setPc (l : list Pc) (i : nat) (pc : Pc) :
  List.length (setPc i pc l) = List.length l.
Proof.
  revert i. induction l as [|x l IH]; intros [|i]; cbn [setPc List.length]; auto.
Qed.

Lemma length_pcs_step (s s' : Sched) :
  step s s' -> List.length (pcs s') = List.length (pcs s).
Proof.
  intros St. destruct St; cbn [pcs]; rewrite ?length_setPc; reflexivity.
Qed.

(** A unit that waits while the context is done can give up, and giving
    up is as [cancelled_while_waiting] has it. *)
Lemma waiting_under_cancellation_fails (s : Sched) (i : nat) :
  nth_error (pcs s) i = Some Waiting ->
  ctxDone s = true ->
  exists s',
    step s s' /\
    nth_error (pcs s') i = Some (Returned acquireError) /\
    errorChan s' = (errorChan s ++ ["failed to acquire semaphore"])%list /\
    semaphore s' = semaphore s /\
    (forall j, nth_error (pcs s) j = Some Running -> nth_error (pcs s') j = Some Running) /\
    inFlight s' = inFlight s.
Proof.
  intros Hw Hdone.
  pose proof (step_acquire_cancelled s i Hw Hdone) as St.
  assert (Hr : nth_error
                 (pcs {| semaphore := semaphore s; ctxDone := ctxDone s;
                         pcs := setPc i (Returned acquireError) (pcs s);
                         errorChan := send acquireError (errorChan s) |}) i
               = Some (Returned acquireError))
    by exact (nth_error_setPc_same (pcs s) i Waiting (Returned acquireError) Hw).
  eexists. split; [exact St|]. split; [exact Hr|].
  destruct (cancelled_while_waiting _ _ i acquireError St Hw Hr) as (_ & _ & A & B & C & D).
  repeat split; assumption.
Qed.

(** A unit that waits while no slot is free stays waiting, whatever the
    others do, unless the context is done and it gives up. *)
Lemma blocked_waits_or_fails (s s' : Sched) (i : nat) :
  step s s' ->
  nth_error (pcs s) i = Some Waiting ->
  size (semaphore s) - cur (semaphore s) < 1 ->
  nth_error (pcs s') i = Some Waiting \/
  (ctxDone s = true /\ nth_error (pcs s') i = Some (Returned acquireError)).
Proof.
  intros Hstep Hw Hfull.
  destruct Hstep as [s|s i0 Hi Hfree|s i0 Hi Hdone|s i0 e0 Hi]; cbn [pcs ctxDone].
  - now left.
  - exfalso. lia.
  - destruct (Nat.eq_dec i0 i) as [->|Hne].
    + right. split; [exact Hdone|].
      exact (nth_error_setPc_same _ _ _ _ Hi).
    + left. now rewrite (nth_error_setPc_other _ _ _ _ Hne).
  - destruct (Nat.eq_dec i0 i) as [->|Hne]; [congruence|].
    left. now rewrite (nth_error_setPc_other _ _ _ _ Hne).
Qed.

(** C9.  With a ceiling that is not negative, in every state a run of
    [DiscoverInstances] can reach, the number of units in flight is at most
    the configured ceiling, which is 5 when the configuration does not set
    it; the one semaphore of the service admits all units, whatever their
    profile.  A unit that is waiting for a slot returns an error only once
    the context is done; its error is the acquisition error, it is sent on
    the error channel, and the step changes neither the semaphore nor the
    state of any running unit.  Once the context is done a waiting unit
    can take that step; and a unit that waits while no slot is free takes
    no other: it waits on or fails so. *)
Theorem in_flight_units_never_exceed_the_ceiling :
  forall (settings : config.Settings) (n : nat) (s : Sched),
    let cfg := config.setDefaults settings in
    0 <= config.MaxConcurrentSessions cfg ->
    reachable (started (NewDiscoveryService cfg) n) s ->
    inFlight s <= config.MaxConcurrentSessions cfg /\
    (config.aws_max_concurrent_sessions settings = None ->
     config.MaxConcurrentSessions cfg = 5) /\
    (forall s' i e,
       step s s' ->
       nth_error (pcs s) i = Some Waiting ->
       nth_error (pcs s') i = Some (Returned e) ->
       ctxDone s = true /\
       e = acquireError /\
       errorChan s' = (errorChan s ++ ["failed to acquire semaphore"])%list /\
       semaphore s' = semaphore s /\
       (forall j, nth_error (pcs s) j = Some Running -> nth_error (pcs s') j = Some Running) /\
       inFlight s' = inFlight s) /\
    (forall i,
       nth_error (pcs s) i = Some Waiting ->
       ctxDone s = true ->
       exists s',
         step s s' /\
         reachable (started (NewDiscoveryService cfg) n) s' /\
         nth_error (pcs s') i = Some (Returned acquireError) /\
         errorChan s' = (errorChan s ++ ["failed to acquire semaphore"])%list /\
         semaphore s' = semaphore s /\
         (forall j, nth_error (pcs s) j = Some Running ->
                    nth_error (pcs s') j = Some Running) /\
         inFlight s' = inFlight s) /\
    (forall s' i,
       step s s' ->
       nth_error (pcs s) i = Some Waiting ->
       size (semaphore s) - cur (semaphore s) < 1 ->
       nth_error (pcs s') i = Some Waiting \/
       (ctxDone s = true /\ nth_error (pcs s') i = Some (Returned acquireError))).
Proof.
  intros settings n s cfg Hpos Hr.
  destruct (semaphore_invariant (NewDiscoveryService cfg) n s eq_refl Hr) as (_ & _ & Hb).
  unfold NewDiscoveryService, NewWeighted in Hb. cbn [size] in Hb. split; [lia|].
  split; [|split; [|split]].
  - intros Hnone. unfold cfg, config.setDefaults. simpl. now rewrite Hnone.
  - intros s' i e. apply cancelled_while_waiting.
  - intros i Hw Hdone.
    destruct (waiting_under_cancellation_fails s i Hw Hdone) as (s' & St & A).
    exists s'. split; [exact St|]. split; [|exact A].
    exact (reachable_step _ _ _ Hr St).
  - intros s' i. apply blocked_waits_or_fails.
Qed.

(** A ceiling of one and two units: the first takes the slot, the caller
    cancels, and the second, which was blocked, fails with the error of
    the semaphore while the first runs on. *)
Lemma in_flight_units_never_exceed_the_ceiling_witness :
  0 <= config.MaxConcurrentSessions (config.setDefaults settings_one) /\
  exists s s',
    reachable (started (NewDiscoveryService (config.setDefaults settings_one)) 2) s /\
    inFlight s = 1 /\
    inFlight s <= config.MaxConcurrentSessions (config.setDefaults settings_one) /\
    pcs s = [Running; Waiting] /\
    size (semaphore s) - cur (semaphore s) < 1 /\
    ctxDone s = true /\
    step s s' /\
    pcs s' = [Running; Returned acquireError] /\
    errorChan s' = ["failed to acquire semaphore"] /\
    inFlight s' = 1.
Proof.
  assert (Hpos : 0 <= config.MaxConcurrentSessions (config.setDefaults settings_one))
    by (simpl; lia).
  split; [exact Hpos|].
  pose (s1 := {| semaphore := {| size := 1; cur := 0 + 1 |};
                 ctxDone := false;
                 pcs := [Running; Waiting];
                 errorChan := [] |}).
  pose (s2 := {| semaphore := semaphore s1; ctxDone := true;
                 pcs := pcs s1; errorChan := errorChan s1 |}).
  assert (Hstep : step (started (NewDiscoveryService (config.setDefaults settings_one)) 2) s1).
  { apply (step_acquire (started (NewDiscoveryService (config.setDefaults settings_one)) 2) 0).
    - reflexivity.
    - simpl. lia. }
  pose proof (reachable_step _ _ _ (reachable_start _) Hstep) as Hr1.
  pose proof (reachable_step _ _ _ Hr1 (step_cancel s1)) as Hr. fold s2 in Hr.
  destruct (in_flight_units_never_exceed_the_ceiling settings_one 2 s2 Hpos Hr)
    as (Hle & _ & _ & Hfail & Hblocked).
  destruct (Hfail 1%nat eq_refl eq_refl) as (s' & St & _ & Hpc & Hch & _ & Hrun & Hin).
  exists s2, s'. split; [exact Hr|]. split; [reflexivity|]. split; [exact Hle|].
  split; [reflexivity|]. split; [cbn; lia|]. split; [reflexivity|]. split; [exact St|].
  assert (Hlen : List.length (pcs s') = 2%nat) by exact (length_pcs_step _ _ St).
  specialize (Hrun 0%nat eq_refl).
  split.
  { destruct (pcs s') as [|p0 [|p1 [|p2 l]]]; try discriminate Hlen.
    cbn in Hrun, Hpc. congruence. }
  split; [exact Hch|exact Hin].
Defined.

(* ================================================================== *)
(** * More of the repository, of discovery and of what is built on them *)

(** ** List: every matching row once, in order *)

Lemma string_compare_refl (s : string) : String.compare s s = Eq.
Proof.
  induction s as [|c s IH]; simpl; [reflexivity|].
  unfold Ascii.compare. now rewrite N.compare_refl.
Qed.












(** ** List: the name filter *)

Lemma like_star (pat s : list ascii) :
  like ("%"%char :: pat) s
  = (like pat s || match s with [] => false | _ :: s' => like ("%"%char :: pat) s' end)%bool.
Proof.
  destruct s; reflexivity.
Qed.

Lemma like_char (p : ascii) (pat s : list ascii) :
  p <> "%"%char ->
  like (p :: pat) s
  = match s with
    | [] => false
    | c :: s' => (((p =? "_")%char || eqb_ci p c) && like pat s')%bool
    end.
Proof.
  intros Hp. cbn [like]. destruct (Ascii.eqb_spec p "%"); [contradiction|]. reflexivity.
Qed.

Lemma like_star_all (s : list ascii) : like ["%"%char] s = true.
Proof.
  induction s as [|c s IH]; rewrite like_star; [reflexivity|].
  rewrite IH. apply orb_true_r.
Qed.

Lemma like_star_skip (pat pre s : list ascii) :
  like ("%"%char :: pat) s = true -> like ("%"%char :: pat) (pre ++ s) = true.
Proof.
  intros H. induction pre as [|c pre IH]; [exact H|].
  cbn [app]. rewrite like_star, IH. apply orb_true_r.
Qed.

Lemma like_fold_prefix (n pat mid rest : list ascii) :
  map lower_ascii mid = map lower_ascii n ->
  like pat rest = true ->
  like (n ++ pat) (mid ++ rest) = true.
Proof.
  revert mid. induction n as [|p n IH]; intros [|c mid] E Hr; try discriminate; [exact Hr|].
  cbn [map] in E. injection E as Ec E. cbn [app].
  destruct (Ascii.eqb_spec p "%") as [->|Hp].
  - assert (S : like ("%"%char :: n ++ pat) (mid ++ rest) = true)
      by (rewrite like_star, (IH mid E Hr); reflexivity).
    rewrite like_star, S. apply orb_true_r.
  - rewrite (like_char p _ _ Hp), (IH mid E Hr).
    unfold eqb_ci. rewrite Ec, Ascii.eqb_refl, orb_true_r. reflexivity.
Qed.

Lemma like_literal_prefix (n s : list ascii) :
  (forall c, In c n -> c <> "%"%char /\ c <> "_"%char) ->
  like (n ++ ["%"%char]) s = true ->
  exists mid post, s = (mid ++ post)%list /\ map lower_ascii mid = map lower_ascii n.
Proof.
  revert s. induction n as [|p n IH]; intros s Hn H.
  - exists [], s. split; reflexivity.
  - destruct (Hn p (or_introl eq_refl)) as [Hp Hu].
    cbn [app] in H. rewrite (like_char p _ _ Hp) in H.
    destruct s as [|c s]; [discriminate|].
    apply andb_true_iff in H. destruct H as [Hc H].
    destruct (Ascii.eqb_spec p "_") as [->|_]; [contradiction|]. cbn [orb] in Hc.
    unfold eqb_ci in Hc. apply Ascii.eqb_eq in Hc.
    destruct (IH s (fun c' Hc' => Hn c' (or_intror Hc')) H) as (mid & post & -> & E).
    exists (c :: mid), post. split; [reflexivity|]. cbn [map]. now rewrite Hc, E.
Qed.

Lemma like_literal_inside (n s : list ascii) :
  (forall c, In c n -> c <> "%"%char /\ c <> "_"%char) ->
  like ("%"%char :: n ++ ["%"%char]) s = true ->
  exists pre mid post,
    s = (pre ++ mid ++ post)%list /\ map lower_ascii mid = map lower_ascii n.
Proof.
  intros Hn. induction s as [|c s IH]; rewrite like_star; intros H;
    apply orb_true_iff in H; destruct H as [H|H]; try discriminate.
  - destruct (like_literal_prefix n [] Hn H) as (mid & post & E & Em).
    exists [], mid, post. split; [exact E|exact Em].
  - destruct (like_literal_prefix n (c :: s) Hn H) as (mid & post & E & Em).
    exists [], mid, post. split; [exact E|exact Em].
  - destruct (IH H) as (pre & mid & post & -> & Em).
    exists (c :: pre), mid, post. split; [reflexivity|exact Em].
Qed.

Lemma list_ascii_of_string_app (a b : string) :
  list_ascii_of_string (a ++ b) = (list_ascii_of_string a ++ list_ascii_of_string b)%list.
Proof.
  induction a as [|c a IH]; simpl; [reflexivity|]. now rewrite IH.
Qed.

Lemma list_ascii_of_string_lower (a : string) :
  list_ascii_of_string (lower a) = map lower_ascii (list_ascii_of_string a).
Proof.
  induction a as [|c a IH]; simpl; [reflexivity|]. now rewrite IH.
Qed.

Lemma lower_string_of_list_ascii (l : list ascii) :
  lower (string_of_list_ascii l) = string_of_list_ascii (map lower_ascii l).
Proof.
  induction l as [|c l IH]; simpl; [reflexivity|]. now rewrite IH.
Qed.

Lemma string_of_list_ascii_app (a b : list ascii) :
  string_of_list_ascii (a ++ b) = string_of_list_ascii a ++ string_of_list_ascii b.
Proof.
  induction a as [|c a IH]; simpl; [reflexivity|]. now rewrite IH.
Qed.

(** X2.  The name filter of [List] is containment up to ASCII case: a
    row whose name contains the filter is always listed, and when the
    filter has neither [%] nor [_] (which [LIKE] reads as wildcards, the
    filter not being escaped) no other row is. *)
Theorem List_name_filter_is_containment_up_to_case :
  forall (n : string) (row : Instance),
    (contains_fold (Name row) n -> listWhere (byName n) row = true) /\
    (literal n -> listWhere (byName n) row = true -> contains_fold (Name row) n).
Proof.
  intros n row. unfold listWhere, byName. cbn [FProfile FRegion FName FState andb].
  rewrite andb_true_r. unfold LIKE.
  change ("%" ++ n ++ "%") with (String "%" (n ++ "%")).
  cbn [list_ascii_of_string]. rewrite list_ascii_of_string_app.
  change (list_ascii_of_string "%") with ["%"%char]. split.
  - intros (pre & mid & post & -> & E).
    rewrite !list_ascii_of_string_app. apply like_star_skip.
    rewrite like_star. rewrite like_fold_prefix; [reflexivity| |apply like_star_all].
    now rewrite <- !list_ascii_of_string_lower, E.
  - intros Hn H.
    destruct (like_literal_inside _ _ Hn H) as (pre & mid & post & E & Em).
    exists (string_of_list_ascii pre), (string_of_list_ascii mid), (string_of_list_ascii post).
    split.
    + rewrite <- !string_of_list_ascii_app, <- E.
      now rewrite string_of_list_ascii_of_string.
    + rewrite lower_string_of_list_ascii, Em, <- list_ascii_of_string_lower.
      now rewrite string_of_list_ascii_of_string.
Qed.

Lemma List_name_filter_is_containment_up_to_case_witness :
  listWhere (byName "EB-0") (row 1 "i-0aa" "web-01" "eu-west-1" "dev" "running" 1 1) = true /\
  contains_fold "web-01" "EB-0".
Proof.
  assert (L : literal "EB-0").
  { intros c Hc. cbn in Hc.
    repeat (destruct Hc as [<-|Hc]; [split; discriminate|]). contradiction. }
  split; [reflexivity|].
  exact (proj2 (List_name_filter_is_containment_up_to_case "EB-0"
                  (row 1 "i-0aa" "web-01" "eu-west-1" "dev" "running" 1 1)) L eq_refl).
Defined.

(** ** FindByName: what it returns and when it fails *)

Lemma firstByName_found (flt : Faults) (name : string) (db : DB) :
  flt (SFirstByName name) = false ->
  firstByName flt name db = Ok None <-> named name db = [].
Proof.
  intros Hf. unfold firstByName, named. rewrite Hf.
  destruct (firstBy orderExpr _) as [r|] eqn:E; cbn [option_map].
  - split; [discriminate|]. intros H. rewrite H in E. discriminate.
  - apply firstBy_None in E. split; [now intros _|reflexivity].
Qed.

Lemma FindByName_sound (flt : Faults) (name : string) (db : DB) (i : Instance) :
  FindByName flt name db = Ok (Some i) ->
  exists r,
    In r (instances db) /\ i = preload db (scan r) /\
    (Name r = name \/
     (named name db = [] /\
      exists n, (0 < n)%nat /\ first_dot_at n name /\ Name r = substring 0 n name)).
Proof.
  intros H. unfold FindByName in H.
  destruct (firstByName flt name db) as [[a|]|m] eqn:E; cbv beta iota zeta in H;
    [| |discriminate].
  + inversion H; subst a; clear H.
    destruct (firstByName_preloaded _ _ _ _ E) as (r & Hin & Hn & Hi).
    exists r. auto.
  + assert (Hf : flt (SFirstByName name) = false).
    { unfold firstByName in E. destruct (flt (SFirstByName name)); [discriminate|reflexivity]. }
    apply (firstByName_found _ _ _ Hf) in E.
    destruct (0 <? indexOfDot name) eqn:Hidx; [|discriminate].
    apply Z.ltb_lt in Hidx.
    destruct (firstByName flt (substring 0 (Z.to_nat (indexOfDot name)) name) db)
      as [[a|]|m] eqn:E2; cbv beta iota in H; try discriminate H.
    inversion H; subst a; clear H.
    destruct (firstByName_preloaded _ _ _ _ E2) as (r & Hin & Hn & Hi).
    exists r. split; [exact Hin|]. split; [exact Hi|]. right. split; [exact E|].
    unfold indexOfDot in *.
    destruct (indexOfDot_from_spec name 0) as [[Hm _]|(n & En & Hfirst)]; [lia|].
    exists n. rewrite En in Hn, Hidx. cbn [Z.add] in Hn.
    rewrite Nat2Z.id in Hn. split; [lia|]. split; [exact Hfirst|exact Hn].
Qed.

(** X3.  [FindByName] fails exactly when the store refuses the query for
    the name as given.  What it returns is a stored row, tags loaded, named
    as asked or, when no row has that name, named by what stands before
    the first dot of it.  When the store refuses the second query the
    error is dropped and the name is reported as not found. *)
Theorem FindByName_returns_a_row_of_that_name_and_fails_on_the_first_query_only :
  forall (flt : Faults) (name : string) (db : DB),
    ((exists m, FindByName flt name db = Error m) <-> flt (SFirstByName name) = true) /\
    (forall i, FindByName flt name db = Ok (Some i) ->
       exists r,
         In r (instances db) /\ i = preload db (scan r) /\
         (Name r = name \/
          (named name db = [] /\
           exists n, (0 < n)%nat /\ first_dot_at n name /\ Name r = substring 0 n name))) /\
    (forall n,
       flt (SFirstByName name) = false ->
       named name db = [] ->
       first_dot_at n name ->
       flt (SFirstByName (substring 0 n name)) = true ->
       FindByName flt name db = Ok None).
Proof.
  intros flt name db. split; [|split].
  - unfold FindByName. destruct (firstByName flt name db) as [[i|]|m] eqn:E; cbv beta iota zeta.
    + split; [intros [m H]; discriminate H|].
      intros Hf. unfold firstByName in E. rewrite Hf in E. discriminate E.
    + split.
      * intros [m H]. destruct (0 <? indexOfDot name); [|discriminate H].
        destruct (firstByName flt (substring 0 (Z.to_nat (indexOfDot name)) name) db)
          as [[a|]|]; cbv beta iota in H; discriminate H.
      * intros Hf. unfold firstByName in E. rewrite Hf in E. discriminate.
    + split; [|intros _; eexists; reflexivity].
      intros _. unfold firstByName in E. destruct (flt (SFirstByName name)); [reflexivity|].
      discriminate.
  - intros i H. exact (FindByName_sound flt name db i H).
  - intros n Hf Hnone Hfirst Hf2. unfold FindByName.
    apply (firstByName_found _ _ _ Hf) in Hnone. rewrite Hnone.
    rewrite (indexOfDot_first _ _ Hfirst).
    destruct (0 <? Z.of_nat n); [|reflexivity].
    rewrite Nat2Z.id. unfold firstByName. rewrite Hf2. reflexivity.
Qed.

Lemma FindByName_returns_a_row_of_that_name_and_fails_on_the_first_query_only_witness :
  FindByName (fun s => match s with SFirstByName "web" => true | _ => false end)
             "web.internal" db_web = Ok None /\
  exists r, FindByName no_faults "web.internal" db_web = Ok (Some r) /\ Name r = "web".
Proof.
  pose proof (FindByName_returns_a_row_of_that_name_and_fails_on_the_first_query_only
                (fun s => match s with SFirstByName "web" => true | _ => false end)
                "web.internal" db_web) as (_ & _ & H).
  split.
  - apply (H 3%nat); try reflexivity.
    split; [reflexivity|].
    intros m Hm. destruct m as [|[|[|m]]]; try discriminate. lia.
  - eexists. split; reflexivity.
Defined.

(** ** What is saved is found *)

Lemma lookup_In (k : string * string * string) (rows : list Instance) (r : Instance) :
  lookup k rows = Some r -> In r rows /\ key r = k.
Proof.
  intros H. apply find_some in H. destruct H as [Hin H]. apply keyb_spec in H. now split.
Qed.

Lemma find_app_last {A : Type} (p : A -> bool) (l : list A) (x : A) :
  find p l = None -> find p (l ++ [x]) = if p x then Some x else None.
Proof.
  induction l as [|y l IH]; cbn [find app]; [reflexivity|].
  destruct (p y); [discriminate|]. exact IH.
Qed.

Lemma updateFirst_None (p : Instance -> bool) (f : Instance -> Instance)
      (rows : list Instance) :
  (forall r, In r rows -> p r = false) -> updateFirst p f rows = None.
Proof.
  induction rows as [|x rows IH]; intros H; cbn [updateFirst]; [reflexivity|].
  rewrite (H x (or_introl eq_refl)), IH; [reflexivity|].
  intros r Hr. apply H. now right.
Qed.

(** X4.  After [SaveOrUpdate] has succeeded for a record, [FindByID]
    finds a row with the record's instance id and, if the record has a
    name, [FindByName] finds a row of that name.  When no row had that
    instance id before, what [FindByID] returns is the record as saved: its
    key and columns, the time of the call, and its tags if it had any. *)
Theorem SaveOrUpdate_then_find_by_id_and_by_name :
  forall (flt flt' : Faults) (now : Time) (i : Instance) (db db' : DB),
    keyed i ->
    SaveOrUpdate flt now i db = (db', nil) ->
    (flt' (SFirstByID (InstanceID i)) = false ->
     exists r,
       FindByID flt' (InstanceID i) db' = Ok (Some r) /\
       InstanceID r = InstanceID i /\
       ((forall r0, In r0 (instances db) -> InstanceID r0 <> InstanceID i) ->
        key r = key i /\ attrs r = attrs i /\
        LastSeen r = now /\ CreatedAt r = now /\
        (Tags i <> [] -> map kv (Tags r) = map kv (Tags i)))) /\
    (Name i <> "" -> flt' (SFirstByName (Name i)) = false ->
     exists r, FindByName flt' (Name i) db' = Ok (Some r) /\ Name r = Name i).
Proof.
  intros flt flt' now i db db' Hk H. apply SaveOrUpdate_ok in H.
  pose proof (upsertOne_instances _ _ _ _ _ H) as Hrows.
  destruct (firstOrCreate_lookup now i db Hk) as (Hl & _ & _). cbv zeta in Hl.
  rewrite <- Hrows in Hl. apply lookup_In in Hl. destruct Hl as [Hin Hkey]. split.
  - intros Hf.
    assert (Hid : InstanceID
                    (match lookup (key i) (instances db) with
                     | Some r => assignTo now i r
                     | None => createdFrom now (next_instance_id db) i
                     end) = InstanceID i).
    { unfold key in Hkey |- *. congruence. }
    destruct (FindByID_present flt' _ db' _ Hf Hin Hid) as (row & Hrow & Hrid & E).
    exists (preload db' (scan row)). split; [exact E|]. split; [exact Hrid|].
    intros Hnew.
    assert (Hnone : updateFirst (whereKey i) (assignTo now i) (instances db) = None).
    { apply updateFirst_None. intros r Hr. rewrite (whereKey_keyed _ _ Hk).
      apply keyb_false. unfold key. intros K. apply (Hnew r Hr). congruence. }
    assert (Hfind : find (fun row => (InstanceID row =? InstanceID i)%string) (instances db)
                    = None).
    { destruct (find _ (instances db)) as [x|] eqn:F; [|reflexivity].
      apply find_some in F. destruct F as [Hx F]. apply String.eqb_eq in F.
      exfalso. exact (Hnew x Hx F). }
    unfold FindByID in E. rewrite Hf in E.
    rewrite Hrows in E. unfold firstOrCreate in E. rewrite Hnone in E.
    cbn [instances] in E. rewrite (find_app_last _ _ _ Hfind) in E.
    cbn [InstanceID createdFrom] in E. rewrite String.eqb_refl in E.
    cbn [option_map] in E.
    assert (E' : preload db' (scan (createdFrom now (next_instance_id db) i))
                 = preload db' (scan row)) by congruence.
    rewrite <- E'. cbn. repeat split.
    intros Ht. apply hasTags_true in Ht.
    exact (proj2 (proj2 (proj2 (upsertOne_tags_of flt now i db db' (InstanceID i) H)) Ht)).
  - intros Hn Hf.
    apply (FindByName_exact flt' (Name i) db' _ Hf Hin).
    destruct (lookup (key i) (instances db)); cbn [Name assignTo createdFrom];
      [|reflexivity].
    now rewrite (isZero_false _ Hn).
Qed.

Lemma SaveOrUpdate_then_find_by_id_and_by_name_witness :
  keyed (test_instance "test-instance" "running") /\
  exists db' r,
    SaveOrUpdate no_faults 100 (test_instance "test-instance" "running") db_web = (db', nil) /\
    FindByID no_faults "i-1234567890abcdef0" db' = Ok (Some r) /\
    Name r = "test-instance" /\ LastSeen r = 100 /\
    map kv (Tags r) = [("Name", "test-instance"); ("Environment", "test")].
Proof.
  assert (K : keyed (test_instance "test-instance" "running"))
    by (repeat split; discriminate).
  split; [exact K|].
  destruct (SaveOrUpdate_then_find_by_id_and_by_name no_faults no_faults 100
              (test_instance "test-instance" "running") db_web
              (fst (SaveOrUpdate no_faults 100 (test_instance "test-instance" "running") db_web))
              K eq_refl) as [H _].
  destruct (H eq_refl) as (r & E & _ & _).
  eexists. exists r. split; [reflexivity|]. split; [exact E|].
  vm_compute in E. injection E as <-. repeat split.
Defined.

(** ** GetStats *)

Lemma append_cancel (pre a b : string) : pre ++ a = pre ++ b -> a = b.
Proof.
  induction pre as [|c pre IH]; cbn [append]; intros H; [exact H|].
  injection H as H. exact (IH H).
Qed.

Lemma prefix_append (p s : string) :
  String.prefix p s = true -> exists rest, s = p ++ rest.
Proof.
  revert s. induction p as [|a p IH]; intros s H.
  - exists s. reflexivity.
  - destruct s as [|b s]; [discriminate H|]. cbn [String.prefix] in H.
    destruct (ascii_dec a b) as [->|]; [|discriminate H].
    destruct (IH s H) as [rest ->]. exists rest. reflexivity.
Qed.

Lemma setAll_other (pre : string) (groups : list (string * Z)) (stats : IntMap) (k : string) :
  (forall v, k <> pre ++ v) -> setAll pre groups stats k = stats k.
Proof.
  intros Hk. revert stats. induction groups as [|[v n] groups IH]; intros stats;
    cbn [setAll]; [reflexivity|].
  rewrite IH. unfold mapSet. destruct (String.eqb_spec k (pre ++ v)) as [E|_]; [|reflexivity].
  exfalso. exact (Hk v E).
Qed.

Lemma setAll_map (pre : string) (f : string -> Z) (vs : list string) (stats : IntMap)
      (v : string) :
  setAll pre (map (fun v => (v, f v)) vs) stats (pre ++ v)
  = if in_dec string_dec v vs then Some (f v) else stats (pre ++ v).
Proof.
  revert stats. induction vs as [|x vs IH]; intros stats; cbn [map setAll]; [reflexivity|].
  rewrite IH. destruct (in_dec string_dec v vs) as [Hin|Hout].
  - destruct (in_dec string_dec v (x :: vs)) as [_|N]; [reflexivity|].
    exfalso. apply N. now right.
  - unfold mapSet. destruct (String.eqb_spec (pre ++ v) (pre ++ x)) as [E|N].
    + apply append_cancel in E. subst x.
      destruct (in_dec string_dec v (v :: vs)) as [_|N]; [reflexivity|].
      exfalso. apply N. now left.
    + destruct (in_dec string_dec v (x :: vs)) as [[->|Hin]|_]; [congruence|contradiction|].
      reflexivity.
Qed.

Lemma count_zero_iff (col : Instance -> string) (v : string) (rows : list Instance) :
  List.length (filter (fun r => (col r =? v)%string) rows) = 0%nat <-> ~ In v (map col rows).
Proof.
  induction rows as [|r rows IH]; cbn [filter map In List.length]; [tauto|].
  destruct (String.eqb_spec (col r) v) as [E|N]; cbn [List.length].
  - split; [discriminate|]. intros H. exfalso. apply H. now left.
  - rewrite IH. tauto.
Qed.

Lemma setAll_groupCount (pre : string) (col : Instance -> string) (db : DB)
      (stats : IntMap) (v : string) :
  setAll pre (groupCount col (instances db)) stats (pre ++ v)
  = if countBy col v db =? 0 then stats (pre ++ v) else Some (countBy col v db).
Proof.
  unfold groupCount, countBy.
  rewrite (setAll_map pre
             (fun v => Z.of_nat (List.length (filter (fun r => (col r =? v)%string)
                                                     (instances db))))).
  destruct (in_dec string_dec v (nodup string_dec (map col (instances db)))) as [Hin|Hout].
  - apply nodup_In in Hin.
    destruct (Z.eqb_spec (Z.of_nat (List.length (filter (fun r => (col r =? v)%string)
                                                        (instances db)))) 0) as [E|_];
      [|reflexivity].
    exfalso. apply (proj1 (count_zero_iff col v (instances db))); [lia|exact Hin].
  - rewrite nodup_In in Hout. apply count_zero_iff in Hout. rewrite Hout. reflexivity.
Qed.

(** X5.  [GetStats] fails when the store refuses one of its three
    queries, and returns no map then.  Otherwise the map has the number of
    rows under [total], under [profile_p] the number of rows of profile [p]
    and under [region_r] the number of rows of region [r]; a profile or a
    region without rows has no entry, and there is no other entry. *)
Theorem GetStats_counts_rows_by_profile_and_by_region :
  forall (flt : StatsStmt -> bool) (db : DB),
    ((exists m, GetStats flt db = Error m) <->
     (flt SCountAll || flt SCountByProfile || flt SCountByRegion)%bool = true) /\
    (forall stats, GetStats flt db = Ok stats ->
       stats "total" = Some (Z.of_nat (List.length (instances db))) /\
       (forall p, stats ("profile_" ++ p)
                  = if countBy Profile p db =? 0 then None else Some (countBy Profile p db)) /\
       (forall r, stats ("region_" ++ r)
                  = if countBy Region r db =? 0 then None else Some (countBy Region r db)) /\
       (forall k, stats k <> None ->
                  k = "total" \/ (exists p, k = "profile_" ++ p) \/ (exists r, k = "region_" ++ r))).
Proof.
  intros flt db. unfold GetStats. split.
  - destruct (flt SCountAll); [split; [reflexivity|eexists; reflexivity]|].
    destruct (flt SCountByProfile); [split; [reflexivity|eexists; reflexivity]|].
    destruct (flt SCountByRegion); [split; [reflexivity|eexists; reflexivity]|].
    split; [intros [m H]; discriminate H|discriminate].
  - intros stats H.
    destruct (flt SCountAll); [discriminate H|].
    destruct (flt SCountByProfile); [discriminate H|].
    destruct (flt SCountByRegion); [discriminate H|].
    injection H as <-. split; [|split; [|split]].
    + rewrite setAll_other by (intros v; discriminate).
      rewrite setAll_other by (intros v; discriminate). reflexivity.
    + intros p. rewrite setAll_other by (intros v; discriminate).
      rewrite setAll_groupCount. reflexivity.
    + intros r. rewrite setAll_groupCount.
      rewrite setAll_other by (intros v; discriminate). reflexivity.
    + intros k Hk.
      destruct (String.eqb_spec k "total") as [->|Nt]; [now left|]. right.
      destruct (strings.HasPrefix k "region_") eqn:Pr.
      { right. exact (prefix_append _ _ Pr). }
      destruct (strings.HasPrefix k "profile_") eqn:Pp.
      { left. exact (prefix_append _ _ Pp). }
      exfalso. apply Hk.
      assert (Hr : forall v, k <> "region_" ++ v).
      { intros v ->. cbv in Pr. destruct v; discriminate Pr. }
      assert (Hp : forall v, k <> "profile_" ++ v).
      { intros v ->. cbv in Pp. destruct v; discriminate Pp. }
      rewrite (setAll_other _ _ _ _ Hr), (setAll_other _ _ _ _ Hp).
      unfold mapSet. destruct (String.eqb_spec k "total"); [contradiction|reflexivity].
Qed.

Lemma GetStats_counts_rows_by_profile_and_by_region_witness :
  exists stats,
    GetStats (fun _ => false) db_web = Ok stats /\
    stats "total" = Some 4 /\ stats "profile_dev" = Some 2 /\
    stats "region_eu-west-1" = Some 4 /\ stats "profile_qa" = None.
Proof.
  eexists. split; [reflexivity|].
  destruct (proj2 (GetStats_counts_rows_by_profile_and_by_region (fun _ => false) db_web)
              _ eq_refl) as (Ht & Hp & Hr & _).
  split; [exact Ht|]. split; [exact (Hp "dev")|]. split; [exact (Hr "eu-west-1")|].
  exact (Hp "qa").
Defined.

(** ** ConvertEC2Instance *)

Lemma convertTags_spec (ts : list ectype.Tag) (name : string) (acc : list Tag) :
  convertTags ts name acc
  = (fold_left (fun n p => if (fst p =? "Name")%string then snd p else n) (complete ts) name,
     (acc ++ map (fun p => {| TagID := 0%nat; TagInstanceID := ""; Key := fst p; Value := snd p |})
                 (complete ts))%list).
Proof.
  revert name acc. induction ts as [|t ts IH]; intros name acc; cbn [convertTags].
  - cbn. now rewrite app_nil_r.
  - unfold complete. cbn [flat_map]. fold (complete ts).
    destruct (ectype.Key t) as [k|]; [destruct (ectype.Value t) as [v|]|]; rewrite IH.
    + cbn [app fold_left map fst snd]. now rewrite <- app_assoc.
    + reflexivity.
    + reflexivity.
Qed.

Lemma fold_name_absent (kvs : list (string * string)) (name : string) :
  (forall v, ~ In ("Name", v) kvs) ->
  fold_left (fun n p => if (fst p =? "Name")%string then snd p else n) kvs name = name.
Proof.
  revert name. induction kvs as [|[k v] kvs IH]; intros name H; cbn [fold_left fst snd];
    [reflexivity|].
  destruct (String.eqb_spec k "Name") as [->|_].
  - exfalso. apply (H v). now left.
  - apply IH. intros v' Hv'. apply (H v'). now right.
Qed.

(** X6.  [ConvertEC2Instance] keeps the instance id, the state, the
    platform (empty when the SDK gives none) and the region, profile and
    account it is given; its tags are the tags of the instance whose key
    and value are both set, in order, none yet attached to an instance; its
    name is the value of the last such tag with key [Name], and is empty
    when there is none. *)
Theorem ConvertEC2Instance_keeps_the_complete_tags_and_the_last_Name :
  forall (e : ectype.Instance) (region profile accountID : string),
    let i := ConvertEC2Instance e region profile accountID in
    key i = (ectype.InstanceId e, region, profile) /\
    storage.AccountID i = accountID /\
    State i = ectype.StateName e /\
    Platform i = match ectype.PlatformDetails e with Some p => p | None => "" end /\
    ID i = 0%nat /\
    map kv (Tags i) = complete (tagsOf e) /\
    Forall (fun t => TagID t = 0%nat /\ TagInstanceID t = "") (Tags i) /\
    ((forall v, ~ In ("Name", v) (complete (tagsOf e))) -> Name i = "") /\
    (forall pre v post,
       complete (tagsOf e) = (pre ++ ("Name", v) :: post)%list ->
       (forall v', ~ In ("Name", v') post) ->
       Name i = v).
Proof.
  intros e region profile accountID i. unfold i, ConvertEC2Instance, tagsOf.
  destruct (ectype.Tags e) as [ts|].
  - rewrite convertTags_spec. cbn [key InstanceID Region Profile storage.AccountID State
                                   Platform ID Tags Name app].
    repeat split.
    + rewrite map_map. cbn [kv Key Value]. rewrite <- (map_id (complete ts)) at 2.
      apply map_ext. intros [k v]. reflexivity.
    + apply Forall_forall. intros t Ht. apply in_map_iff in Ht.
      destruct Ht as (p & <- & _). split; reflexivity.
    + intros H. now apply fold_name_absent.
    + intros pre v post E Hpost. rewrite E, fold_left_app. cbn [fold_left fst snd].
      rewrite String.eqb_refl. now apply fold_name_absent.
  - cbn. repeat split; try constructor.
    intros pre v post E. destruct pre; discriminate E.
Qed.

Lemma ConvertEC2Instance_keeps_the_complete_tags_and_the_last_Name_witness :
  complete (tagsOf ec2_abc) = ([] ++ ("Name", "web") :: [])%list /\
  Name (ConvertEC2Instance ec2_abc "eu-west-1" "dev" "123456789012") = "web".
Proof.
  split; [reflexivity|].
  destruct (ConvertEC2Instance_keeps_the_complete_tags_and_the_last_Name
              ec2_abc "eu-west-1" "dev" "123456789012") as (_ & _ & _ & _ & _ & _ & _ & _ & H).
  apply (H [] "web" []); [reflexivity|].
  intros v' [].
Defined.

(** ** Eviction leaves the tags behind *)

Lemma tags_of_DeleteStale (flt : Faults) (now : Time) (ttl : Duration) (db : DB) :
  tags (fst (fst (DeleteStale flt now ttl db))) = tags db.
Proof.
  unfold DeleteStale. destruct (flt _); [reflexivity|].
  unfold deleteWhereLastSeenBefore. destruct (0 <? _); reflexivity.
Qed.

Lemma upsertOne_new_id (flt flt' : Faults) (now : Time) (i : Instance) (db db' : DB) :
  keyed i ->
  upsertOne flt now i db = Ok db' ->
  (forall r0, In r0 (instances db) -> InstanceID r0 <> InstanceID i) ->
  flt' (SFirstByID (InstanceID i)) = false ->
  FindByID flt' (InstanceID i) db'
  = Ok (Some (preload db' (scan (createdFrom now (next_instance_id db) i)))).
Proof.
  intros Hk H Hnew Hf.
  assert (Hnone : updateFirst (whereKey i) (assignTo now i) (instances db) = None).
  { apply updateFirst_None. intros r Hr. rewrite (whereKey_keyed _ _ Hk).
    apply keyb_false. unfold key. intros K. apply (Hnew r Hr). congruence. }
  assert (Hfind : find (fun row => (InstanceID row =? InstanceID i)%string) (instances db)
                  = None).
  { destruct (find _ (instances db)) as [x|] eqn:F; [|reflexivity].
    apply find_some in F. destruct F as [Hx F]. apply String.eqb_eq in F.
    exfalso. exact (Hnew x Hx F). }
  unfold FindByID. rewrite Hf, (upsertOne_instances _ _ _ _ _ H).
  unfold firstOrCreate. rewrite Hnone. cbn [instances].
  rewrite (find_app_last _ _ _ Hfind). cbn [InstanceID createdFrom].
  rewrite String.eqb_refl. reflexivity.
Qed.

(** X7.  [DeleteStale] deletes rows of [instances] only: the tags of an
    evicted instance stay in [tags].  When the instance is saved again
    by a record without tags (as the agent source gives them) and no other
    row has its instance id, [FindByID] returns it with the tags it had
    before it was evicted. *)
Theorem DeleteStale_keeps_the_tags_which_return_with_the_instance :
  forall (flt1 flt2 flt3 : Faults) (now1 now2 : Time) (ttl : Duration)
         (i : Instance) (db db2 : DB),
    keyed i ->
    Tags i = [] ->
    let db1 := fst (fst (DeleteStale flt1 now1 ttl db)) in
    tags db1 = tags db /\
    ((forall r, In r (instances db) -> InstanceID r = InstanceID i ->
                LastSeen r < now1 - ttl) ->
     flt1 (SDeleteStale (now1 - ttl)) = false ->
     SaveOrUpdate flt2 now2 i db1 = (db2, nil) ->
     flt3 (SFirstByID (InstanceID i)) = false ->
     exists r,
       FindByID flt3 (InstanceID i) db2 = Ok (Some r) /\
       CreatedAt r = now2 /\
       Tags r = tags_of (InstanceID i) db).
Proof.
  intros flt1 flt2 flt3 now1 now2 ttl i db db2 Hk Ht db1.
  split; [apply tags_of_DeleteStale|].
  intros Hstale Hf1 Hsave Hf3.
  assert (Hgone : forall r0, In r0 (instances db1) -> InstanceID r0 <> InstanceID i).
  { intros r0 Hr0 E. unfold db1, DeleteStale in Hr0.
    replace (now1 + - ttl) with (now1 - ttl) in Hr0 by lia. rewrite Hf1 in Hr0.
    unfold deleteWhereLastSeenBefore in Hr0.
    assert (Hr0' : In r0 (filter (fun row => negb (LastSeen row <? now1 - ttl)) (instances db))).
    { destruct (0 <? _); exact Hr0. }
    apply filter_In in Hr0'. destruct Hr0' as [Hin Hkeep].
    pose proof (Hstale r0 Hin E) as L. apply Z.ltb_lt in L. rewrite L in Hkeep.
    discriminate Hkeep. }
  apply SaveOrUpdate_ok in Hsave.
  exists (preload db2 (scan (createdFrom now2 (next_instance_id db1) i))).
  split; [exact (upsertOne_new_id _ _ _ _ _ _ Hk Hsave Hgone Hf3)|].
  split; [reflexivity|]. cbn [preload scan set_Tags Tags InstanceID createdFrom].
  unfold tags_of.
  rewrite (proj1 (upsertOne_tags_of flt2 now2 i db1 db2 "" Hsave)
             (proj2 (hasTags_false i) Ht)).
  unfold db1. now rewrite tags_of_DeleteStale.
Qed.

Lemma DeleteStale_keeps_the_tags_which_return_with_the_instance_witness :
  keyed agent_i0bb /\ Tags agent_i0bb = [] /\
  exists r,
    FindByID no_faults "i-0bb"
      (fst (SaveOrUpdate no_faults 11000 agent_i0bb
              (fst (fst (DeleteStale no_faults 10000 5500 db_web))))) = Ok (Some r) /\
    CreatedAt r = 11000 /\
    map kv (Tags r) = [("Name", "web"); ("Env", "dev")].
Proof.
  assert (K : keyed agent_i0bb) by (repeat split; discriminate).
  split; [exact K|]. split; [reflexivity|].
  destruct (DeleteStale_keeps_the_tags_which_return_with_the_instance
              no_faults no_faults no_faults 10000 11000 5500 agent_i0bb db_web
              (fst (SaveOrUpdate no_faults 11000 agent_i0bb
                      (fst (fst (DeleteStale no_faults 10000 5500 db_web)))))
              K eq_refl) as [_ H].
  destruct H as (r & E & Hc & Ht); try reflexivity.
  - intros r Hr Hid. cbn in Hr.
    repeat (destruct Hr as [<-|Hr]; [try discriminate Hid; reflexivity|]). contradiction.
  - exists r. split; [exact E|]. split; [exact Hc|]. rewrite Ht. reflexivity.
Defined.

(** ** Upsert: the rows that were there *)

Lemma updateFirst_Forall2 (p : Instance -> bool) (f : Instance -> Instance)
      (rows rows' : list Instance) :
  updateFirst p f rows = Some rows' ->
  Forall2 (fun r r' => r' = r \/ (p r = true /\ r' = f r)) rows rows'.
Proof.
  revert rows'. induction rows as [|x rows IH]; intros rows' H; cbn [updateFirst] in H;
    [discriminate H|].
  destruct (p x) eqn:P.
  - injection H as <-. constructor; [right; now split|].
    clear. induction rows; constructor; auto.
  - destruct (updateFirst p f rows) as [rs|]; [|discriminate H].
    injection H as <-. constructor; [now left|]. now apply IH.
Qed.

Lemma kept_as_refl (ks : list (string * string * string)) (rows : list Instance) :
  Forall2 (kept_as ks) rows rows.
Proof.
  induction rows; constructor; [repeat split|assumption].
Qed.

Lemma upsertOne_next_id_le (flt : Faults) (now : Time) (i : Instance) (db db' : DB) :
  upsertOne flt now i db = Ok db' -> (next_instance_id db <= next_instance_id db')%nat.
Proof.
  intros H. rewrite (upsertOne_next_instance_id _ _ _ _ _ H).
  unfold firstOrCreate. destruct (updateFirst _ _ _); cbn; lia.
Qed.

Lemma upsertOne_kept (flt : Faults) (now : Time) (i : Instance) (db db' : DB) :
  keyed i ->
  upsertOne flt now i db = Ok db' ->
  exists kept news,
    instances db' = (kept ++ news)%list /\
    Forall2 (kept_as [key i]) (instances db) kept /\
    Forall (created_by [key i] now (next_instance_id db) (next_instance_id db')) news.
Proof.
  intros Hk H. rewrite (upsertOne_next_instance_id _ _ _ _ _ H),
                       (upsertOne_instances _ _ _ _ _ H).
  unfold firstOrCreate.
  destruct (updateFirst (whereKey i) (assignTo now i) (instances db)) as [rows'|] eqn:U.
  - exists rows', []. split; [now rewrite app_nil_r|]. split; [|constructor].
    apply updateFirst_Forall2 in U. cbn [instances set_instances].
    eapply Forall2_impl; [|exact U]. intros r r' [->|[P ->]].
    + repeat split.
    + rewrite (whereKey_keyed _ _ Hk) in P. apply keyb_spec in P.
      repeat split. intros N. exfalso. apply N. left. now symmetry.
  - exists (instances db), [createdFrom now (next_instance_id db) i].
    cbn [instances next_instance_id]. split; [reflexivity|].
    split; [apply kept_as_refl|]. constructor; [|constructor].
    unfold created_by. cbn [ID CreatedAt createdFrom]. rewrite key_createdFrom.
    split; [now left|]. split; [reflexivity|lia].
Qed.

Lemma upsertAll_next_id_le (flt : Faults) (now : Time) (l : list Instance) (db db' : DB) :
  upsertAll flt now l db = Ok db' -> (next_instance_id db <= next_instance_id db')%nat.
Proof.
  revert db. induction l as [|i l IH]; intros db H; cbn [upsertAll] in H.
  - injection H as <-. lia.
  - destruct (upsertOne flt now i db) as [db1|] eqn:E; [|discriminate H].
    pose proof (upsertOne_next_id_le _ _ _ _ _ E). pose proof (IH _ H). lia.
Qed.

Lemma upsertAll_kept (flt : Faults) (now : Time) (l : list Instance) (db db' : DB) :
  Forall keyed l ->
  upsertAll flt now l db = Ok db' ->
  exists kept news,
    instances db' = (kept ++ news)%list /\
    Forall2 (kept_as (map key l)) (instances db) kept /\
    Forall (created_by (map key l) now (next_instance_id db) (next_instance_id db')) news.
Proof.
  revert db. induction l as [|i l IH]; intros db Hk H; cbn [upsertAll] in H.
  - injection H as <-. exists (instances db), []. split; [now rewrite app_nil_r|].
    split; [apply kept_as_refl|constructor].
  - destruct (upsertOne flt now i db) as [db1|] eqn:E; [|discriminate H].
    inversion Hk as [|? ? Hi Hl]; subst.
    destruct (upsertOne_kept _ _ _ _ _ Hi E) as (kept1 & news1 & E1 & K1 & N1).
    destruct (IH db1 Hl H) as (kept & news & E2 & K & N).
    pose proof (upsertOne_next_id_le _ _ _ _ _ E) as L1.
    pose proof (upsertAll_next_id_le _ _ _ _ _ H) as L2.
    rewrite E1 in K. apply Forall2_app_inv_l in K.
    destruct K as (k1 & k2 & Ka & Kb & ->).
    exists k1, (k2 ++ news)%list. split; [now rewrite E2, app_assoc|]. split.
    + clear - K1 Ka. revert k1 Ka.
      induction K1 as [|r r1 rows kept1 R _ IHK]; intros k1 Ka;
        inversion Ka as [|? r2 ? k1' R2 Ka']; subst; constructor; [|now apply IHK].
      destruct R as (A1 & A2 & A3 & A4), R2 as (B1 & B2 & B3 & B4).
      repeat split; try congruence.
      intros Nin. cbn [map In] in Nin.
      assert (X : r1 = r) by (apply A4; intros [X|[]]; apply Nin; left; exact X).
      subst r1. apply B4. intros Y. apply Nin. now right.
    + apply Forall_app. split.
      * clear - N1 Kb L1 L2. revert k2 Kb.
        induction N1 as [|r1 news1 C _ IHN]; intros k2 Kb;
          inversion Kb as [|? r2 ? k2' R2 Kb']; subst; constructor; [|now apply IHN].
        destruct C as (C1 & C2 & C3), R2 as (B1 & B2 & B3 & _).
        unfold created_by. rewrite B1, B2, B3. split; [|split; [exact C2|lia]].
        cbn [map In] in *. destruct C1 as [C1|[]]. now left.
      * eapply Forall_impl; [|exact N]. intros r (C1 & C2 & C3).
        unfold created_by. split; [cbn [map In]; now right|]. split; [exact C2|lia].
Qed.

(** X8.  A batch that succeeds leaves every row that was there in its
    place, with its primary key, its unique key and its time of creation;
    a row whose key is not in the batch is not changed at all.  The rows it
    adds come after them, are keyed by records of the batch, and take
    primary keys that were never used. *)
Theorem SaveOrUpdateBatch_keeps_every_row_in_place :
  forall (flt : Faults) (now : Time) (l : list Instance) (db db' : DB),
    Forall keyed l ->
    SaveOrUpdateBatch flt now l db = (db', nil) ->
    exists kept news,
      instances db' = (kept ++ news)%list /\
      Forall2 (kept_as (map key l)) (instances db) kept /\
      Forall (created_by (map key l) now (next_instance_id db) (next_instance_id db')) news.
Proof.
  intros flt now l db db' Hk H. apply SaveOrUpdateBatch_ok in H.
  exact (upsertAll_kept _ _ _ _ _ Hk H).
Qed.

Lemma SaveOrUpdateBatch_keeps_every_row_in_place_witness :
  Forall keyed batch_twice /\
  exists kept news,
    instances (fst (SaveOrUpdateBatch no_faults 7000 batch_twice db_web))
    = (kept ++ news)%list /\
    Forall2 (kept_as (map key batch_twice)) (instances db_web) kept /\
    Forall (created_by (map key batch_twice) 7000 5 6) news.
Proof.
  assert (K : Forall keyed batch_twice)
    by (repeat constructor; discriminate).
  split; [exact K|].
  exact (SaveOrUpdateBatch_keeps_every_row_in_place no_faults 7000 batch_twice db_web
           (fst (SaveOrUpdateBatch no_faults 7000 batch_twice db_web)) K eq_refl).
Defined.

(** ** The discovery run: what every interleaving keeps *)

Lemma Interleaved_invariant (Inv : DB -> Prop) (Q : Call -> Prop)
      (pending : list (list Call)) (db db' : DB) :
  (forall c d, Q c -> Inv d -> Inv (fst (exec c d))) ->
  Interleaved pending db db' ->
  (forall cs c, In cs pending -> In c cs -> Q c) ->
  Inv db -> Inv db'.
Proof.
  intros Hstep. induction 1 as [pending db Hall|before c cs after db db' H IH];
    intros HQ Hinv; [exact Hinv|].
  apply IH.
  - intros cs' c' Hcs' Hc'. apply in_app_or in Hcs'. destruct Hcs' as [Hb|[<-|Ha]].
    + apply (HQ cs' c'); [|exact Hc']. apply in_or_app. now left.
    + apply (HQ (c :: cs) c'); [|now right]. apply in_or_app. right. now left.
    + apply (HQ cs' c'); [|exact Hc']. apply in_or_app. right. now right.
  - apply Hstep; [|exact Hinv].
    apply (HQ (c :: cs) c); [|now left]. apply in_or_app. right. now left.
Qed.

Lemma exec_unique (c : Call) (db : DB) :
  Forall keyed (call_batch c) -> unique_keys db -> unique_keys (fst (exec c db)).
Proof.
  intros Hk Hu. destruct (exec_cases c db) as [[H _]|(m & _ & ->)]; [|exact Hu].
  apply SaveOrUpdateBatch_ok in H.
  exact (upsertAll_unique _ _ _ _ _ Hk Hu H).
Qed.

(** Deleting rows keeps the unique index. *)
Lemma unique_keys_filter (keep : Instance -> bool) (rows : list Instance) :
  NoDup (map key rows) -> NoDup (map key (filter keep rows)).
Proof.
  intros Hu. induction rows as [|r rows IH]; cbn [map filter]; [constructor|].
  cbn [map] in Hu. apply NoDup_cons_iff in Hu. destruct Hu as [Hr Hrows].
  destruct (keep r); [|exact (IH Hrows)].
  cbn [map]. apply NoDup_cons; [|exact (IH Hrows)].
  intros Hin. apply Hr. apply in_map_iff in Hin. destruct Hin as (y & E & Hy).
  apply filter_In in Hy. apply in_map_iff. exists y. tauto.
Qed.

Lemma DeleteStale_instances (flt : Faults) (now : Time) (ttl : Duration) (db : DB) :
  instances (fst (fst (DeleteStale flt now ttl db)))
  = if flt (SDeleteStale (now - ttl)) then instances db
    else filter (fun row => negb (LastSeen row <? now - ttl)) (instances db).
Proof.
  unfold DeleteStale. replace (now + - ttl) with (now - ttl) by lia.
  destruct (flt _); [reflexivity|].
  unfold deleteWhereLastSeenBefore. destruct (0 <? _); reflexivity.
Qed.

Lemma cleanupStaleInstances_unique (env : Env) (db : DB) :
  unique_keys db -> unique_keys (fst (fst (cleanupStaleInstances env db))).
Proof.
  unfold unique_keys, cleanupStaleInstances. intros Hu.
  destruct (ParseDuration env) as [ttl|]; [|exact Hu].
  rewrite DeleteStale_instances. destruct (faultsCleanup env _); [exact Hu|].
  now apply unique_keys_filter.
Qed.

Lemma spawnRegions_In (profile : string) (regions : list string) (world : nat -> World)
      (k : nat) (g : Goroutine) :
  In g (spawnRegions profile regions world k) ->
  g_profile g = profile /\ In (g_region g) regions /\ exists k', g_world g = world k'.
Proof.
  revert k. induction regions as [|r regions IH]; intros k H; cbn [spawnRegions] in H;
    [contradiction|].
  destruct H as [<-|H].
  - cbn. split; [reflexivity|]. split; [now left|]. now exists k.
  - destruct (IH _ H) as (A & B & C). split; [exact A|]. split; [now right|exact C].
Qed.

Lemma spawn_In (profiles regions : list string) (world : nat -> World) (k : nat)
      (g : Goroutine) :
  In g (spawn profiles regions world k) ->
  In (g_profile g) profiles /\ In (g_region g) regions /\ exists k', g_world g = world k'.
Proof.
  revert k. induction profiles as [|p profiles IH]; intros k H; cbn [spawn] in H;
    [contradiction|].
  apply in_app_or in H. destruct H as [H|H].
  - destruct (spawnRegions_In _ _ _ _ _ H) as (A & B & C).
    split; [left; now symmetry|]. now split.
  - destruct (IH _ H) as (A & B & C). split; [now right|]. now split.
Qed.

Lemma unitCalls_keyed (w : World) (profile region : string) (c : Call) :
  region <> "" -> profile <> "" ->
  (forall ec2s, describeInstances w = Ok ec2s ->
                Forall (fun e => ectype.InstanceId e <> "") ec2s) ->
  In c (fst (unitCalls w profile region)) ->
  Forall keyed (call_batch c).
Proof.
  intros Hr Hp Hids. unfold unitCalls.
  destruct (GetClient w) as [client|]; [|contradiction].
  destruct (describeInstances w) as [ec2s|]; [|contradiction].
  specialize (Hids ec2s eq_refl).
  destruct (describeSSMManagedInstances w) as [managed|].
  - destruct (0 <? _)%nat; cbn [fst In]; intros [<-|[<-|[]]] || intros [<-|[]];
      cbn [call_batch saveEC2 saveSSM];
      (now apply ec2BatchOf_keyed) || (now apply ssmBatchOf_keyed).
  - cbn [fst In]. intros [<-|[]]. now apply ec2BatchOf_keyed.
Qed.

Lemma goroutine_keyed (g : Goroutine) (c : Call) :
  g_region g <> "" -> g_profile g <> "" ->
  (forall ec2s, describeInstances (g_world g) = Ok ec2s ->
                Forall (fun e => ectype.InstanceId e <> "") ec2s) ->
  In c (fst (goroutine g)) ->
  Forall keyed (call_batch c).
Proof.
  intros Hr Hp Hids. unfold goroutine. destruct (Acquire (g_world g)); [contradiction|].
  now apply unitCalls_keyed.
Qed.

(** X9.  A discovery run never stores two rows under one (instance id,
    region, profile): when the profiles, the regions and the instance ids
    the compute source answers with are not empty, the unique index holds
    after the run if it held before, whatever the interleaving of the
    units, whichever of them fail, and whether the clean-up runs or not. *)
Theorem DiscoverInstances_keeps_one_row_per_key :
  forall (env : Env) (world : nat -> World) (profiles regions : list string)
         (db db' : DB) (err : error),
    unique_keys db ->
    Forall (fun p => p <> "") profiles ->
    (forall regions', resolveRegions env regions = Ok regions' ->
                      Forall (fun r => r <> "") regions') ->
    (forall k ec2s, describeInstances (world k) = Ok ec2s ->
                    Forall (fun e => ectype.InstanceId e <> "") ec2s) ->
    DiscoverInstances env world profiles regions db db' err ->
    unique_keys db'.
Proof.
  intros env world profiles regions db db' err Hu Hp Hr Hids H.
  destruct H as [m _|regions' db1 Hres Hint]; [exact Hu|].
  apply cleanupStaleInstances_unique.
  apply (Interleaved_invariant unique_keys (fun c => Forall keyed (call_batch c))
           _ _ _ exec_unique Hint); [|exact Hu].
  intros cs c Hcs Hc. apply in_map_iff in Hcs. destruct Hcs as (g & <- & Hg).
  destruct (spawn_In _ _ _ _ _ Hg) as (A & B & k' & C).
  rewrite Forall_forall in Hp. specialize (Hr regions' Hres). rewrite Forall_forall in Hr.
  apply (goroutine_keyed g c); auto.
  rewrite C. apply Hids.
Qed.

Lemma DiscoverInstances_keeps_one_row_per_key_witness :
  exists db',
    DiscoverInstances env_day world_two ["dev"; "prod"] [] empty_db db'
      (Some "discovery completed with 1 errors") /\
    unique_keys db'.
Proof.
  destruct (Interleaved_sequential
              (map (fun g => fst (goroutine g)) (spawn ["dev"; "prod"] ["eu-west-1"] world_two 0))
              empty_db) as [db1 Hint].
  pose proof (Discover_run env_day world_two ["dev"; "prod"] [] empty_db
                ["eu-west-1"] db1 eq_refl Hint) as D.
  eexists. split; [exact D|].
  apply (DiscoverInstances_keeps_one_row_per_key env_day world_two ["dev"; "prod"] []
           empty_db _ _) with (5 := D).
  - constructor.
  - repeat constructor; discriminate.
  - intros regions' E. injection E as <-. repeat constructor; discriminate.
  - intros [|k] ec2s E; injection E as <-; repeat constructor; discriminate.
Defined.

Lemma firstOrCreate_keys_incl (now : Time) (i : Instance) (db : DB)
      (k : string * string * string) :
  In k (map key (instances db)) -> In k (map key (instances (firstOrCreate now i db))).
Proof.
  unfold firstOrCreate.
  destruct (updateFirst (whereKey i) (assignTo now i) (instances db)) as [rows'|] eqn:U.
  - cbn [instances set_instances]. apply updateFirst_Forall2 in U.
    induction U as [|r r' rows rows' R _ IH]; cbn [map In]; [tauto|].
    intros [<-|H]; [left|right; now apply IH].
    destruct R as [->|[_ ->]]; reflexivity.
  - cbn [instances]. rewrite map_app. intros H. apply in_or_app. now left.
Qed.

Lemma exec_keys_incl (k : string * string * string) (c : Call) (db : DB) :
  In k (map key (instances db)) -> In k (map key (instances (fst (exec c db)))).
Proof.
  intros Hin. destruct (exec_cases c db) as [[H _]|(m & _ & ->)]; [|exact Hin].
  apply SaveOrUpdateBatch_ok in H. revert H. generalize (fst (exec c db)).
  generalize (call_batch c). intros l. revert db Hin.
  induction l as [|i l IH]; intros db Hin db' H; cbn [upsertAll] in H.
  - now injection H as <-.
  - destruct (upsertOne (call_faults c) (call_now c) i db) as [db1|] eqn:E; [|discriminate H].
    apply (IH db1); [|exact H].
    rewrite (upsertOne_instances _ _ _ _ _ E). now apply firstOrCreate_keys_incl.
Qed.

(** X10.  Rows leave the store in a discovery run only through a
    clean-up that the store accepts.  After such a clean-up every row left
    was last seen no longer than the time-to-live before it.  When the
    time-to-live does not parse, or the store refuses the clean-up, no key
    that was stored before the run is missing after it, and the value the
    run returns does not tell. *)
Theorem DiscoverInstances_evicts_through_an_accepted_clean_up_only :
  forall (env : Env) (world : nat -> World) (profiles regions regions' : list string)
         (db db' : DB) (err : error),
    resolveRegions env regions = Ok regions' ->
    DiscoverInstances env world profiles regions db db' err ->
    (forall ttl,
       ParseDuration env = Ok ttl ->
       faultsCleanup env (SDeleteStale (nowCleanup env - ttl)) = false ->
       forall r, In r (instances db') -> nowCleanup env - ttl <= LastSeen r) /\
    ((exists m, ParseDuration env = Error m) \/
     (exists ttl, ParseDuration env = Ok ttl /\
                  faultsCleanup env (SDeleteStale (nowCleanup env - ttl)) = true) ->
     (forall k, In k (map key (instances db)) -> In k (map key (instances db'))) /\
     err = if (0 <? List.length (filter failed (spawn profiles regions' world 0)))%nat
           then Some (completedWithErrors
                        (List.length (filter failed (spawn profiles regions' world 0))))
           else nil).
Proof.
  intros env world profiles regions regions' db db' err Hres H.
  destruct H as [m Hm|regions'' db1 Hres' Hint]; [congruence|].
  assert (regions'' = regions') by congruence. subst regions''. split.
  - intros ttl Ht Hf r Hr. unfold cleanupStaleInstances in Hr. rewrite Ht in Hr.
    rewrite DeleteStale_instances, Hf in Hr. apply filter_In in Hr.
    destruct Hr as [_ Hr]. apply negb_true_iff, Z.ltb_ge in Hr. exact Hr.
  - intros Hoff. split.
    + intros k Hk.
      assert (Hk1 : In k (map key (instances db1))).
      { apply (Interleaved_invariant (fun d => In k (map key (instances d)))
                 (fun _ => True) _ _ _ (fun c d _ => exec_keys_incl k c d) Hint); auto. }
      unfold cleanupStaleInstances.
      destruct Hoff as [[m Hm]|(ttl & Ht & Hf)].
      * rewrite Hm. exact Hk1.
      * rewrite Ht, DeleteStale_instances, Hf. exact Hk1.
    + cbv zeta. rewrite errorsOf_length. reflexivity.
Qed.

Lemma DiscoverInstances_evicts_through_an_accepted_clean_up_only_witness :
  resolveRegions env_day [] = Ok ["eu-west-1"] /\
  exists db',
    DiscoverInstances env_day world_two ["dev"] [] db_web db' nil /\
    forall r, In r (instances db') -> 8000 - 86400 <= LastSeen r.
Proof.
  split; [reflexivity|].
  destruct (Interleaved_sequential
              (map (fun g => fst (goroutine g)) (spawn ["dev"] ["eu-west-1"] world_two 0))
              db_web) as [db1 Hint].
  pose proof (Discover_run env_day world_two ["dev"] [] db_web
                ["eu-west-1"] db1 eq_refl Hint) as D.
  eexists. split; [exact D|].
  exact (proj1 (DiscoverInstances_evicts_through_an_accepted_clean_up_only
                  env_day world_two ["dev"] [] ["eu-west-1"] db_web _ _ eq_refl D)
           86400 eq_refl eq_refl).
Defined.

(** ** The paginated listings *)

Lemma fold_left_app_concat {A : Type} (rs : list (list A)) (acc : list A) :
  fold_left (fun acc r => (acc ++ r)%list) rs acc = (acc ++ List.concat rs)%list.
Proof.
  revert acc. induction rs as [|r rs IH]; intros acc; cbn [fold_left List.concat].
  - now rewrite app_nil_r.
  - now rewrite IH, app_assoc.
Qed.

Lemma describeInstances_loop_ok (acc : list ectype.Instance)
      (pages : list (list (list ectype.Instance))) :
  describeInstances_loop acc (map Ok pages) = Ok (acc ++ List.concat (map (@List.concat _) pages))%list.
Proof.
  revert acc. induction pages as [|p pages IH]; intros acc;
    cbn [map describeInstances_loop List.concat].
  - now rewrite app_nil_r.
  - now rewrite IH, fold_left_app_concat, app_assoc.
Qed.

Lemma describeInstances_loop_error (acc : list ectype.Instance)
      (pre : list (list (list ectype.Instance))) (m : string)
      (post : list (result (list (list ectype.Instance)))) :
  describeInstances_loop acc (map Ok pre ++ Error m :: post)
  = Error "failed to describe instances".
Proof.
  revert acc. induction pre as [|p pre IH]; intros acc;
    cbn [map app describeInstances_loop]; [reflexivity|apply IH].
Qed.

Lemma ListManagedInstances_loop_ok (acc : list ssmtypes.InstanceInformation)
      (pages : list (list ssmtypes.InstanceInformation)) :
  aws.ListManagedInstances_loop acc (map Ok pages) = Ok (acc ++ List.concat pages)%list.
Proof.
  revert acc. induction pages as [|p pages IH]; intros acc;
    cbn [map aws.ListManagedInstances_loop List.concat].
  - now rewrite app_nil_r.
  - now rewrite IH, app_assoc.
Qed.

Lemma ListManagedInstances_loop_error (acc : list ssmtypes.InstanceInformation)
      (pre : list (list ssmtypes.InstanceInformation)) (m : string)
      (post : list (result (list ssmtypes.InstanceInformation))) :
  aws.ListManagedInstances_loop acc (map Ok pre ++ Error m :: post)
  = Error "failed to list managed instances".
Proof.
  revert acc. induction pre as [|p pre IH]; intros acc;
    cbn [map app aws.ListManagedInstances_loop]; [reflexivity|apply IH].
Qed.

Lemma pages_cases {A : Type} (pages : list (result A)) :
  (exists oks, pages = map Ok oks) \/
  (exists pre m post, pages = (map Ok pre ++ Error m :: post)%list).
Proof.
  induction pages as [|[a|m] pages IH].
  - left. now exists [].
  - destruct IH as [[oks ->]|(pre & m & post & ->)].
    + left. now exists (a :: oks).
    + right. now exists (a :: pre), m, post.
  - right. now exists [], m, pages.
Qed.

(** X11.  The two paginated listings return everything or nothing:
    when every page arrives, the instances of all reservations of all
    pages (the entries of all pages, for the agent source), in the order
    received; when a page fails, an error and no instance, whatever the
    pages before it held. *)
Theorem paginated_listings_return_all_pages_or_an_error :
  (forall pages : list (result (list (list ectype.Instance))),
     (exists oks, pages = map Ok oks /\
                  describeInstancesPaged pages = Ok (List.concat (map (@List.concat _) oks))) \/
     (exists pre m post, pages = (map Ok pre ++ Error m :: post)%list /\
                         describeInstancesPaged pages = Error "failed to describe instances")) /\
  (forall pages : list (result (list ssmtypes.InstanceInformation)),
     (exists oks, pages = map Ok oks /\
                  describeSSMManagedInstancesPaged pages = Ok (List.concat oks)) \/
     (exists pre m post, pages = (map Ok pre ++ Error m :: post)%list /\
                         describeSSMManagedInstancesPaged pages
                         = Error "failed to list managed instances")).
Proof.
  split; intros pages; destruct (pages_cases pages) as [[oks ->]|(pre & m & post & ->)].
  - left. exists oks. split; [reflexivity|]. apply describeInstances_loop_ok.
  - right. exists pre, m, post. split; [reflexivity|]. apply describeInstances_loop_error.
  - left. exists oks. split; [reflexivity|].
    unfold describeSSMManagedInstancesPaged, aws.ListManagedInstances.
    now rewrite ListManagedInstances_loop_ok.
  - right. exists pre, m, post. split; [reflexivity|].
    unfold describeSSMManagedInstancesPaged, aws.ListManagedInstances.
    now rewrite ListManagedInstances_loop_error.
Qed.

(** X12.  A unit whose compute listing fails at some page writes
    nothing and fails.  A unit whose agent listing fails at some page has
    written the compute batch by then, all the instances of all the pages
    of the compute listing in one transaction: the store keeps that write
    (if it accepted it) and the unit fails all the same. *)
Theorem unit_with_a_failed_page :
  forall (w : World) (profile region : string) (db : DB),
    (forall pre m post,
       describeInstances w = describeInstancesPaged (map Ok pre ++ Error m :: post) ->
       (exists client, GetClient w = Ok client) ->
       discoverInstancesForProfileRegion w profile region db
       = (db, [], Some "failed to describe instances")) /\
    (forall client oks pre m post,
       GetClient w = Ok client ->
       describeInstances w = describeInstancesPaged (map Ok oks) ->
       describeSSMManagedInstances w
       = describeSSMManagedInstancesPaged (map Ok pre ++ Error m :: post) ->
       let batch := ec2BatchOf (List.concat (map (@List.concat _) oks)) region profile (AccountID client) in
       discoverInstancesForProfileRegion w profile region db
       = (fst (exec (saveEC2 w batch) db), snd (exec (saveEC2 w batch) db),
          Some "failed to list SSM managed instances")).
Proof.
  intros w profile region db. split.
  - intros pre m post Hd [client Hc]. unfold discoverInstancesForProfileRegion.
    rewrite Hc, Hd. unfold describeInstancesPaged.
    now rewrite describeInstances_loop_error.
  - intros client oks pre m post Hc Hd Hs batch. unfold discoverInstancesForProfileRegion.
    rewrite Hc, Hd, Hs. unfold describeInstancesPaged, describeSSMManagedInstancesPaged,
      aws.ListManagedInstances.
    rewrite describeInstances_loop_ok, ListManagedInstances_loop_error.
    cbn [app]. fold batch. destruct (exec (saveEC2 w batch) db). reflexivity.
Qed.

Lemma unit_with_a_failed_page_witness :
  let out := discoverInstancesForProfileRegion world_broken_agent_page "dev" "eu-west-1" empty_db in
  map InstanceID (instances (fst (fst out))) = ["i-abc"] /\
  snd out = Some "failed to list SSM managed instances".
Proof.
  cbv zeta.
  rewrite (proj2 (unit_with_a_failed_page world_broken_agent_page "dev" "eu-west-1" empty_db)
             {| AccountID := "123456789012" |} [[[ec2_abc]]; [[]; []]]
             [[agent "mi-xyz" "db01" "Online"]] "throttled" []
             eq_refl eq_refl eq_refl).
  split; reflexivity.
Defined.

(** ** The fan-out: the error channel, the end of the run, progress *)

Lemma count_setPc (p : Pc -> bool) (l : list Pc) (i : nat) (old pc : Pc) :
  nth_error l i = Some old ->
  (List.length (filter p (setPc i pc l)) + (if p old then 1 else 0)
   = List.length (filter p l) + (if p pc then 1 else 0))%nat.
Proof.
  revert i. induction l as [|x l IH]; intros [|i]; cbn [nth_error setPc filter];
    try discriminate.
  - intros H. inversion H; subst.
    destruct (p old), (p pc); cbn [List.length]; lia.
  - intros H. specialize (IH i H). destruct (p x); cbn [List.length]; lia.
Qed.

Lemma todo_setPc (l : list Pc) (i : nat) (old pc : Pc) :
  nth_error l i = Some old ->
  (list_sum (map stepsLeft (setPc i pc l)) + stepsLeft old
   = list_sum (map stepsLeft l) + stepsLeft pc)%nat.
Proof.
  unfold list_sum.
  revert i. induction l as [|x l IH]; intros [|i]; cbn [nth_error setPc map fold_right];
    try discriminate.
  - intros H. inversion H; subst. lia.
  - intros H. specialize (IH i H). lia.
Qed.

Lemma filter_length_le {A : Type} (p : A -> bool) (l : list A) :
  (List.length (filter p l) <= List.length l)%nat.
Proof.
  induction l as [|x l IH]; cbn [filter List.length]; [lia|].
  destruct (p x); cbn [List.length]; lia.
Qed.

Lemma length_send (e : error) (ch : list string) :
  List.length (send e ch)
  = (List.length ch + if hasSent (Returned e) then 1 else 0)%nat.
Proof.
  destruct e; cbn [send hasSent]; [rewrite length_app; cbn; lia|lia].
Qed.

(** X13.  However the goroutines of a run are scheduled, [errorChan]
    holds one error for each goroutine that has returned with one, so
    never more than the capacity it was made with (one slot per goroutine:
    no send ever blocks); and once every goroutine has returned the
    semaphore holds nothing, so that the next run on the same service finds
    all of its slots free. *)
Theorem errorChan_fits_its_buffer_and_the_semaphore_ends_free :
  forall (sem : Weighted) (n : nat) (s : Sched),
    cur sem = 0 ->
    reachable (started sem n) s ->
    List.length (pcs s) = n /\
    List.length (errorChan s) = List.length (filter hasSent (pcs s)) /\
    (List.length (errorChan s) <= n)%nat /\
    (forallb hasReturned (pcs s) = true -> cur (semaphore s) = 0).
Proof.
  intros sem n s H0 Hr.
  assert (Inv : List.length (pcs s) = n /\
                List.length (errorChan s) = List.length (filter hasSent (pcs s))).
  { induction Hr as [|s s' Hr IH Hstep].
    - cbn [started pcs errorChan]. split; [apply repeat_length|].
      clear. induction n; cbn; auto.
    - destruct IH as [Hlen Hch].
      destruct Hstep as [s|s i Hi Hfree|s i Hi Hdone|s i e Hi]; cbn [pcs errorChan].
      + auto.
      + rewrite length_setPc. split; [exact Hlen|].
        pose proof (count_setPc hasSent (pcs s) i Waiting Running Hi) as E.
        cbn [hasSent] in E. lia.
      + rewrite length_setPc. split; [exact Hlen|].
        pose proof (count_setPc hasSent (pcs s) i Waiting (Returned acquireError) Hi) as E.
        rewrite length_send. cbn [hasSent acquireError] in *. lia.
      + rewrite length_setPc. split; [exact Hlen|].
        pose proof (count_setPc hasSent (pcs s) i Running (Returned e) Hi) as E.
        rewrite length_send. cbn [hasSent] in E |- *. lia. }
  destruct Inv as [Hlen Hch]. split; [exact Hlen|]. split; [exact Hch|]. split.
  - rewrite Hch, <- Hlen. apply filter_length_le.
  - intros Hall. destruct (semaphore_invariant sem n s H0 Hr) as (_ & Hcur & _).
    rewrite Hcur. unfold inFlight.
    rewrite (filter_none isRunning (pcs s)); [reflexivity|].
    apply Forall_forall. intros pc Hpc.
    rewrite forallb_forall in Hall. specialize (Hall pc Hpc).
    destruct pc; [discriminate Hall|discriminate Hall|reflexivity].
Qed.

Lemma errorChan_fits_its_buffer_and_the_semaphore_ends_free_witness :
  exists s,
    reachable (started (NewWeighted 1) 1) s /\
    forallb hasReturned (pcs s) = true /\
    errorChan s = ["failed to describe instances"] /\
    cur (semaphore s) = 0.
Proof.
  pose (s0 := started (NewWeighted 1) 1).
  pose (s1 := {| semaphore := {| size := 1; cur := 0 + 1 |}; ctxDone := false;
                 pcs := [Running]; errorChan := [] |}).
  pose (s2 := {| semaphore := {| size := 1; cur := 0 + 1 - 1 |}; ctxDone := false;
                 pcs := [Returned (Some "failed to describe instances")];
                 errorChan := ["failed to describe instances"] |}).
  assert (R : reachable s0 s2).
  { apply (reachable_step s0 s1 s2).
    - apply (reachable_step s0 s0 s1); [constructor|].
      exact (step_acquire s0 0 eq_refl ltac:(cbn; lia)).
    - exact (step_return s1 0 (Some "failed to describe instances") eq_refl). }
  exists s2. split; [exact R|]. split; [reflexivity|]. split; [reflexivity|].
  exact (proj2 (proj2 (proj2 (errorChan_fits_its_buffer_and_the_semaphore_ends_free
                                (NewWeighted 1) 1 s2 eq_refl R))) eq_refl).
Defined.

Lemma todo_zero (l : list Pc) :
  list_sum (map stepsLeft l) = 0%nat <-> forallb hasReturned l = true.
Proof.
  unfold list_sum.
  induction l as [|pc l IH]; cbn [map fold_right forallb]; [tauto|].
  destruct pc; cbn [stepsLeft hasReturned andb]; [split; [lia|discriminate]
                                                 |split; [lia|discriminate]|].
  exact IH.
Qed.

Lemma none_running (l : list Pc) :
  forallb hasReturned l = true -> List.length (filter isRunning l) = 0%nat.
Proof.
  induction l as [|pc l IH]; [reflexivity|].
  cbn [forallb]. intros E. apply andb_true_iff in E. destruct E as [E1 E2].
  destruct pc; try discriminate E1. cbn [filter isRunning]. now apply IH.
Qed.

Lemma todo_positive (l : list Pc) :
  forallb hasReturned l = false ->
  (exists i, nth_error l i = Some Running) \/
  ((exists i, nth_error l i = Some Waiting) /\ List.length (filter isRunning l) = 0%nat).
Proof.
  induction l as [|pc l IH]; cbn [forallb]; [discriminate|]. intros H.
  destruct pc; cbn [hasReturned andb] in H.
  - destruct (forallb hasReturned l) eqn:E.
    + right. split; [now exists 0%nat|]. cbn [filter isRunning]. now apply none_running.
    + destruct (IH eq_refl) as [[i Hi]|[[i Hi] Hnone]].
      * left. now exists (S i).
      * right. split; [now exists 0%nat|]. exact Hnone.
  - left. now exists 0%nat.
  - destruct (IH H) as [[i Hi]|[[i Hi] Hnone]].
    + left. now exists (S i).
    + right. split; [now exists (S i)|]. exact Hnone.
Qed.

(** X14.  With a ceiling of one or more the fan-out cannot get stuck:
    in every state the run can reach, as long as some goroutine has not
    returned some goroutine can take a step (a running unit can return,
    and when none runs a waiting one gets a slot).  No step undoes work:
    a step either is the cancellation of the context, which moves no
    goroutine, or takes away from the steps left, of which there are two
    per goroutine at the start and none exactly when all have returned. *)
Theorem the_fan_out_always_makes_progress :
  forall (sem : Weighted) (n : nat) (s : Sched),
    cur sem = 0 ->
    1 <= size sem ->
    reachable (started sem n) s ->
    (todo (started sem n) = 2 * n)%nat /\
    (todo s = 0%nat <-> forallb hasReturned (pcs s) = true) /\
    (forall s', step s s' -> pcs s' = pcs s \/ (todo s' < todo s)%nat) /\
    (forallb hasReturned (pcs s) = false ->
     exists s', step s s' /\ (todo s' < todo s)%nat).
Proof.
  intros sem n s H0 Hsize Hr.
  assert (Hstep : forall s', step s s' -> pcs s' = pcs s \/ (todo s' < todo s)%nat).
  { intros s' Hstep. unfold todo.
    destruct Hstep as [s|s i Hi Hfree|s i Hi Hdone|s i e Hi]; cbn [pcs].
    - now left.
    - right. pose proof (todo_setPc (pcs s) i Waiting Running Hi) as E.
      cbn [stepsLeft] in E. lia.
    - right. pose proof (todo_setPc (pcs s) i Waiting (Returned acquireError) Hi) as E.
      cbn [stepsLeft] in E. lia.
    - right. pose proof (todo_setPc (pcs s) i Running (Returned e) Hi) as E.
      cbn [stepsLeft] in E. lia. }
  split; [|split; [apply todo_zero|split; [exact Hstep|]]].
  - unfold todo, list_sum. cbn [started pcs]. clear.
    induction n; cbn [repeat map fold_right stepsLeft]; lia.
  - intros Hleft.
    destruct (todo_positive _ Hleft) as [[i Hi]|[[i Hi] Hnone]].
    + pose proof (step_return s i None Hi) as St.
      eexists. split; [exact St|].
      destruct (Hstep _ St) as [E|L]; [|exact L]. exfalso. cbn [pcs] in E.
      pose proof (nth_error_setPc_same (pcs s) i Running (Returned None) Hi) as X.
      rewrite E in X. congruence.
    + destruct (semaphore_invariant sem n s H0 Hr) as (Hs & Hcur & _).
      assert (Hfree : 1 <= size (semaphore s) - cur (semaphore s)).
      { rewrite Hs, Hcur. unfold inFlight. rewrite Hnone. cbn. lia. }
      pose proof (step_acquire s i Hi Hfree) as St.
      eexists. split; [exact St|].
      destruct (Hstep _ St) as [E|L]; [|exact L]. exfalso. cbn [pcs] in E.
      pose proof (nth_error_setPc_same (pcs s) i Waiting Running Hi) as X.
      rewrite E in X. congruence.
Qed.

Lemma the_fan_out_always_makes_progress_witness :
  exists s',
    step (started (NewWeighted 1) 2) s' /\
    (todo s' < todo (started (NewWeighted 1) 2))%nat.
Proof.
  exact (proj2 (proj2 (proj2 (the_fan_out_always_makes_progress (NewWeighted 1) 2
                                (started (NewWeighted 1) 2) eq_refl ltac:(cbn; lia)
                                (reachable_start _))))
           eq_refl).
Defined.

(** X15.  With a ceiling of zero or less no unit ever runs.  While the
    context is not cancelled nothing happens at all: every goroutine waits
    in [Acquire], for ever if the context cannot be cancelled.  Once it is
    cancelled the goroutines can only give up, each sending the error of
    the semaphore. *)
Theorem a_ceiling_of_zero_runs_no_unit :
  forall (sem : Weighted) (n : nat) (s : Sched),
    cur sem = 0 ->
    size sem <= 0 ->
    reachable (started sem n) s ->
    (ctxDone s = false -> s = started sem n) /\
    semaphore s = sem /\
    Forall (fun pc => pc = Waiting \/ pc = Returned acquireError) (pcs s) /\
    inFlight s = 0.
Proof.
  intros sem n s H0 Hsize Hr.
  assert (Inv : (ctxDone s = false -> s = started sem n) /\
                semaphore s = sem /\
                Forall (fun pc => pc = Waiting \/ pc = Returned acquireError) (pcs s)).
  { induction Hr as [|s s' Hr IH Hstep].
    - split; [reflexivity|]. split; [reflexivity|]. cbn [started pcs].
      clear. induction n; cbn [repeat]; constructor; auto.
    - destruct IH as (Hidle & Hsem & Hall).
      assert (Hset : forall i pc, pc = Waiting \/ pc = Returned acquireError ->
                Forall (fun pc => pc = Waiting \/ pc = Returned acquireError)
                       (setPc i pc (pcs s))).
      { intros i pc Hpc. revert i. induction Hall as [|x l Hx Hl IHl]; intros [|i];
          cbn [setPc]; constructor; auto. }
      destruct Hstep as [s|s i Hi Hfree|s i Hi Hdone|s i e Hi];
        cbn [ctxDone semaphore pcs].
      + split; [discriminate|]. auto.
      + exfalso. rewrite Hsem, H0 in Hfree. lia.
      + split; [congruence|]. split; [exact Hsem|]. apply Hset. now right.
      + exfalso. apply nth_error_In in Hi. rewrite Forall_forall in Hall.
        destruct (Hall _ Hi); discriminate. }
  destruct Inv as (Hidle & Hsem & Hall). repeat split; try assumption.
  unfold inFlight. rewrite (filter_none isRunning (pcs s)); [reflexivity|].
  eapply Forall_impl; [|exact Hall]. intros pc [->| ->]; reflexivity.
Qed.

Lemma a_ceiling_of_zero_runs_no_unit_witness :
  inFlight {| semaphore := NewWeighted 0; ctxDone := true;
              pcs := [Waiting; Waiting]; errorChan := [] |} = 0.
Proof.
  refine (proj2 (proj2 (proj2 (a_ceiling_of_zero_runs_no_unit (NewWeighted 0) 2 _
                                 eq_refl ltac:(cbn; lia) _)))).
  exact (reachable_step _ _ _ (reachable_start _) (step_cancel (started (NewWeighted 0) 2))).
Defined.

(** ** The regions and the profiles selected for discovery *)

Lemma updateFirstSel_named (name : string) (l : list Selected) :
  match updateFirstSel (fun r => (SelName r =? name)%string) (setEnabled true) l with
  | Some l' =>
      In name (map SelName l) /\
      map SelName l' = map SelName l /\
      map SelID l' = map SelID l /\
      (forall n, In n (map SelName (filter Enabled l')) <->
                 n = name \/ In n (map SelName (filter Enabled l)))
  | None => ~ In name (map SelName l)
  end.
Proof.
  induction l as [|r l IH]; cbn [updateFirstSel]; [tauto|].
  destruct (String.eqb_spec (SelName r) name) as [E|N].
  - cbn [map setEnabled SelName SelID filter Enabled In].
    split; [now left|]. split; [reflexivity|]. split; [reflexivity|].
    intros n. destruct (Enabled r); cbn [map In SelName]; rewrite E; intuition.
  - destruct (updateFirstSel _ _ l) as [l'|].
    + destruct IH as (A & B & C & D). cbn [map In filter].
      split; [now right|]. split; [now rewrite B|]. split; [now rewrite C|].
      intros n. destruct (Enabled r); cbn [map In]; rewrite D; intuition.
    + cbn [map In]. intuition.
Qed.

Lemma enable_spec (flt : SelFaults) (name : string) (t t' : Table) :
  name <> "" ->
  enable flt name t = (t', nil) ->
  (forall n, In n (enabledNames t') <-> n = name \/ In n (enabledNames t)) /\
  names t' = (if in_dec string_dec name (names t) then names t else names t ++ [name])%list /\
  (next_id t <= next_id t')%nat.
Proof.
  intros Hn. unfold enable, enabledNames, names.
  destruct (flt (SelFirstOrCreate name)); [discriminate|].
  rewrite (isZero_false _ Hn). cbn [orb].
  pose proof (updateFirstSel_named name (rows t)) as U.
  destruct (updateFirstSel _ _ (rows t)) as [rows'|]; intros H; injection H as <-;
    cbn [rows next_id].
  - destruct U as (A & B & C & D). split; [exact D|]. split; [|lia].
    destruct (in_dec string_dec name (map SelName (rows t))); [exact B|contradiction].
  - split; [|split; [|lia]].
    + intros n. rewrite filter_app, map_app, in_app_iff. cbn. intuition.
    + destruct (in_dec string_dec name (map SelName (rows t))); [contradiction|].
      now rewrite map_app.
Qed.

Lemma disable_spec (flt : SelFaults) (name : string) (t t' : Table) :
  disable flt name t = (t', nil) ->
  (forall n, In n (enabledNames t') <-> n <> name /\ In n (enabledNames t)) /\
  names t' = names t /\ next_id t' = next_id t.
Proof.
  unfold disable, enabledNames, names.
  destruct (flt (SelDisable name)); [discriminate|]. intros H. injection H as <-.
  cbn [rows next_id]. split; [|split; [|reflexivity]].
  - intros n. induction (rows t) as [|r l IH]; cbn [map filter In]; [tauto|].
    destruct (String.eqb_spec (SelName r) name) as [E|N].
    + cbn [setEnabled Enabled]. rewrite IH.
      destruct (Enabled r); cbn [map In]; [|tauto].
      split; [tauto|]. intros [A [B|B]]; [congruence|tauto].
    + destruct (Enabled r); cbn [map In]; rewrite IH; [|tauto].
      split; [intros [<-|B]; tauto|tauto].
  - induction (rows t) as [|r l IH]; cbn [map]; [reflexivity|].
    rewrite IH. now destruct (SelName r =? name)%string.
Qed.

(** X16.  Enabling a region by a name that is not empty makes it one of
    the enabled regions, those [GetEnabledRegions] returns, and changes
    the state of no other; a row is added for it only when the table had
    none, so that no name comes to stand twice.  Disabling takes the name
    from the enabled ones, changes no other and never adds a row, whether
    the name is known or not.  A call the store refuses leaves the table
    as it was.  ([EnableProfile] and [DisableProfile] are the same
    operations on the table of profiles.) *)
Theorem enabling_and_disabling_touch_one_name :
  forall (flt : SelFaults) (name : string) (t t' : Table),
    (name <> "" ->
     EnableRegion flt name t = (t', nil) ->
     (forall n, In n (enabledNames t') <-> n = name \/ In n (enabledNames t)) /\
     (In name (names t) -> names t' = names t) /\
     (~ In name (names t) -> names t' = (names t ++ [name])%list) /\
     (NoDup (names t) -> NoDup (names t'))) /\
    (DisableRegion flt name t = (t', nil) ->
     (forall n, In n (enabledNames t') <-> n <> name /\ In n (enabledNames t)) /\
     names t' = names t) /\
    (forall e, EnableRegion flt name t = (t', Some e) \/
               DisableRegion flt name t = (t', Some e) -> t' = t) /\
    (forall flt' l, storage.GetEnabledRegions flt' t' = Ok l -> l = enabledNames t').
Proof.
  intros flt name t t'. split; [|split; [|split]];
    [| | |intros flt' l H; unfold storage.GetEnabledRegions in H;
          destruct (flt' SelFindEnabled); [discriminate H|now injection H as <-]].
  - intros Hn H. destruct (enable_spec _ _ _ _ Hn H) as (A & B & _).
    split; [exact A|].
    destruct (in_dec string_dec name (names t)) as [Hin|Hout].
    + split; [now intros _|]. split; [contradiction|]. now rewrite B.
    + split; [contradiction|]. split; [now intros _|]. rewrite B. intros Hnd.
      apply NoDup_app; [exact Hnd|repeat constructor; intros []|].
      intros x Hx [<-|[]]. contradiction.
  - intros H. destruct (disable_spec _ _ _ _ H) as (A & B & _). now split.
  - intros e [H|H].
    + unfold EnableRegion, enable in H. destruct (flt (SelFirstOrCreate name)).
      * now injection H as <-.
      * destruct (updateFirstSel _ _ _); discriminate H.
    + unfold DisableRegion, disable in H. destruct (flt (SelDisable name)).
      * now injection H as <-.
      * discriminate H.
Qed.

Lemma enabling_and_disabling_touch_one_name_witness :
  enabledNames (fst (EnableRegion sel_no_faults "eu-west-1" regions_three))
  = ["us-east-1"; "eu-west-1"; "eu-central-1"] /\
  forall n, In n (enabledNames (fst (EnableRegion sel_no_faults "eu-west-1" regions_three)))
            <-> n = "eu-west-1" \/ In n (enabledNames regions_three).
Proof.
  split; [reflexivity|].
  refine (proj1 (proj1 (enabling_and_disabling_touch_one_name sel_no_faults "eu-west-1"
                          regions_three _) _ eq_refl)).
  discriminate.
Defined.

(** ** The profiles of the configuration files *)

Lemma substring_all (s : string) : substring 0 (String.length s) s = s.
Proof.
  induction s as [|c s IH]; cbn [String.length substring]; [reflexivity|]. now rewrite IH.
Qed.

Lemma prefix_of_append (p rest : string) : String.prefix p (p ++ rest) = true.
Proof.
  induction p as [|c p IH]; cbn [append String.prefix].
  - destruct rest; reflexivity.
  - destruct (ascii_dec c c); [exact IH|congruence].
Qed.

Lemma TrimPrefix_profile (rest : string) :
  strings.TrimPrefix ("profile " ++ rest) "profile " = rest.
Proof.
  unfold strings.TrimPrefix, strings.HasPrefix. rewrite prefix_of_append.
  cbn [append String.length Nat.sub substring]. rewrite Nat.sub_0_r.
  apply substring_all.
Qed.

Lemma sectionProfile_spec (isConfigFile : bool) (sectionName p : string) :
  aws.sectionProfile isConfigFile sectionName = Some p <->
  p <> "" /\
  if isConfigFile
  then sectionName = "profile " ++ p \/ (p = "default" /\ sectionName = "default")
  else sectionName = p.
Proof.
  unfold aws.sectionProfile. destruct isConfigFile.
  - destruct (strings.HasPrefix sectionName "profile ") eqn:P.
    + destruct (prefix_append _ _ P) as [rest ->]. rewrite TrimPrefix_profile.
      destruct (String.eqb_spec rest "") as [->|N].
      * split; [discriminate|]. intros [Hp [E|[-> E]]]; [|discriminate E].
        apply append_cancel in E. congruence.
      * split.
        -- intros E. injection E as <-. split; [exact N|now left].
        -- intros [_ [E|[-> E]]]; [|discriminate E].
           apply append_cancel in E. now subst.
    + destruct (String.eqb_spec sectionName "default") as [->|N]; cbn [negb].
      * cbn. split.
        -- intros E. injection E as <-. split; [discriminate|]. right. now split.
        -- intros [_ [E|[-> _]]]; [discriminate E|reflexivity].
      * split; [discriminate|]. intros [_ [->|[_ E]]]; [|contradiction].
        unfold strings.HasPrefix in P. rewrite prefix_of_append in P. discriminate P.
  - destruct (String.eqb_spec sectionName "") as [->|N].
    + split; [discriminate|]. intros [Hp E]. congruence.
    + split.
      * intros E. injection E as <-. now split.
      * intros [_ ->]. reflexivity.
Qed.

Lemma sectionProfiles_In (isConfigFile : bool) (sectionNames : list string) (p : string) :
  In p (aws.sectionProfiles isConfigFile sectionNames) <->
  exists sectionName,
    In sectionName sectionNames /\ aws.sectionProfile isConfigFile sectionName = Some p.
Proof.
  induction sectionNames as [|s l IH]; cbn [aws.sectionProfiles In].
  - split; [contradiction|]. intros (x & [] & _).
  - destruct (aws.sectionProfile isConfigFile s) as [q|] eqn:E; cbn [In]; rewrite IH.
    + split.
      * intros [<-|(x & Hx & Hp)]; [exists s; auto|exists x; auto].
      * intros (x & [<-|Hx] & Hp); [left; congruence|right; exists x; auto].
    + split.
      * intros (x & Hx & Hp). exists x; auto.
      * intros (x & [<-|Hx] & Hp); [congruence|exists x; auto].
Qed.

Lemma readProfilesFromFile_names_nonempty (file : aws.File) (isConfigFile : bool) :
  match aws.readProfilesFromFile file isConfigFile with
  | Error _ => True
  | Ok profiles => ~ In "" profiles
  end.
Proof.
  destruct file as [| |sectionNames]; cbn [aws.readProfilesFromFile]; try exact I.
  intros Hin. apply sectionProfiles_In in Hin. destruct Hin as (s & _ & E).
  apply sectionProfile_spec in E. destruct E as [Hp _]. now apply Hp.
Qed.

(** X17.  [readProfilesFromFile] fails on a file that is missing or
    does not parse.  Of the sections of a configuration file it returns
    the names that follow [profile ] and the name [default]; a section
    with any other name is passed over.  Of a credentials file it returns
    every section name.  It never returns an empty name. *)
Theorem readProfilesFromFile_reads_the_section_names :
  forall (file : aws.File) (isConfigFile : bool),
    match aws.readProfilesFromFile file isConfigFile with
    | Error _ => file = aws.Missing \/ file = aws.Unparsable
    | Ok profiles =>
        exists sectionNames,
          file = aws.Sections sectionNames /\
          ~ In "" profiles /\
          forall p,
            In p profiles <->
            p <> "" /\
            if isConfigFile
            then In ("profile " ++ p) sectionNames \/ (p = "default" /\ In "default" sectionNames)
            else In p sectionNames
    end.
Proof.
  intros [| |sectionNames] isConfigFile; cbn [aws.readProfilesFromFile]; [now left|now right|].
  exists sectionNames. split; [reflexivity|].
  assert (H : forall p,
            In p (aws.sectionProfiles isConfigFile sectionNames) <->
            p <> "" /\
            if isConfigFile
            then In ("profile " ++ p) sectionNames \/ (p = "default" /\ In "default" sectionNames)
            else In p sectionNames).
  { intros p. rewrite sectionProfiles_In. split.
    - intros (s & Hs & E). apply sectionProfile_spec in E. destruct E as [Hp E].
      split; [exact Hp|]. destruct isConfigFile.
      + destruct E as [->|[-> ->]]; [now left|right; now split].
      + now subst.
    - intros [Hp H]. destruct isConfigFile.
      + destruct H as [H|[-> H]].
        * exists ("profile " ++ p). split; [exact H|]. apply sectionProfile_spec.
          split; [exact Hp|now left].
        * exists "default". split; [exact H|]. apply sectionProfile_spec.
          split; [exact Hp|right; now split].
      + exists p. split; [exact H|]. apply sectionProfile_spec. now split. }
  split; [|exact H]. intros Hin. apply H in Hin. destruct Hin as [Hp _]. now apply Hp.
Qed.

Lemma profileSet_In (config credentials : aws.File) (p : string) :
  In p (aws.profileSet config credentials) <->
  (exists l, aws.readProfilesFromFile config true = Ok l /\ In p l) \/
  (exists l, aws.readProfilesFromFile credentials false = Ok l /\ In p l).
Proof.
  unfold aws.profileSet. rewrite nodup_In, in_app_iff.
  destruct (aws.readProfilesFromFile config true) as [l1|];
    destruct (aws.readProfilesFromFile credentials false) as [l2|]; split.
  - intros [A|A]; [left; now exists l1|right; now exists l2].
  - intros [(l & E & A)|(l & E & A)]; injection E as <-; auto.
  - intros [A|[]]. left. now exists l1.
  - intros [(l & E & A)|(l & E & A)]; [injection E as <-; auto|discriminate E].
  - intros [[]|A]. right. now exists l2.
  - intros [(l & E & A)|(l & E & A)]; [discriminate E|injection E as <-; auto].
  - intros [[]|[]].
  - intros [(l & E & A)|(l & E & A)]; discriminate E.
Qed.

Lemma GetAvailableProfiles_wf (home : option string) (config credentials : aws.File)
      (profiles : list string) :
  aws.GetAvailableProfiles home config credentials profiles ->
  profiles <> [] /\ NoDup profiles /\ ~ In "" profiles.
Proof.
  intros H. destruct H as [_|h _ _|h profiles _ Hlen Hperm].
  - repeat split; [discriminate|repeat constructor; intros []|].
    intros [E|[]]. discriminate E.
  - repeat split; [discriminate|repeat constructor; intros []|].
    intros [E|[]]. discriminate E.
  - split; [|split].
    + intros ->. apply Permutation_nil in Hperm. rewrite Hperm in Hlen. now apply Hlen.
    + apply (Permutation_NoDup (Permutation_sym Hperm)). apply NoDup_nodup.
    + intros Hin. apply (Permutation_in _ Hperm), profileSet_In in Hin.
      destruct Hin as [(l & E & A)|(l & E & A)].
      * pose proof (readProfilesFromFile_names_nonempty config true) as X.
        rewrite E in X. now apply X.
      * pose proof (readProfilesFromFile_names_nonempty credentials false) as X.
        rewrite E in X. now apply X.
Qed.

(** X18.  [GetAvailableProfiles] always returns a list, never an empty
    one, never a name twice and never an empty name.  Without a home
    directory, or when the two files give no profile, the list is
    [default] alone; with a home directory and a profile in one of the
    files, it is the profiles of the configuration file and those of the
    credentials file and no other name, in no particular order. *)
Theorem GetAvailableProfiles_lists_each_profile_once :
  forall (home : option string) (config credentials : aws.File),
    let fromFiles := fun p =>
      (exists l, aws.readProfilesFromFile config true = Ok l /\ In p l) \/
      (exists l, aws.readProfilesFromFile credentials false = Ok l /\ In p l) in
    (exists profiles, aws.GetAvailableProfiles home config credentials profiles) /\
    forall profiles,
      aws.GetAvailableProfiles home config credentials profiles ->
      profiles <> [] /\ NoDup profiles /\ ~ In "" profiles /\
      (profiles = ["default"] \/ forall p, In p profiles <-> fromFiles p) /\
      (home = None \/ (forall p, ~ fromFiles p) -> profiles = ["default"]) /\
      (home <> None -> (exists p, fromFiles p) ->
       forall p, In p profiles <-> fromFiles p).
Proof.
  intros home config credentials fromFiles.
  assert (Hset : forall p, In p (aws.profileSet config credentials) <-> fromFiles p)
    by (intros p; apply profileSet_In).
  split.
  - destruct home as [h|].
    + destruct (aws.profileSet config credentials) as [|x l] eqn:E.
      * exists ["default"]. apply (aws.GetAvailableProfiles_none _ _ _ h); [reflexivity|].
        now rewrite E.
      * exists (x :: l). apply (aws.GetAvailableProfiles_found _ _ _ h); [reflexivity| |].
        -- rewrite E. discriminate.
        -- rewrite E. apply Permutation_refl.
    + exists ["default"]. now apply aws.GetAvailableProfiles_no_home.
  - intros profiles H.
    destruct (GetAvailableProfiles_wf _ _ _ _ H) as (A & B & C).
    split; [exact A|]. split; [exact B|]. split; [exact C|].
    destruct H as [Hh|h Hh Hlen|h profiles Hh Hlen Hperm].
    + split; [now left|]. split; [reflexivity|]. intros N. contradiction.
    + split; [now left|]. split; [reflexivity|]. intros _ [p Hp].
      apply Hset in Hp. destruct (aws.profileSet config credentials); [contradiction|].
      discriminate Hlen.
    + assert (Hiff : forall p, In p profiles <-> fromFiles p).
      { intros p. rewrite <- Hset. split; apply Permutation_in;
          [exact Hperm|exact (Permutation_sym Hperm)]. }
      split; [now right|]. split; [|intros _ _; exact Hiff].
      intros [Hn|Hn]; [congruence|]. exfalso.
      destruct (aws.profileSet config credentials) as [|x l] eqn:E;
        [now apply Hlen|].
      apply (Hn x). apply Hset. now left.
Qed.

(** With a home directory and two files, the profiles of both; without
    one, [default] and nothing else, whatever the files hold. *)
Lemma GetAvailableProfiles_lists_each_profile_once_witness :
  aws.GetAvailableProfiles (Some "/home/me")
    (aws.Sections ["DEFAULT"; "default"; "profile dev"; "sso-session corp"])
    (aws.Sections ["DEFAULT"; "dev"; "prod"])
    ["prod"; "default"; "DEFAULT"; "dev"] /\
  NoDup ["prod"; "default"; "DEFAULT"; "dev"] /\
  (In "dev" ["prod"; "default"; "DEFAULT"; "dev"] <->
   (exists l, aws.readProfilesFromFile
                (aws.Sections ["DEFAULT"; "default"; "profile dev"; "sso-session corp"]) true
              = Ok l /\ In "dev" l) \/
   (exists l, aws.readProfilesFromFile (aws.Sections ["DEFAULT"; "dev"; "prod"]) false
              = Ok l /\ In "dev" l)) /\
  (forall profiles,
     aws.GetAvailableProfiles None
       (aws.Sections ["DEFAULT"; "default"; "profile dev"; "sso-session corp"])
       (aws.Sections ["DEFAULT"; "dev"; "prod"]) profiles ->
     profiles = ["default"]).
Proof.
  assert (H : aws.GetAvailableProfiles (Some "/home/me")
                (aws.Sections ["DEFAULT"; "default"; "profile dev"; "sso-session corp"])
                (aws.Sections ["DEFAULT"; "dev"; "prod"])
                ["prod"; "default"; "DEFAULT"; "dev"]).
  { apply (aws.GetAvailableProfiles_found _ _ _ "/home/me"); [reflexivity|discriminate|].
    change (Permutation (["prod"] ++ ["default"; "DEFAULT"; "dev"])
                        (["default"; "DEFAULT"; "dev"] ++ ["prod"])).
    apply Permutation_app_comm. }
  split; [exact H|].
  destruct (proj2 (GetAvailableProfiles_lists_each_profile_once (Some "/home/me")
                     (aws.Sections ["DEFAULT"; "default"; "profile dev"; "sso-session corp"])
                     (aws.Sections ["DEFAULT"; "dev"; "prod"])) _ H)
    as (_ & Hnd & _ & _ & _ & Hall).
  split; [exact Hnd|]. split.
  - apply Hall; [discriminate|].
    exists "dev". right. eexists. split; [reflexivity|]. cbn. auto.
  - intros profiles Hp.
    exact (proj1 (proj2 (proj2 (proj2 (proj2
             (proj2 (GetAvailableProfiles_lists_each_profile_once None
                       (aws.Sections ["DEFAULT"; "default"; "profile dev"; "sso-session corp"])
                       (aws.Sections ["DEFAULT"; "dev"; "prod"])) _ Hp)))))
             (or_introl eq_refl)).
Defined.

(** ** Initialising and setting the selection *)

Lemma updateFirstSel_absent (name : string) (f : Selected -> Selected) (l : list Selected) :
  ~ In name (map SelName l) ->
  updateFirstSel (fun r => (SelName r =? name)%string) f l = None.
Proof.
  induction l as [|r l IH]; cbn [updateFirstSel map In]; intros H; [reflexivity|].
  destruct (String.eqb_spec (SelName r) name) as [E|N]; [exfalso; apply H; now left|].
  rewrite IH; [reflexivity|]. intros Hin. apply H. now right.
Qed.

Lemma enableEach_fresh (flt : SelFaults) (msg : string) (l : list string) (t t' : Table) :
  NoDup l -> ~ In "" l ->
  (forall n, In n l -> ~ In n (names t)) ->
  enableEach flt msg l t = (t', nil) ->
  names t' = (names t ++ l)%list /\ enabledNames t' = (enabledNames t ++ l)%list.
Proof.
  revert t. induction l as [|n l IH]; intros t Hnd Hne Hfresh H; cbn [enableEach] in H.
  - injection H as <-. now rewrite !app_nil_r.
  - destruct (enable flt n t) as [t1 [e|]] eqn:E; [discriminate H|].
    inversion Hnd as [|? ? Hn Hl]; subst.
    assert (E1 : rows t1 = (rows t ++ [{| SelID := next_id t; SelName := n; Enabled := true |}])%list).
    { unfold enable in E. destruct (flt (SelFirstOrCreate n)); [discriminate E|].
      rewrite isZero_false in E by (intros ->; apply Hne; now left). cbn [orb] in E.
      rewrite updateFirstSel_absent in E by (apply Hfresh; now left).
      now injection E as <-. }
    destruct (IH t1 Hl) as [A B]; [| |exact H|].
    + intros Hin. apply Hne. now right.
    + intros n' Hn' Hin. unfold names in Hin. rewrite E1, map_app, in_app_iff in Hin.
      destruct Hin as [Hin|[<-|[]]]; [|contradiction].
      apply (Hfresh n'); [now right|exact Hin].
    + unfold names, enabledNames in *. rewrite A, B, E1, filter_app, !map_app.
      cbn. now rewrite <- !app_assoc.
Qed.

(** X19.  On a table that has rows [InitializeRegions] and
    [InitializeProfiles] change nothing.  On an empty table, when they
    succeed, the first leaves exactly the ten default regions and the
    second exactly the profiles [GetAvailableProfiles] returned, each once,
    all enabled, in the order given. *)
Theorem initialising_fills_an_empty_table_and_no_other :
  forall (flt : SelFaults) (t t' : Table),
    (InitializeRegions flt t = (t', nil) ->
     (rows t <> [] -> t' = t) /\
     (rows t = [] -> names t' = defaultRegions /\ enabledNames t' = defaultRegions)) /\
    (forall home config credentials availableProfiles,
       aws.GetAvailableProfiles home config credentials availableProfiles ->
       InitializeProfiles flt availableProfiles t = (t', nil) ->
       (rows t <> [] -> t' = t) /\
       (rows t = [] -> names t' = availableProfiles /\ enabledNames t' = availableProfiles)).
Proof.
  intros flt t t'. split.
  - unfold InitializeRegions. destruct (flt SelCount); [discriminate|].
    destruct (rows t) as [|r l] eqn:R; cbn [List.length Nat.eqb]; intros H.
    + split; [congruence|]. intros _. unfold SetDefaultRegions in H.
      apply enableEach_fresh in H.
      * unfold names, enabledNames in *. now rewrite R in H.
      * unfold defaultRegions. repeat constructor; cbn; intuition discriminate.
      * unfold defaultRegions. cbn. intuition discriminate.
      * intros n _. unfold names. now rewrite R.
    + split; [|discriminate]. now injection H as <-.
  - intros home config credentials availableProfiles Hav.
    destruct (GetAvailableProfiles_wf _ _ _ _ Hav) as (_ & Hnd & Hne).
    unfold InitializeProfiles. destruct (flt SelCount); [discriminate|].
    destruct (rows t) as [|r l] eqn:R; cbn [List.length Nat.ltb Nat.leb]; intros H.
    + split; [congruence|]. intros _.
      apply enableEach_fresh in H; try assumption.
      * unfold names, enabledNames in *. now rewrite R in H.
      * intros n _. unfold names. now rewrite R.
    + split; [|discriminate]. now injection H as <-.
Qed.

Lemma initialising_fills_an_empty_table_and_no_other_witness :
  enabledNames (fst (InitializeRegions sel_no_faults empty_table)) = defaultRegions /\
  fst (InitializeRegions sel_no_faults regions_three) = regions_three.
Proof.
  split.
  - exact (proj2 (proj2 (proj1 (initialising_fills_an_empty_table_and_no_other
                                  sel_no_faults empty_table _) eq_refl) eq_refl)).
  - refine (proj1 (proj1 (initialising_fills_an_empty_table_and_no_other
                            sel_no_faults regions_three _) eq_refl) _).
    discriminate.
Defined.

Lemma setEnabled_same (r : Selected) : setEnabled (Enabled r) r = r.
Proof. destruct r; reflexivity. Qed.

Lemma map_other_ids (id : nat) (b : bool) (l : list Selected) :
  ~ In id (map SelID l) ->
  map (fun r => if (SelID r =? id)%nat then setEnabled b r else r) l = l.
Proof.
  induction l as [|r l IH]; cbn [map In]; intros H; [reflexivity|].
  destruct (Nat.eqb_spec (SelID r) id) as [E|_]; [exfalso; apply H; now left|].
  rewrite IH; [reflexivity|]. intros Hin. apply H. now right.
Qed.

Lemma updateEach_spec (flt : SelFaults) (l : list string) (suf pre : list Selected)
      (t t' : Table) :
  rows t
  = (map (fun r => setEnabled (existsb (String.eqb (SelName r)) l) r) pre ++ suf)%list ->
  NoDup (map SelID (pre ++ suf)) ->
  updateEach flt l suf t = (t', nil) ->
  rows t' = map (fun r => setEnabled (existsb (String.eqb (SelName r)) l) r) (pre ++ suf) /\
  next_id t' = next_id t.
Proof.
  revert pre t. induction suf as [|r suf IH]; intros pre t Hrows Hnd H; cbn [updateEach] in H.
  - injection H as <-. rewrite app_nil_r in *. now split.
  - assert (Hnd' : NoDup (map SelID ((pre ++ [r]) ++ suf))) by now rewrite <- app_assoc.
    destruct (Bool.eqb (Enabled r) (existsb (String.eqb (SelName r)) l)) eqn:B.
    + apply Bool.eqb_prop in B.
      destruct (IH (pre ++ [r])%list t) as [A1 A2]; [|exact Hnd'|exact H|].
      * rewrite map_app, <- app_assoc. cbn [map app]. rewrite <- B, setEnabled_same.
        exact Hrows.
      * rewrite <- app_assoc in A1. now split.
    + destruct (flt (SelUpdate _ _)); [discriminate H|].
      destruct (IH (pre ++ [r])%list
                   (updateEnabled (SelID r) (existsb (String.eqb (SelName r)) l) t))
        as [A1 A2]; [|exact Hnd'|exact H|].
      * unfold updateEnabled. cbn [rows]. rewrite Hrows, map_app. cbn [map].
        rewrite Nat.eqb_refl.
        rewrite map_app in Hnd. cbn [map] in Hnd. apply NoDup_remove_2 in Hnd.
        rewrite in_app_iff in Hnd.
        rewrite !map_other_ids.
        -- rewrite map_app, <- app_assoc. reflexivity.
        -- intros Hin. apply Hnd. now right.
        -- intros Hin. apply Hnd. left. rewrite map_map in Hin. exact Hin.
      * rewrite <- app_assoc in A1. now split.
Qed.

Lemma enableNew_spec (flt : SelFaults) (l : list string) (t t' : Table) :
  ~ In "" l ->
  no_unique_failure flt l ->
  enableNew flt l t = (t', nil) ->
  (forall n, In n (enabledNames t') <-> In n l \/ In n (enabledNames t)) /\
  exists added, names t' = (names t ++ added)%list.
Proof.
  revert t. induction l as [|n l IH]; intros t Hne Hu H; cbn [enableNew] in H.
  - injection H as <-. split; [intros n; cbn; tauto|]. exists []. now rewrite app_nil_r.
  - destruct (enable flt n t) as [t1 [e|]] eqn:E.
    + exfalso. unfold enable in E.
      destruct (flt (SelFirstOrCreate n)) as [e'|] eqn:F.
      * injection E as <- <-. rewrite (Hu n e' (or_introl eq_refl) F) in H. discriminate H.
      * destruct (updateFirstSel _ _ _); discriminate E.
    + destruct (enable_spec flt n t t1) as (A & B & _); [|exact E|].
      { intros ->. apply Hne. now left. }
      destruct (IH t1) as (C & added & D); [| |exact H|].
      { intros Hin. apply Hne. now right. }
      { intros n' e' Hn'. apply Hu. now right. }
      split.
      * intros n'. rewrite C, A. cbn [In]. intuition.
      * rewrite D, B. destruct (in_dec string_dec n (names t)).
        -- now exists added.
        -- exists (n :: added). now rewrite <- app_assoc.
Qed.

(** X20.  When [SetProfiles] succeeds on a table whose rows have
    distinct primary keys, for a list without an empty name, and the store
    reports no failure of the unique constraint, the enabled profiles are
    exactly the profiles of the list: those that were known are switched
    on or off as needed, those that were not are added, and no row is
    removed. *)
Theorem SetProfiles_enables_exactly_the_listed_profiles :
  forall (flt : SelFaults) (enabledProfiles : list string) (t t' : Table),
    NoDup (map SelID (rows t)) ->
    ~ In "" enabledProfiles ->
    no_unique_failure flt enabledProfiles ->
    SetProfiles flt enabledProfiles t = (t', nil) ->
    (forall flt' l, GetEnabledProfiles flt' t' = Ok l ->
                    forall n, In n l <-> In n enabledProfiles) /\
    exists added, names t' = (names t ++ added)%list.
Proof.
  intros flt l t t' Hnd Hne Hu H.
  cut ((forall n, In n (enabledNames t') <-> In n l) /\
       exists added, names t' = (names t ++ added)%list).
  { intros [A B]. split; [|exact B]. intros flt' l' G. unfold GetEnabledProfiles in G.
    destruct (flt' SelFindEnabled); [discriminate G|]. injection G as <-. exact A. }
  unfold SetProfiles in H.
  destruct (flt SelFindAll); [discriminate H|].
  destruct (updateEach flt l (rows t) t) as [t1 [m|]] eqn:U; [discriminate H|].
  destruct (updateEach_spec flt l (rows t) [] t t1 eq_refl Hnd U) as [A _].
  cbn [app] in A.
  destruct (enableNew_spec flt l t1 t' Hne Hu H) as (B & added & C).
  assert (N1 : names t1 = names t).
  { unfold names. rewrite A, map_map. apply map_ext. intros r. reflexivity. }
  split; [|exists added; now rewrite C, N1].
  intros n. rewrite B. split; [|now left]. intros [Hin|Hin]; [exact Hin|].
  unfold enabledNames in Hin. rewrite A in Hin. apply in_map_iff in Hin.
  destruct Hin as (r & <- & Hr). apply filter_In in Hr. destruct Hr as [Hr He].
  apply in_map_iff in Hr. destruct Hr as (r0 & <- & _).
  cbn [setEnabled Enabled SelName] in *.
  apply existsb_exists in He. destruct He as (x & Hx & Ex).
  apply String.eqb_eq in Ex. now subst.
Qed.

Lemma SetProfiles_enables_exactly_the_listed_profiles_witness :
  GetEnabledProfiles sel_no_faults
    (fst (SetProfiles sel_no_faults ["dev"; "staging"] profiles_three))
  = Ok ["dev"; "staging"] /\
  forall n, In n ["dev"; "staging"] <-> In n ["dev"; "staging"].
Proof.
  split; [reflexivity|].
  refine (proj1 (SetProfiles_enables_exactly_the_listed_profiles sel_no_faults
                   ["dev"; "staging"] profiles_three _ _ _ _ eq_refl)
            sel_no_faults _ eq_refl).
  - repeat constructor; cbn; intuition discriminate.
  - cbn. intuition discriminate.
  - intros n e _ F. discriminate F.
Defined.

(** ** The client manager *)

Lemma clientAt_cons (key k : string) (client : aws.Client) (cm : aws.ClientManager) :
  aws.clientAt k ((key, client) :: cm)
  = if (key =? k)%string then Some client else aws.clientAt k cm.
Proof. reflexivity. Qed.

(** X21.  [GetClient] makes a client once for a pair: after it has
    returned one for a profile and a region, asking again for the pair
    returns the same client without asking the SDK anything, and leaves the
    manager as it is.  A client that is made is made for the profile and
    region asked; when STS does not name the account the client is kept
    all the same, with the account [unknown].  A failure is not
    remembered, and the clients kept under other keys never change. *)
Theorem GetClient_makes_a_client_once :
  forall (sdk : aws.SDK) (cm cm' : aws.ClientManager) (profile region : string)
         (log : Log) (res : result aws.Client),
    aws.GetClient sdk cm profile region = (cm', log, res) ->
    (forall k, k <> clientKey profile region -> aws.clientAt k cm' = aws.clientAt k cm) /\
    match res with
    | Ok client =>
        aws.clientAt (clientKey profile region) cm' = Some client /\
        (forall sdk', aws.GetClient sdk' cm' profile region = (cm', [], Ok client)) /\
        (aws.clientAt (clientKey profile region) cm = None ->
         aws.LoadDefaultConfig sdk profile region = None /\
         aws.Profile client = profile /\ aws.Region client = region /\
         aws.AccountID client
         = match aws.GetCallerIdentity sdk profile region with
           | Ok (Some account) => account
           | _ => "unknown"
           end)
    | Error _ =>
        cm' = cm /\ aws.clientAt (clientKey profile region) cm = None /\
        aws.LoadDefaultConfig sdk profile region <> None
    end.
Proof.
  intros sdk cm cm' profile region log res H. unfold aws.GetClient in H.
  fold (clientKey profile region) in H.
  destruct (aws.clientAt (clientKey profile region) cm) as [c|] eqn:E.
  - injection H as <- <- <-. split; [reflexivity|]. split; [exact E|].
    split; [|discriminate]. intros sdk'. unfold aws.GetClient.
    fold (clientKey profile region). now rewrite E.
  - unfold aws.createClient in H.
    destruct (aws.LoadDefaultConfig sdk profile region) as [e|] eqn:L.
    + injection H as <- <- <-. split; [reflexivity|]. split; [reflexivity|].
      split; [reflexivity|discriminate].
    + assert (K : forall c, aws.clientAt (clientKey profile region)
                              ((clientKey profile region, c) :: cm) = Some c).
      { intros c. rewrite clientAt_cons. now rewrite String.eqb_refl. }
      assert (O : forall c k, k <> clientKey profile region ->
                    aws.clientAt k ((clientKey profile region, c) :: cm) = aws.clientAt k cm).
      { intros c k Hk. rewrite clientAt_cons.
        destruct (String.eqb_spec (clientKey profile region) k); [congruence|reflexivity]. }
      unfold aws.getAccountID in H.
      destruct (aws.GetCallerIdentity sdk profile region) as [[account|]|m];
        injection H as <- <- <-; (split; [apply O|]); (split; [apply K|]);
        (split; [intros sdk'; unfold aws.GetClient; fold (clientKey profile region);
                 now rewrite K|]);
        intros _; repeat split.
Qed.

Lemma GetClient_makes_a_client_once_witness :
  exists cm' log client,
    aws.GetClient sdk_dev aws.NewClientManager "old" "eu-west-1" = (cm', log, Ok client) /\
    aws.AccountID client = "unknown" /\
    forall sdk', aws.GetClient sdk' cm' "old" "eu-west-1" = (cm', [], Ok client).
Proof.
  eexists. eexists. eexists. split; [reflexivity|]. split; [reflexivity|].
  exact (proj1 (proj2 (proj2 (GetClient_makes_a_client_once sdk_dev aws.NewClientManager
                                _ "old" "eu-west-1" _ _ eq_refl)))).
Defined.

Lemma length_append (a b : string) :
  String.length (a ++ b) = (String.length a + String.length b)%nat.
Proof.
  induction a as [|c a IH]; cbn [append String.length]; [reflexivity|]. now rewrite IH.
Qed.

Lemma append_cancel_r (a b s : string) : a ++ s = b ++ s -> a = b.
Proof.
  revert b. induction a as [|c a IH]; intros [|d b] H.
  - reflexivity.
  - apply (f_equal String.length) in H. cbn [append String.length] in H.
    rewrite length_append in H. lia.
  - apply (f_equal String.length) in H. cbn [append String.length] in H.
    rewrite length_append in H. lia.
  - cbn [append] in H. injection H as -> H. now rewrite (IH b H).
Qed.

Lemma ValidateCredentials_spec (sdk : aws.SDK) (cm cm' : aws.ClientManager)
      (profile : string) (e : error) :
  (forall k c, aws.clientAt k cm = Some c ->
               k = clientKey (aws.Profile c) "us-east-1" /\ aws.Region c = "us-east-1" /\
               aws.LoadDefaultConfig sdk (aws.Profile c) "us-east-1" = None) ->
  aws.ValidateCredentials sdk cm profile = (cm', e) ->
  (forall k c, aws.clientAt k cm' = Some c ->
               k = clientKey (aws.Profile c) "us-east-1" /\ aws.Region c = "us-east-1" /\
               aws.LoadDefaultConfig sdk (aws.Profile c) "us-east-1" = None) /\
  (e = nil <-> validCredentials sdk profile).
Proof.
  intros Inv H. unfold aws.ValidateCredentials, aws.GetClient in H.
  fold (clientKey profile "us-east-1") in H. unfold validCredentials.
  destruct (aws.clientAt (clientKey profile "us-east-1") cm) as [c|] eqn:E.
  - destruct (Inv _ _ E) as (K & R & L).
    unfold clientKey in K. apply append_cancel_r in K. subst profile.
    rewrite R in H. unfold aws.getAccountID in H.
    destruct (aws.GetCallerIdentity sdk (aws.Profile c) "us-east-1") as [[a|]|m];
      cbv beta iota in H; unfold nil in H; injection H as <- <-; (split; [exact Inv|]).
    + split; [intros _; split; [exact L|now exists a]|reflexivity].
    + split; [discriminate|]. intros [_ [a Ha]]. discriminate Ha.
    + split; [discriminate|]. intros [_ [a Ha]]. discriminate Ha.
  - unfold aws.createClient in H.
    destruct (aws.LoadDefaultConfig sdk profile "us-east-1") as [m|] eqn:L.
    + injection H as <- <-. split; [exact Inv|]. split; [discriminate|].
      intros [X _]. discriminate X.
    + assert (Inv' : forall acct k c,
                aws.clientAt k ((clientKey profile "us-east-1",
                                 {| aws.Profile := profile; aws.Region := "us-east-1";
                                    aws.AccountID := acct |}) :: cm) = Some c ->
                k = clientKey (aws.Profile c) "us-east-1" /\ aws.Region c = "us-east-1" /\
                aws.LoadDefaultConfig sdk (aws.Profile c) "us-east-1" = None).
      { intros acct k c Hc. rewrite clientAt_cons in Hc.
        destruct (String.eqb_spec (clientKey profile "us-east-1") k) as [<-|_].
        - injection Hc as <-. cbn. auto.
        - now apply Inv. }
      unfold aws.getAccountID in H. cbn [aws.Profile aws.Region] in H.
      destruct (aws.GetCallerIdentity sdk profile "us-east-1") as [[a|]|m] eqn:G;
        cbv beta iota in H; cbn [aws.Profile aws.Region] in H; rewrite G in H;
        cbv beta iota in H; unfold nil in H; injection H as <- <-;
        (split; [apply Inv'|]).
      * split; [intros _; split; [reflexivity|now exists a]|reflexivity].
      * split; [discriminate|]. intros [_ [a Ha]]. discriminate Ha.
      * split; [discriminate|]. intros [_ [a Ha]]. discriminate Ha.
Qed.

Lemma validateEach_spec (sdk : aws.SDK) (profiles : list string) (cm : aws.ClientManager) :
  (forall k c, aws.clientAt k cm = Some c ->
               k = clientKey (aws.Profile c) "us-east-1" /\ aws.Region c = "us-east-1" /\
               aws.LoadDefaultConfig sdk (aws.Profile c) "us-east-1" = None) ->
  match validateEach sdk cm profiles with
  | None => Forall (validCredentials sdk) profiles
  | Some e =>
      exists pre p post,
        profiles = (pre ++ p :: post)%list /\
        Forall (validCredentials sdk) pre /\
        ~ validCredentials sdk p /\
        e = "invalid credentials for profile " ++ p
  end.
Proof.
  revert cm. induction profiles as [|p l IH]; intros cm Inv; cbn [validateEach];
    [constructor|].
  destruct (aws.ValidateCredentials sdk cm p) as [cm' e] eqn:V.
  destruct (ValidateCredentials_spec _ _ _ _ _ Inv V) as [Inv' Hv].
  destruct e as [m|].
  - exists [], p, l. split; [reflexivity|]. split; [constructor|]. split; [|reflexivity].
    intros X. apply Hv in X. discriminate X.
  - specialize (IH cm' Inv'). destruct (validateEach sdk cm' l) as [e|].
    + destruct IH as (pre & q & post & -> & A & B & C).
      exists (p :: pre), q, post. split; [reflexivity|].
      split; [constructor; [now apply Hv|exact A]|]. now split.
    + constructor; [now apply Hv|exact IH].
Qed.

(** X22.  [ValidateProfiles] accepts a list exactly when every profile
    of it is good: its configuration loads and STS names an account for it.
    Otherwise it stops at the first profile that is not, and names it.  A
    profile for which [GetClient] makes a client of account [unknown] is
    not accepted. *)
Theorem ValidateProfiles_accepts_the_good_profiles_only :
  forall (sdk : aws.SDK) (profiles : list string),
    (ValidateProfiles sdk profiles = nil <-> Forall (validCredentials sdk) profiles) /\
    (forall e, ValidateProfiles sdk profiles = Some e ->
       exists pre p post,
         profiles = (pre ++ p :: post)%list /\
         Forall (validCredentials sdk) pre /\
         ~ validCredentials sdk p /\
         e = "invalid credentials for profile " ++ p).
Proof.
  intros sdk profiles. unfold ValidateProfiles.
  pose proof (validateEach_spec sdk profiles aws.NewClientManager) as H.
  assert (Inv : forall k c, aws.clientAt k aws.NewClientManager = Some c ->
               k = clientKey (aws.Profile c) "us-east-1" /\ aws.Region c = "us-east-1" /\
               aws.LoadDefaultConfig sdk (aws.Profile c) "us-east-1" = None)
    by (intros k c X; discriminate X).
  specialize (H Inv). destruct (validateEach sdk aws.NewClientManager profiles) as [e|].
  - split.
    + split; [discriminate|]. intros F.
      destruct H as (pre & p & post & -> & _ & B & _). exfalso. apply B.
      rewrite Forall_forall in F. apply F. apply in_or_app. right. now left.
    + intros e' E. injection E as <-. exact H.
  - split; [split; [now intros _|reflexivity]|discriminate].
Qed.

Lemma ValidateProfiles_accepts_the_good_profiles_only_witness :
  ValidateProfiles sdk_dev ["dev"; "dev"] = nil /\
  ValidateProfiles sdk_dev ["dev"; "old"; "dev"] = Some "invalid credentials for profile old" /\
  exists pre p post,
    ["dev"; "old"; "dev"] = (pre ++ p :: post)%list /\ ~ validCredentials sdk_dev p.
Proof.
  split; [reflexivity|]. split; [reflexivity|].
  destruct (proj2 (ValidateProfiles_accepts_the_good_profiles_only sdk_dev ["dev"; "old"; "dev"])
              _ eq_refl) as (pre & p & post & E & _ & N & _).
  exists pre, p, post. now split.
Defined.

(** ** Connecting *)

(** X23.  [ConnectToInstance] starts at most one session.  It starts
    one only for a stored row named as asked (or, when there is none, named
    by what stands before the first dot), and then with the instance id,
    the profile and the region of that row, after the configuration of the
    profile has loaded and the agent inventory has answered for the
    instance with a status other than [Offline].  It returns no error only
    when the session was started and the AWS CLI exited well. *)
Theorem ConnectToInstance_starts_a_session_for_a_stored_row_only :
  forall (flt : Faults) (sdk : aws.SDK) (w : aws.SessionWorld) (instanceName : string)
         (db : DB) (commands : list (list string)) (err : error),
    ConnectToInstance flt sdk w instanceName db = (commands, err) ->
    (commands = [] \/
     exists r,
       commands = [[ "ssm"; "start-session"; "--target"; InstanceID r;
                     "--profile"; Profile r; "--region"; Region r ]] /\
       In r (instances db) /\
       (Name r = instanceName \/
        (named instanceName db = [] /\
         exists n, (0 < n)%nat /\ first_dot_at n instanceName /\
                   Name r = substring 0 n instanceName)) /\
       aws.LoadDefaultConfig sdk (Profile r) (Region r) = None /\
       exists info rest,
         aws.DescribeInstanceInformation w = Ok (info :: rest) /\
         ssmtypes.PingStatus info <> "Offline") /\
    (err = nil -> commands <> [] /\ aws.Run w = nil) /\
    (commands <> [] -> aws.Run w = nil -> err = nil).
Proof.
  intros flt sdk w instanceName db commands err H. unfold ConnectToInstance in H.
  destruct (FindByName flt instanceName db) as [[i|]|m] eqn:F;
    [|injection H as <- <-; split; [now left|split; [discriminate|congruence]]
     |injection H as <- <-; split; [now left|split; [discriminate|congruence]]].
  destruct (FindByName_sound _ _ _ _ F) as (r & Hin & -> & Hname).
  cbn [preload scan set_Tags Profile Region InstanceID] in H.
  unfold aws.GetClient in H. cbn [aws.clientAt aws.NewClientManager] in H.
  unfold aws.createClient in H.
  destruct (aws.LoadDefaultConfig sdk (Profile r) (Region r)) as [e|] eqn:L.
  { injection H as <- <-. split; [now left|split; [discriminate|congruence]]. }
  assert (S : forall acct,
            aws.StartSession w {| aws.Profile := Profile r; aws.Region := Region r;
                                  aws.AccountID := acct |} (InstanceID r)
            = match aws.checkInstanceReachability w with
              | Some _ => ([], Some "instance not reachable via SSM")
              | None =>
                  ([[ "ssm"; "start-session"; "--target"; InstanceID r;
                      "--profile"; Profile r; "--region"; Region r ]],
                   match aws.Run w with
                   | Some _ => Some "failed to start SSM session"
                   | None => nil
                   end)
              end) by reflexivity.
  assert (R : aws.checkInstanceReachability w = None ->
              exists info rest,
                aws.DescribeInstanceInformation w = Ok (info :: rest) /\
                ssmtypes.PingStatus info <> "Offline").
  { unfold aws.checkInstanceReachability.
    destruct (aws.DescribeInstanceInformation w) as [[|info rest]|]; try discriminate.
    destruct (String.eqb_spec (ssmtypes.PingStatus info) "Offline"); [discriminate|].
    intros _. now exists info, rest. }
  assert (G : exists acct,
            (commands, err)
            = match aws.StartSession w {| aws.Profile := Profile r; aws.Region := Region r;
                                          aws.AccountID := acct |} (InstanceID r) with
              | (commands, Some _) => (commands, Some "failed to start SSM session")
              | (commands, None) => (commands, nil)
              end).
  { destruct (aws.getAccountID (aws.GetCallerIdentity sdk (Profile r) (Region r))) as [a|];
      cbv beta iota in H; eexists; symmetry; exact H. }
  clear H. destruct G as [acct G]. rewrite S in G.
  destruct (aws.checkInstanceReachability w) as [e|] eqn:C.
  { injection G as -> ->. split; [now left|split; [discriminate|congruence]]. }
  destruct (R eq_refl) as (info & rest & D & P).
  destruct (aws.Run w) as [e|]; injection G as -> ->.
  - split; [|split; [discriminate|discriminate]].
    right. exists r. repeat split; try assumption. now exists info, rest.
  - split; [|split; [intros _; split; [discriminate|reflexivity]|reflexivity]].
    right. exists r. repeat split; try assumption. now exists info, rest.
Qed.

Lemma ConnectToInstance_starts_a_session_for_a_stored_row_only_witness :
  ConnectToInstance no_faults sdk_dev session_online "web.example.com" db_web
  = ([[ "ssm"; "start-session"; "--target"; "mi-0cc";
        "--profile"; "prod"; "--region"; "eu-west-1" ]], nil) /\
  aws.Run session_online = nil.
Proof.
  split; [reflexivity|].
  exact (proj2 (proj1 (proj2 (ConnectToInstance_starts_a_session_for_a_stored_row_only
                                no_faults sdk_dev session_online "web.example.com" db_web
                                _ _ eq_refl)) eq_refl)).
Defined.

(** ** ssm list *)

Lemma skipn_cons_nth {A : Type} (i : nat) (l t : list A) (x : A) :
  skipn i l = x :: t -> nth_error l i = Some x /\ skipn (S i) l = t.
Proof.
  revert l. induction i as [|i IH]; intros [|y l] H; cbn [skipn] in H; try discriminate H.
  - injection H as -> ->. now split.
  - exact (IH l H).
Qed.

Lemma skipn_store (i j : nat) (x : Instance) (l : list Instance) :
  (j < i)%nat -> skipn i (cmd.store j x l) = skipn i l.
Proof.
  revert i j. induction l as [|y l IH]; intros [|i] [|j] H; cbn [cmd.store skipn];
    try reflexivity; try lia.
  apply IH. lia.
Qed.

Lemma firstn_store (j : nat) (x : Instance) (l : list Instance) :
  (j < List.length l)%nat -> firstn (S j) (cmd.store j x l) = (firstn j l ++ [x])%list.
Proof.
  revert j. induction l as [|y l IH]; intros [|j] H; cbn [List.length] in H; try lia.
  - reflexivity.
  - cbn [cmd.store firstn app]. f_equal. apply IH. lia.
Qed.

Lemma keepLoop_spec (keep : Instance -> bool) (todo done cur : list Instance) (j : nat) :
  (j <= List.length done)%nat ->
  firstn j cur = filter keep done ->
  skipn (List.length done) cur = todo ->
  let '(j', cur') := cmd.keepLoop keep (List.length todo) (List.length done) j cur in
  firstn j' cur' = filter keep (done ++ todo).
Proof.
  revert done cur j. induction todo as [|x todo IH]; intros done cur j Hj Hf Hs;
    cbn [List.length cmd.keepLoop].
  - now rewrite app_nil_r.
  - destruct (skipn_cons_nth _ _ _ _ Hs) as [Hn Hs']. rewrite Hn.
    assert (Hlen : (List.length done < List.length cur)%nat).
    { apply nth_error_Some. congruence. }
    replace (S (List.length done)) with (List.length (done ++ [x]))
      by (rewrite length_app; cbn; lia).
    replace (done ++ x :: todo)%list with ((done ++ [x]) ++ todo)%list
      by (now rewrite <- app_assoc).
    destruct (keep x) eqn:K.
    + apply IH.
      * rewrite length_app. cbn. lia.
      * rewrite firstn_store by lia. rewrite Hf, filter_app. cbn [filter]. now rewrite K.
      * rewrite length_app. cbn [List.length]. rewrite Nat.add_1_r.
        rewrite skipn_store by lia. exact Hs'.
    + apply IH.
      * rewrite length_app. cbn. lia.
      * rewrite Hf, filter_app. cbn [filter]. rewrite K. now rewrite app_nil_r.
      * rewrite length_app. cbn [List.length]. rewrite Nat.add_1_r. exact Hs'.
Qed.

(** X24.  Without [--all], [ssm list] shows the instances the service
    returned whose id begins with [mi-] and whose state is [Online] in any
    case of letters, in the order returned and each once: the loop that
    writes the instances it keeps over the slice it reads loses none and
    repeats none.  With [--all] it shows them all. *)
Theorem runList_shows_the_managed_instances_that_are_online :
  forall instances : list Instance,
    cmd.listed false instances = filter cmd.managedOnline instances /\
    cmd.listed true instances = instances /\
    (forall inst,
       cmd.managedOnline inst = true <->
       (exists rest, InstanceID inst = "mi-" ++ rest) /\ lower (State inst) = "online").
Proof.
  intros instances. split; [|split; [reflexivity|]].
  - unfold cmd.listed.
    pose proof (keepLoop_spec cmd.managedOnline instances [] instances 0
                  (Nat.le_refl _) eq_refl eq_refl) as H.
    cbn [List.length app] in H.
    now destruct (cmd.keepLoop cmd.managedOnline (List.length instances) 0 0 instances).
  - intros inst. unfold cmd.managedOnline, strings.HasPrefix, strings.EqualFold.
    rewrite andb_true_iff, String.eqb_eq. split.
    + intros [P E]. split; [exact (prefix_append _ _ P)|exact E].
    + intros [[rest ->] E]. split; [apply prefix_of_append|exact E].
Qed.

(** ** The goroutines of a run *)

Lemma spawnRegions_spec (profile : string) (regions : list string) (world : nat -> World)
      (k : nat) :
  map (fun g => (g_profile g, g_region g)) (spawnRegions profile regions world k)
  = map (pair profile) regions /\
  map g_world (spawnRegions profile regions world k)
  = map world (seq k (List.length regions)).
Proof.
  revert k. induction regions as [|r regions IH]; intros k; cbn [spawnRegions map List.length seq].
  - now split.
  - destruct (IH (S k)) as [A B]. cbn [g_profile g_region g_world]. now rewrite A, B.
Qed.

(** X25.  A run starts one goroutine for each pair of a profile and a
    region, the pairs of the first profile first, as many as the error
    channel has slots; the goroutines get the answers of the outside world
    in the order they are started. *)
Theorem spawn_starts_one_goroutine_per_pair :
  forall (profiles regions : list string) (world : nat -> World),
    map (fun g => (g_profile g, g_region g)) (spawn profiles regions world 0)
    = list_prod profiles regions /\
    List.length (spawn profiles regions world 0)
    = (List.length profiles * List.length regions)%nat /\
    map g_world (spawn profiles regions world 0)
    = map world (seq 0 (List.length profiles * List.length regions)).
Proof.
  intros profiles regions world.
  assert (H : forall k,
            map (fun g => (g_profile g, g_region g)) (spawn profiles regions world k)
            = list_prod profiles regions /\
            map g_world (spawn profiles regions world k)
            = map world (seq k (List.length profiles * List.length regions))).
  { induction profiles as [|p profiles IH]; intros k; cbn [spawn list_prod List.length Nat.mul].
    - now split.
    - destruct (spawnRegions_spec p regions world k) as [A B].
      destruct (IH (k + List.length regions)%nat) as [C D].
      rewrite !map_app, A, B, C, D, seq_app, map_app. now split. }
  destruct (H 0%nat) as [A B]. split; [exact A|]. split; [|exact B].
  rewrite <- (length_map (fun g => (g_profile g, g_region g))), A. apply length_prod.
Qed.

Lemma spawn_no_regions (profiles : list string) (world : nat -> World) (k : nat) :
  spawn profiles [] world k = [].
Proof.
  revert k. induction profiles as [|p profiles IH]; intros k; cbn [spawn spawnRegions app];
    [reflexivity|apply IH].
Qed.

Lemma execAll_cons (c : Call) (cs : list Call) (db : DB) :
  fst (execAll (c :: cs) db) = fst (execAll cs (fst (exec c db))).
Proof.
  cbn [execAll]. destruct (exec c db) as [db1 l1]. cbn [fst].
  now destruct (execAll cs db1).
Qed.

Lemma Interleaved_single (pending : list (list Call)) (db db' : DB) :
  Interleaved pending db db' ->
  (pending = [] -> db' = db) /\
  (forall cs, pending = [cs] -> db' = fst (execAll cs db)).
Proof.
  induction 1 as [pending db Hall|before c cs after db db' H IH].
  - split; [reflexivity|]. intros cs ->. inversion Hall; subst. reflexivity.
  - split.
    + intros E. destruct before; discriminate E.
    + intros cs0 E. destruct before as [|b before].
      * cbn [app] in E. injection E as <- ->. rewrite execAll_cons.
        apply (proj2 IH). reflexivity.
      * exfalso. injection E as _ E. destruct before; discriminate E.
Qed.

(** X26.  A run without profiles, or without regions after the enabled
    ones have been read from the store, starts no unit: it returns no
    error and the store it leaves is the store it found, less what the
    clean-up evicts. *)
Theorem DiscoverInstances_with_nothing_to_discover :
  forall (env : Env) (world : nat -> World) (profiles regions regions' : list string)
         (db db' : DB) (err : error),
    resolveRegions env regions = Ok regions' ->
    profiles = [] \/ regions' = [] ->
    DiscoverInstances env world profiles regions db db' err ->
    err = nil /\ db' = fst (fst (cleanupStaleInstances env db)).
Proof.
  intros env world profiles regions regions' db db' err Hres Hnone H.
  destruct H as [m Hm|regions'' db1 Hres' Hint]; [congruence|].
  assert (regions'' = regions') by congruence. subst regions''.
  assert (E : spawn profiles regions' world 0 = []).
  { destruct Hnone as [->| ->]; [reflexivity|apply spawn_no_regions]. }
  rewrite E in *. cbn [map] in Hint.
  rewrite (proj1 (Interleaved_single _ _ _ Hint) eq_refl). now split.
Qed.

Lemma DiscoverInstances_with_nothing_to_discover_witness :
  exists db',
    DiscoverInstances env_day world_two [] [] db_web db' nil /\
    db' = fst (fst (cleanupStaleInstances env_day db_web)).
Proof.
  pose proof (Discover_run env_day world_two [] [] db_web ["eu-west-1"] db_web eq_refl
                (Interleaved_done [] db_web (Forall_nil _))) as D.
  eexists. split; [exact D|].
  exact (proj2 (DiscoverInstances_with_nothing_to_discover env_day world_two [] []
                  ["eu-west-1"] db_web _ _ eq_refl (or_introl eq_refl) D)).
Defined.



(** ** indexOfDot *)

Lemma get_Some_lt (s : string) (n : nat) (c : ascii) :
  get n s = Some c -> (n < String.length s)%nat.
Proof.
  revert n. induction s as [|d s IH]; intros [|n] H; cbn [get String.length] in *;
    try discriminate H; [lia|].
  apply IH in H. lia.
Qed.

(** X28.  [indexOfDot] returns -1 for a string without a dot, and
    otherwise the index of its first dot, which is an index of the string:
    every byte before it is not a dot. *)
Theorem indexOfDot_is_the_index_of_the_first_dot :
  forall s : string,
    (indexOfDot s = -1 /\ no_dot s) \/
    (exists n, indexOfDot s = Z.of_nat n /\ (n < String.length s)%nat /\ first_dot_at n s).
Proof.
  intros s. unfold indexOfDot.
  destruct (indexOfDot_from_spec s 0) as [[E Hno]|(n & E & Hfirst)].
  - left. now split.
  - right. exists n. split; [rewrite E; lia|]. split; [|exact Hfirst].
    destruct Hfirst as [Hget _]. exact (get_Some_lt _ _ _ Hget).
Qed.

(** ** ssm list, from the store to the lines *)





(** ** What an upsert cannot erase *)

Lemma ConvertEC2Instance_tags (e : ectype.Instance) (region profile accountID : string) :
  map kv (Tags (ConvertEC2Instance e region profile accountID)) = complete (tagsOf e).
Proof.
  unfold ConvertEC2Instance, tagsOf. destruct (ectype.Tags e) as [ts|]; [|reflexivity].
  rewrite convertTags_spec. cbn [Tags app]. rewrite map_map. cbn [kv Key Value].
  rewrite <- (map_id (complete ts)) at 2. apply map_ext. intros [k v]. reflexivity.
Qed.

Lemma ConvertEC2Instance_unnamed (e : ectype.Instance) (region profile accountID : string) :
  (forall v, ~ In ("Name", v) (complete (tagsOf e))) ->
  Name (ConvertEC2Instance e region profile accountID) = "".
Proof.
  unfold ConvertEC2Instance, tagsOf. destruct (ectype.Tags e) as [ts|]; [|reflexivity].
  rewrite convertTags_spec. cbn [Name]. apply fold_name_absent.
Qed.

Lemma ConvertEC2Instance_State (e : ectype.Instance) (region profile accountID : string) :
  State (ConvertEC2Instance e region profile accountID) = ectype.StateName e.
Proof.
  unfold ConvertEC2Instance.
  destruct (ectype.Tags e) as [ts|]; [destruct (convertTags ts "" [])|]; reflexivity.
Qed.

(** X30.  A compute-source instance that has lost its [Name] tag keeps
    the name the store has for it: the upsert writes the columns of the
    record that are not empty only, so the stored name stays, while
    [last_seen] is renewed, the state follows the listing and the stored
    tags are replaced by the tags the instance has now, if it has any. *)
Theorem an_instance_without_Name_tag_keeps_its_stored_name :
  forall (flt : Faults) (now : Time) (e : ectype.Instance)
         (region profile accountID : string) (db db' : DB) (r : Instance),
    ectype.InstanceId e <> "" -> region <> "" -> profile <> "" ->
    lookup (ectype.InstanceId e, region, profile) (instances db) = Some r ->
    (forall v, ~ In ("Name", v) (complete (tagsOf e))) ->
    SaveOrUpdateBatch flt now [ConvertEC2Instance e region profile accountID] db = (db', nil) ->
    exists r',
      lookup (ectype.InstanceId e, region, profile) (instances db') = Some r' /\
      Name r' = Name r /\
      ID r' = ID r /\
      State r' = over (ectype.StateName e) (State r) /\
      LastSeen r' = now /\
      (complete (tagsOf e) <> [] ->
       map kv (tags_of (ectype.InstanceId e) db') = complete (tagsOf e)) /\
      (complete (tagsOf e) = [] ->
       tags_of (ectype.InstanceId e) db' = tags_of (ectype.InstanceId e) db).
Proof.
  intros flt now e region profile accountID db db' r Hid Hr Hp Hl Hname H.
  apply SaveOrUpdateBatch_ok in H. cbn [upsertAll] in H.
  set (i := ConvertEC2Instance e region profile accountID) in *.
  destruct (upsertOne flt now i db) as [db1|] eqn:U; [|discriminate H].
  injection H as <-.
  assert (K : key i = (ectype.InstanceId e, region, profile))
    by apply key_ConvertEC2Instance.
  assert (Hk : keyed i) by exact (keyed_of_key _ _ _ _ K Hid Hr Hp).
  destruct (firstOrCreate_lookup now i db Hk) as (L & _ & _). cbv zeta in L.
  rewrite <- (upsertOne_instances _ _ _ _ _ U), K, Hl in L.
  exists (assignTo now i r). split; [exact L|].
  cbn [Name ID State LastSeen assignTo].
  unfold i at 1. rewrite (ConvertEC2Instance_unnamed _ _ _ _ Hname). cbn [isZero String.eqb].
  split; [reflexivity|]. split; [reflexivity|].
  split; [unfold over, i; now rewrite ConvertEC2Instance_State|].
  split; [reflexivity|].
  pose proof (ConvertEC2Instance_tags e region profile accountID) as T. fold i in T.
  destruct (upsertOne_tags_of flt now i db db1 "" U) as (A & _ & B).
  assert (I : InstanceID i = ectype.InstanceId e) by (unfold key in K; congruence).
  rewrite <- I. split.
  - intros Hne. rewrite <- T in Hne |- *. apply B. apply hasTags_true.
    intros E. apply Hne. now rewrite E.
  - intros He. unfold tags_of. rewrite A; [reflexivity|]. apply hasTags_false.
    rewrite <- T in He. destruct (Tags i); [reflexivity|discriminate He].
Qed.

Lemma an_instance_without_Name_tag_keeps_its_stored_name_witness :
  exists r',
    lookup ("i-0bb", "eu-west-1", "dev")
           (instances (fst (SaveOrUpdateBatch no_faults 9000
                              [ConvertEC2Instance ec2_0bb_unnamed "eu-west-1" "dev" "123456789012"]
                              db_web))) = Some r' /\
    Name r' = "web" /\ State r' = "stopped" /\ LastSeen r' = 9000 /\
    map kv (tags_of "i-0bb"
              (fst (SaveOrUpdateBatch no_faults 9000
                      [ConvertEC2Instance ec2_0bb_unnamed "eu-west-1" "dev" "123456789012"]
                      db_web))) = [("Env", "dev")].
Proof.
  destruct (an_instance_without_Name_tag_keeps_its_stored_name no_faults 9000 ec2_0bb_unnamed
              "eu-west-1" "dev" "123456789012" db_web
              (fst (SaveOrUpdateBatch no_faults 9000
                      [ConvertEC2Instance ec2_0bb_unnamed "eu-west-1" "dev" "123456789012"]
                      db_web))
              (row 2 "i-0bb" "web" "eu-west-1" "dev" "Running" 4000 4000))
    as (r' & L & N & _ & S & T & G & _); try reflexivity; try discriminate.
  - intros v [E|[]]. discriminate E.
  - exists r'. split; [exact L|]. split; [exact N|]. split; [exact S|]. split; [exact T|].
    apply G. discriminate.
Defined.
